(** * A shallow embedding of the job-control shell in [src/main.cpp]

    The shell is a single-threaded loop over input lines.  Everything it
    does to the outside world is a system call or a write to a stream; the
    embedding records those in a [trace], and reads the answers of the
    operating system from scripted lists kept in the [world].  The C++
    globals ([jobs], [next_jid], [child_terminated], [shell_pgid]) are
    fields of the same [world], threaded through a state-and-failure
    monad. *)

From Stdlib Require Import ZArith Lia Ascii String DecimalString.
From stdpp Require Import base list strings.

Local Open Scope string_scope.
Local Open Scope list_scope.
Local Open Scope Z_scope.

(** ** Data model (main.cpp, lines 45-59) *)

Inductive JobStatus := RUNNING | STOPPED | DONE.

Record Job := mkJob {
  jid : Z;            (* job id (%n) *)
  pgid : Z;           (* process group id *)
  cmd : string;
  status : JobStatus
}.

Record Command := mkCommand {
  argv : list string;
  infile : string;
  outfile : string;
  append : bool
}.

(** A default-constructed [Command], as [cmds.emplace_back()] makes it. *)
Definition empty_command : Command := mkCommand [] "" "" false.

Definition set_status (s : JobStatus) (j : Job) : Job :=
  mkJob (jid j) (pgid j) (cmd j) s.

Definition str_empty (s : string) : bool :=
  match s with EmptyString => true | _ => false end.

(** ** Characters and numbers *)

(** [isspace] in the "C" locale: space and the controls 9..13. *)
Definition isspace (c : ascii) : bool :=
  let n := nat_of_ascii c in
  ((n =? 32) || ((9 <=? n) && (n <=? 13)))%nat.

(** The test [c < '0' || c > '9'] of line 414, negated. *)
Definition is_digit (c : ascii) : bool :=
  let n := nat_of_ascii c in ((48 <=? n) && (n <=? 57))%nat.

Fixpoint all_digits (s : string) : bool :=
  match s with
  | EmptyString => true
  | String c r => if is_digit c then all_digits r else false
  end.

Fixpoint digits_value (acc : Z) (s : string) : Z :=
  match s with
  | String c r =>
      if is_digit c
      then digits_value (acc * 10 + (Z.of_nat (nat_of_ascii c) - 48)) r
      else acc
  | EmptyString => acc
  end.

Fixpoint skip_space (s : string) : string :=
  match s with
  | String c r => if isspace c then skip_space r else s
  | EmptyString => s
  end.

Definition LONG_MAX : Z := 2 ^ 63 - 1.
Definition LONG_MIN : Z := - 2 ^ 63.

Definition INT_MAX : Z := 2 ^ 31 - 1.
Definition INT_MIN : Z := - 2 ^ 31.

(** The conversion of a [long] to [int]: 32 bits, two's complement. *)
Definition to_int (z : Z) : Z := (z + 2 ^ 31) mod 2 ^ 32 - 2 ^ 31.

(** [atoi] as the C library computes it: [(int) strtol (s, NULL, 10)];
    blanks are skipped, one sign is read, the digits that follow are the
    value, [strtol] saturates at the bounds of [long], and the cast keeps
    the low 32 bits. *)
Definition atoi (s : string) : Z :=
  let s1 := skip_space s in
  let v :=
    match s1 with
    | String "-" r => - digits_value 0 r
    | String "+" r => digits_value 0 r
    | _ => digits_value 0 s1
    end in
  to_int (Z.max LONG_MIN (Z.min LONG_MAX v)).

(** [operator<<] on an [int]: its decimal digits. *)
Definition show (z : Z) : string := NilZero.string_of_int (Z.to_int z).

(** ** Trimming and tokenizing (lines 25-43) *)

Fixpoint rtrim (s : string) : string :=
  match s with
  | EmptyString => EmptyString
  | String c r =>
      match rtrim r with
      | EmptyString => if isspace c then EmptyString else String c EmptyString
      | r' => String c r'
      end
  end.

Definition ltrim (s : string) : string := skip_space s.

Definition trim (s : string) : string := rtrim (ltrim s).

(** [s.back()] and [s.pop_back()] on a string. *)
Fixpoint str_back (s : string) : option ascii :=
  match s with
  | EmptyString => None
  | String c EmptyString => Some c
  | String _ r => str_back r
  end.

Fixpoint str_pop_back (s : string) : string :=
  match s with
  | EmptyString => EmptyString
  | String c EmptyString => EmptyString
  | String c r => String c (str_pop_back r)
  end.

Definition str_tail (s : string) : string :=
  match s with String _ r => r | EmptyString => EmptyString end.

(** [s.c_str()] as a C function reads it: the bytes before the first
    NUL.  A line of [getline] can hold NUL bytes, and so can a token. *)
Fixpoint c_str (s : string) : string :=
  match s with
  | EmptyString => EmptyString
  | String c r => if Ascii.eqb c zero then EmptyString else String c (c_str r)
  end.

(** [parseInput]: [while (ss >> word) tokens.push_back(word)].  [word] is
    the word being read, kept reversed; blanks end it. *)
Fixpoint parse_words (s : string) (word : list ascii) : list string :=
  let flush (rest : list string) :=
    match word with
    | [] => rest
    | _ => string_of_list_ascii (rev word) :: rest
    end in
  match s with
  | EmptyString => flush []
  | String c r =>
      if isspace c then flush (parse_words r [])
      else parse_words r (c :: word)
  end.

Definition parseInput (input : string) : list string := parse_words input [].

(** ** Job Table (lines 61-92) *)

(** The lookups return a [Job*] into the vector [jobs]: here the index of
    the first match together with the job read through it, so that a
    later write through the pointer is a write at that index. *)
Fixpoint find_index {A} (p : A -> bool) (i : nat) (l : list A) : option (nat * A) :=
  match l with
  | [] => None
  | x :: r => if p x then Some (i, x) else find_index p (S i) r
  end.

Definition find_job_by_jid (n : Z) (js : list Job) : option (nat * Job) :=
  find_index (fun j => jid j =? n) 0%nat js.

Definition find_job_by_pgid (g : Z) (js : list Job) : option (nat * Job) :=
  find_index (fun j => pgid j =? g) 0%nat js.

Definition remove_job_by_pgid (g : Z) (js : list Job) : list Job :=
  List.filter (fun j => negb (pgid j =? g)) js.

Definition status_name (s : JobStatus) : string :=
  match s with RUNNING => "Running" | STOPPED => "Stopped" | DONE => "Done" end.

Definition nl : string := String (ascii_of_nat 10) EmptyString.

Definition job_line (j : Job) : string :=
  ("[" ++ show (jid j) ++ "] " ++ show (pgid j) ++ " " ++
   status_name (status j) ++ "    " ++ cmd j ++ nl)%string.

(** ** Command Builder (lines 126-157) *)

(** [cmds.back().field = ...]: a write to the last element. *)
Fixpoint on_back (f : Command -> Command) (cmds : list Command) : list Command :=
  match cmds with
  | [] => []
  | [c] => [f c]
  | c :: cs => c :: on_back f cs
  end.

Definition set_infile (f : string) (c : Command) : Command :=
  mkCommand (argv c) f (outfile c) (append c).
Definition set_outfile (f : string) (a : bool) (c : Command) : Command :=
  mkCommand (argv c) (infile c) f a.
Definition push_arg (t : string) (c : Command) : Command :=
  mkCommand (argv c ++ [t]) (infile c) (outfile c) (append c).

(** The [for] loop of [buildCommands].  A redirection operator takes the
    next token with it ([++i]); one with no token after it changes
    nothing. *)
Fixpoint scan (tokens : list string) (cmds : list Command) : list Command :=
  match tokens with
  | [] => cmds
  | tk :: rest =>
      if String.eqb tk "|" then scan rest (cmds ++ [empty_command])
      else if String.eqb tk "<" then
        match rest with
        | f :: rest' => scan rest' (on_back (set_infile f) cmds)
        | [] => cmds
        end
      else if String.eqb tk ">" then
        match rest with
        | f :: rest' => scan rest' (on_back (set_outfile f false) cmds)
        | [] => cmds
        end
      else if String.eqb tk ">>" then
        match rest with
        | f :: rest' => scan rest' (on_back (set_outfile f true) cmds)
        | [] => cmds
        end
      else scan rest (on_back (push_arg tk) cmds)
  end.

Definition is_blank (c : Command) : bool :=
  match argv c with [] => str_empty (infile c) && str_empty (outfile c) | _ => false end.

Definition back_is_blank (cmds : list Command) : bool :=
  match last cmds with Some c => is_blank c | None => false end.

Definition buildCommands (tokens : list string) : list Command :=
  let cmds := scan tokens [empty_command] in
  if back_is_blank cmds then removelast cmds else cmds.

(** ** The world of the shell process *)

Inductive errno := ECHILD | EINTR | EOTHER.

(** What the macros [WIFEXITED], [WIFSIGNALED], [WIFSTOPPED] and
    [WIFCONTINUED] read in [status]. *)
Inductive wstatus := Exited | Signaled | Stopped | Continued.

(** One answer of [waitpid]: its return value, [errno], and [status]. *)
Record wait_ret := mkWait { w_ret : Z; w_errno : errno; w_status : wstatus }.

Inductive signal := SIGTERM | SIGCONT | SIGNULL.
Inductive wopt := WNOHANG | WUNTRACED | WCONTINUED.

(** What the shell does, in program order. *)
Inductive event :=
| Stdout (s : string)
| Stderr (s : string)
| Perror (s : string)
| SysPipe
| SysFork
| SysSetpgid (pid pg : Z)
| SysClose (fd : Z)
| SysTcsetpgrp (pg : Z)
| SysTcgetattr
| SysWaitpid (pid : Z) (opts : list wopt)
| SysKill (pid : Z) (sig : signal)
| SysChdir (path : string).

(** The globals of the program, the trace, and the answers the operating
    system will give to the calls whose result the shell looks at.  A call
    whose result is dropped ([close], [setpgid], [tcsetpgrp], [tcgetattr],
    the [kill] of the clean-up) only leaves its entry in the trace. *)
Record world := World {
  jobs : list Job;
  next_jid : Z;
  child_terminated : Z;
  shell_pgid : Z;
  trace : list event;
  os_pipe : list (option (Z * Z));
  os_fork : list Z;
  os_wait : list wait_ret;
  os_kill : list Z;
  os_chdir : list Z
}.

Definition with_jobs (js : list Job) (w : world) : world :=
  World js (next_jid w) (child_terminated w) (shell_pgid w) (trace w)
        (os_pipe w) (os_fork w) (os_wait w) (os_kill w) (os_chdir w).
Definition with_next_jid (n : Z) (w : world) : world :=
  World (jobs w) n (child_terminated w) (shell_pgid w) (trace w)
        (os_pipe w) (os_fork w) (os_wait w) (os_kill w) (os_chdir w).
Definition with_flag (f : Z) (w : world) : world :=
  World (jobs w) (next_jid w) f (shell_pgid w) (trace w)
        (os_pipe w) (os_fork w) (os_wait w) (os_kill w) (os_chdir w).
Definition with_trace (t : list event) (w : world) : world :=
  World (jobs w) (next_jid w) (child_terminated w) (shell_pgid w) t
        (os_pipe w) (os_fork w) (os_wait w) (os_kill w) (os_chdir w).
Definition with_pipe (l : list (option (Z * Z))) (w : world) : world :=
  World (jobs w) (next_jid w) (child_terminated w) (shell_pgid w) (trace w)
        l (os_fork w) (os_wait w) (os_kill w) (os_chdir w).
Definition with_fork (l : list Z) (w : world) : world :=
  World (jobs w) (next_jid w) (child_terminated w) (shell_pgid w) (trace w)
        (os_pipe w) l (os_wait w) (os_kill w) (os_chdir w).
Definition with_wait (l : list wait_ret) (w : world) : world :=
  World (jobs w) (next_jid w) (child_terminated w) (shell_pgid w) (trace w)
        (os_pipe w) (os_fork w) l (os_kill w) (os_chdir w).
Definition with_kill (l : list Z) (w : world) : world :=
  World (jobs w) (next_jid w) (child_terminated w) (shell_pgid w) (trace w)
        (os_pipe w) (os_fork w) (os_wait w) l (os_chdir w).
Definition with_chdir (l : list Z) (w : world) : world :=
  World (jobs w) (next_jid w) (child_terminated w) (shell_pgid w) (trace w)
        (os_pipe w) (os_fork w) (os_wait w) (os_kill w) l.

(** [log e w]: the shell did [e]. *)
Definition log (e : event) (w : world) : world := with_trace (trace w ++ [e]) w.
Definition logs (es : list event) (w : world) : world := with_trace (trace w ++ es) w.

(** Computations of the shell: they change the world and fail only when a
    script of answers runs out, that is, when the call has not returned. *)
Definition M (A : Type) : Type := world -> option (A * world).

Definition ret {A} (a : A) : M A := fun w => Some (a, w).
Definition bind {A B} (m : M A) (k : A -> M B) : M B :=
  fun w => match m w with Some (a, w') => k a w' | None => None end.
Definition lift (f : world -> world) : M unit := fun w => Some (tt, f w).

Notation "'do' x <- m ; k" := (bind m (fun x => k))
  (at level 10, x name, m at level 100, k at level 200).
Notation "m ;; k" := (bind m (fun _ => k))
  (at level 100, k at level 200, right associativity).

Definition emit (e : event) : M unit := lift (log e).

Definition sys_pipe : M (option (Z * Z)) := fun w =>
  match os_pipe w with
  | r :: rest => Some (r, log SysPipe (with_pipe rest w))
  | [] => None
  end.

Definition sys_fork : M Z := fun w =>
  match os_fork w with
  | r :: rest => Some (r, log SysFork (with_fork rest w))
  | [] => None
  end.

Definition sys_kill (pid : Z) (sig : signal) : M Z := fun w =>
  match os_kill w with
  | r :: rest => Some (r, log (SysKill pid sig) (with_kill rest w))
  | [] => None
  end.

Definition sys_chdir (path : string) : M Z := fun w =>
  match os_chdir w with
  | r :: rest => Some (r, log (SysChdir path) (with_chdir rest w))
  | [] => None
  end.

(** [register]: the four assignments and the [push_back] of lines 276-281
    and 304-309.  [next_jid] is an [int]: [next_jid++] at [INT_MAX] leaves
    [INT_MIN], as the compiled program does. *)
Definition register (pg : Z) (raw : string) (s : JobStatus) (w : world) : world :=
  with_jobs (jobs w ++ [mkJob (next_jid w) pg raw s])
            (with_next_jid (to_int (next_jid w + 1)) w).

(** The status lines: [word] is the literal the statement prints. *)
Definition notice (j : Job) (word : string) : string :=
  (nl ++ "[" ++ show (jid j) ++ "] " ++ show (pgid j) ++ " " ++ word ++
   "    " ++ cmd j ++ nl)%string.

Definition print_jobs (w : world) : world :=
  logs (map (fun j => Stdout (job_line j)) (jobs w)) w.

Section Shell.

(** [getpgid] as the system answers it (negative on failure), and the
    value of the environment variable [HOME]. *)
Variable getpgid : Z -> Z.
Variable HOME : option string.

Definition find_job_by_pid (pid : Z) (js : list Job) : option (nat * Job) :=
  let pg := getpgid pid in
  if pg <? 0 then None else find_job_by_pgid pg js.

(** *** Signal/Reap Coordinator (lines 19-23 and 95-124) *)

Definition sigchld_handler (w : world) : world := with_flag 1 w.

(** The body of the [while] of [update_jobs] for one reaped child. *)
Definition reap (pid : Z) (st : wstatus) (w : world) : world :=
  let j := find_job_by_pid pid (jobs w) in
  match st with
  | Exited | Signaled =>
      match j with
      | Some (_, t) =>
          with_jobs (remove_job_by_pgid (pgid t) (jobs w))
                    (log (Stdout (notice t "Done")) w)
      | None => w
      end
  | Stopped =>
      match j with
      | Some (i, t) =>
          log (Stdout (notice t "Stopped"))
              (with_jobs (alter (set_status STOPPED) i (jobs w)) w)
      | None => w
      end
  | Continued =>
      match j with
      | Some (i, t) =>
          log (Stdout (notice t "Continued"))
              (with_jobs (alter (set_status RUNNING) i (jobs w)) w)
      | None => w
      end
  end.

Definition drain_opts : list wopt := [WNOHANG; WUNTRACED; WCONTINUED].

(** The [while] itself: it goes on as long as [waitpid] returns a
    positive pid. *)
Fixpoint drain (script : list wait_ret) (w : world) : option (list wait_ret * world) :=
  match script with
  | [] => None
  | r :: rest =>
      let w1 := log (SysWaitpid (-1) drain_opts) w in
      if 0 <? w_ret r then drain rest (reap (w_ret r) (w_status r) w1)
      else Some (rest, w1)
  end.

Definition update_jobs : M unit := fun w =>
  match drain (os_wait w) w with
  | Some (rest, w') => Some (tt, with_flag 0 (with_wait rest w'))
  | None => None
  end.

(** *** Pipeline Executor (lines 159-326) *)

(** How [runPipeline] ends in the process that is modelled: it returns a
    value, it calls [exit], or [fork] has returned 0 and this process is
    the child of stage [i], which goes on to [execvp] or [_exit] and
    never comes back to the loop of the shell. *)
Inductive rp_result :=
| RpRet (v : Z)
| RpExit (code : Z)
| RpChild (i : nat) (pg : Z).

(** Lines 183-190: [k] pipes are still to be made, the next one is number
    [i].  The result is [None] when [pipe] failed. *)
Fixpoint make_pipes (k i : nat) (pipes : list Z) : M (option (list Z)) :=
  match k with
  | O => ret (Some pipes)
  | S k' =>
      do r <- sys_pipe;
      match r with
      | None => emit (Perror "pipe") ;; ret None
      | Some (rd, wr) =>
          make_pipes k' (S i) (<[(2 * i + 1)%nat := wr]> (<[(2 * i)%nat := rd]> pipes))
      end
  end.

Inductive fork_end :=
| Forked (pg : Z) (pids : list Z)
| ForkFailed
| InChild (i : nat) (pg : Z).

(** Lines 192-266, in the parent: [k] stages are still to be started, the
    next one is stage [i]. *)
Fixpoint fork_all (k i : nat) (pg : Z) (pids : list Z) : M fork_end :=
  match k with
  | O => ret (Forked pg pids)
  | S k' =>
      do pid <- sys_fork;
      if pid <? 0 then
        emit (Perror "fork") ;;
        lift (logs (map (fun c => SysKill (- c) SIGTERM) pids)) ;;
        ret ForkFailed
      else if pid =? 0 then ret (InChild i pg)
      else
        let pg' := if pg =? 0 then pid else pg in
        emit (SysSetpgid pid pg') ;;
        fork_all k' (S i) pg' (pids ++ [pid])
  end.

(** The blocking wait on a group, lines 294-317 (and again 454-469):
    [on_stop] is what the loop does before its [break] when a member is
    reported stopped. *)
Fixpoint wait_group (on_stop : world -> world) (pg : Z)
    (script : list wait_ret) (w : world) : option (list wait_ret * world) :=
  match script with
  | [] => None
  | r :: rest =>
      let w1 := log (SysWaitpid (- pg) [WUNTRACED]) w in
      if w_ret r <? 0 then
        match w_errno r with
        | ECHILD => Some (rest, w1)
        | EINTR => wait_group on_stop pg rest w1
        | EOTHER => Some (rest, w1)
        end
      else
        match w_status r with
        | Stopped => Some (rest, on_stop w1)
        | _ => wait_group on_stop pg rest w1
        end
  end.

Definition wait_for (on_stop : world -> world) (pg : Z) : M unit := fun w =>
  match wait_group on_stop pg (os_wait w) w with
  | Some (rest, w') => Some (tt, with_wait rest w')
  | None => None
  end.

(** Lines 302-310: the job of a stopped foreground pipeline. *)
Definition stop_foreground (pg : Z) (raw : string) (w : world) : world :=
  log (Stdout (notice (mkJob (next_jid w) pg raw STOPPED) "Stopped"))
      (register pg raw STOPPED w).

(** Lines 283-323, the [else] branch. *)
Definition foreground (pg : Z) (raw : string) : M unit :=
  emit (SysTcsetpgrp pg) ;;
  wait_for (stop_foreground pg raw) pg ;;
  do sh <- (fun w => Some (shell_pgid w, w));
  emit (SysTcsetpgrp sh) ;;
  emit SysTcgetattr.

(** Lines 274-282, the [if] branch. *)
Definition background_job (pg : Z) (raw : string) : M unit := fun w =>
  Some (tt, log (Stdout ("[" ++ show (next_jid w) ++ "] " ++ show pg ++ " Started" ++ nl)%string)
                (register pg raw RUNNING w)).

(** Lines 182-325. *)
Definition launch (n : nat) (background : bool) (raw : string) : M rp_result :=
  do ps <- make_pipes (n - 1) 0 (replicate (2 * (n - 1)) 0);
  match ps with
  | None => ret (RpRet (-1))
  | Some pipes =>
      do f <- fork_all n 0 0 [];
      match f with
      | ForkFailed => ret (RpRet (-1))
      | InChild i pg => ret (RpChild i pg)
      | Forked pg pids =>
          lift (logs (map SysClose pipes)) ;;
          let pg := if pg =? 0 then match pids with [] => 0 | p :: _ => p end else pg in
          (if background then background_job pg raw else foreground pg raw) ;;
          ret (RpRet 0)
      end
  end.

(** [cd]: lines 167-170 (and 394-399).  [chdir] gets [c_str()] of the
    token, or what [getenv] gives. *)
Definition builtin_cd (args : list string) : M unit :=
  let path :=
    match args !! 1%nat with
    | Some p => c_str p
    | None => match HOME with Some h => h | None => "/" end
    end in
  do r <- sys_chdir path;
  if r =? 0 then ret tt else emit (Perror "cd").

Definition runPipeline (cmds : list Command) (background : bool) (raw : string)
  : M rp_result :=
  let n := length cmds in
  match cmds with
  | [] => ret (RpRet (-1))
  | c0 :: _ =>
      match (if (n =? 1)%nat && negb background then argv c0 else []) with
      | [] => launch n background raw
      | name :: _ =>
          if String.eqb name "cd" then builtin_cd (argv c0) ;; ret (RpRet 0)
          else if String.eqb name "jobs" then lift print_jobs ;; ret (RpRet 0)
          else if String.eqb name "fg" || String.eqb name "bg" then launch n background raw
          else if String.eqb name "exit" then ret (RpExit 0)
          else launch n background raw
      end
  end.

(** *** Foreground Control Switch and main loop (lines 337-494) *)

(** Lines 421 and 425: a process group first, a member process second. *)
Definition by_group_or_pid (p : Z) (js : list Job) : option (nat * Job) :=
  if p =? 0 then None
  else match find_job_by_pgid p js with
       | Some t => Some t
       | None => find_job_by_pid p js
       end.

(** Lines 404-430: the target of [fg] and [bg].  [percent] is the test
    [!tokens[1].empty() && tokens[1][0] == '%'], and [str_tail] is
    [tokens[1].c_str() + 1].  [atoi] gets the C string of the token and
    reads on it what it reads on the token ([atoi_c_str]). *)
Definition resolve_target (tokens : list string) (js : list Job) : option (nat * Job) :=
  match tokens !! 1%nat with
  | Some t1 =>
      let percent :=
        match t1 with String c _ => Ascii.eqb c "%" | EmptyString => false end in
      if percent then
        let n := atoi (str_tail t1) in
        if 0 <? n then find_job_by_jid n js else None
      else if all_digits t1 then
        match find_job_by_jid (atoi t1) js with
        | Some t => Some t
        | None => by_group_or_pid (atoi t1) js
        end
      else by_group_or_pid (atoi t1) js
  | None =>
      match last js with
      | Some t => Some ((length js - 1)%nat, t)
      | None => None
      end
  end.

(** How one turn of the loop of [main] ends. *)
Inductive flow :=
| Continue
| Break
| Exit (code : Z)
| Child (i : nat) (pg : Z).

Definition cont_kill (t : Job) : M unit :=
  do r <- sys_kill (- pgid t) SIGCONT;
  if r <? 0 then emit (Perror "kill(SIGCONT)") else ret tt.

(** Lines 437-442. *)
Definition do_bg (i : nat) (t : Job) : M unit :=
  cont_kill t ;;
  lift (fun w => with_jobs (alter (set_status RUNNING) i (jobs w)) w) ;;
  emit (Stdout ("[" ++ show (jid t) ++ "] " ++ show (pgid t) ++
                " Continued in background" ++ nl)%string).

(** Lines 461-465: [target->status = STOPPED] and the notice. *)
Definition stop_target (i : nat) (t : Job) (w : world) : world :=
  log (Stdout (notice t "Stopped"))
      (with_jobs (alter (set_status STOPPED) i (jobs w)) w).

(** Lines 443-480. *)
Definition do_fg (i : nat) (t : Job) : M unit :=
  emit (SysTcsetpgrp (pgid t)) ;;
  cont_kill t ;;
  wait_for (stop_target i t) (pgid t) ;;
  do r <- sys_kill (- pgid t) SIGNULL;
  (if r <? 0
   then lift (fun w => with_jobs (remove_job_by_pgid (pgid t) (jobs w)) w)
   else ret tt) ;;
  do sh <- (fun w => Some (shell_pgid w, w));
  emit (SysTcsetpgrp sh).

(** Lines 402-481; [name] is [tokens[0]], either "fg" or "bg". *)
Definition fg_bg (name : string) (tokens : list string) : M unit := fun w =>
  match resolve_target tokens (jobs w) with
  | None => emit (Stderr (name ++ ": no such job" ++ nl)%string) w
  | Some (i, t) =>
      if String.eqb name "bg" then do_bg i t w else do_fg i t w
  end.

(** Lines 388-490: what the loop does with the tokens of a line. *)
Definition dispatch (tokens : list string) (background : bool) (input : string)
  : M flow :=
  match tokens with
  | [] => ret Continue
  | t0 :: _ =>
      if String.eqb t0 "jobs" then lift print_jobs ;; ret Continue
      else if String.eqb t0 "cd" then builtin_cd tokens ;; ret Continue
      else if String.eqb t0 "exit" then ret (Exit 0)
      else if String.eqb t0 "fg" || String.eqb t0 "bg" then
        fg_bg t0 tokens ;; ret Continue
      else
        match buildCommands tokens with
        | [] => ret Continue
        | cmds =>
            do r <- runPipeline cmds background input;
            ret (match r with
                 | RpRet _ => Continue
                 | RpExit c => Exit c
                 | RpChild i pg => Child i pg
                 end)
        end
  end.

(** Lines 364-386: from the line read to its tokens and background flag. *)
Definition read_command (line : string) : M flow :=
  let input := trim line in
  if str_empty input then ret Continue
  else
    let amp := match str_back input with Some "&"%char => true | _ => false end in
    let input := if amp then trim (str_pop_back input) else input in
    let tokens := parseInput input in
    match tokens with
    | [] => ret Continue
    | _ =>
        let sep := match last tokens with
                   | Some t => String.eqb t "&"
                   | None => false
                   end in
        dispatch (if sep then removelast tokens else tokens) (amp || sep) input
    end.

(** Line 362: the flag is read, and the pass runs when it is set. *)
Definition poll_children : M unit := fun w =>
  if child_terminated w =? 0 then Some (tt, w) else update_jobs w.

(** Lines 364-490; [line] is what [getline] gives, [None] at the end of
    the input. *)
Definition prompt_and_run (line : option string) : M flow :=
  emit (Stdout "myshell> ") ;;
  match line with
  | None => ret Break
  | Some l => read_command l
  end.

(** One turn of [while (true)] in [main]. *)
Definition main_iter (line : option string) : M flow :=
  poll_children ;; prompt_and_run line.

(** ** Delivery of SIGCHLD (lines 352-357)

    The program installs [sigchld_handler] with two flags.  When the
    system then runs the handler is not in the program: [raises_sigchld]
    states it as POSIX does for [sigaction]. *)

Inductive sa_flag := SA_RESTART | SA_NOCLDSTOP.

(** [sa.sa_flags] as [main] installs it. *)
Definition sa_flags : list sa_flag := [SA_RESTART; SA_NOCLDSTOP].

Definition has_nocldstop (fl : list sa_flag) : bool :=
  existsb (fun f => match f with SA_NOCLDSTOP => true | _ => false end) fl.

(** SIGCHLD is generated when a child exits or is terminated; when a
    child stops or a stopped child continues it is generated unless
    [SA_NOCLDSTOP] is set. *)
Definition raises_sigchld (fl : list sa_flag) (change : wstatus) : bool :=
  match change with
  | Exited | Signaled => true
  | Stopped | Continued => negb (has_nocldstop fl)
  end.

(** What a change of state of a child does to the shell, asynchronously:
    the handler runs when the signal is raised. *)
Definition child_changed (change : wstatus) (w : world) : world :=
  if raises_sigchld sa_flags change then sigchld_handler w else w.

End Shell.

(** ** The loop of [main] (lines 361-491)

    What the outside does around one turn of the loop.  SIGCHLD can
    arrive at any moment; the flag is read at line 362 only and written
    at line 123 only, so a signal during a turn either is overwritten by
    line 123 or is seen by the next poll as one that came just before it:
    [t_sigchld] says whether the handler has run since the last poll.
    [getpgid] answers for the processes that exist when it is asked:
    [t_getpgid_pass] during the pass of [update_jobs], [t_getpgid]
    during the command.  [t_line] is what [getline] gives, [None] at the
    end of the input. *)
Record turn := Turn {
  t_sigchld : bool;
  t_getpgid_pass : Z -> Z;
  t_getpgid : Z -> Z;
  t_line : option string
}.

Definition deliver (t : turn) : M unit :=
  lift (fun w => if t_sigchld t then sigchld_handler w else w).

(** One turn of [while (true)], with what happens around it. *)
Definition main_turn (HOME : option string) (t : turn) : M flow :=
  deliver t ;;
  poll_children (t_getpgid_pass t) ;;
  prompt_and_run (t_getpgid t) HOME (t_line t).

(** The loop on the turns to come.  When they run out the shell is
    waiting in [getline]: the loop has not come back. *)
Fixpoint main_loop (HOME : option string) (turns : list turn) : M flow :=
  match turns with
  | [] => fun _ => None
  | t :: rest =>
      do f <- main_turn HOME t;
      match f with
      | Continue => main_loop HOME rest
      | _ => ret f
      end
  end.

(** * Vocabulary of the statements *)

(** ** Command Builder

    A token sequence read as pipe separators, redirections with their
    path, and arguments; an operator with no token after it is dropped.
    The stage that such a reading describes is [spec_stage]; that
    [buildCommands] computes it is proved below ([scan_spec]). *)

Inductive item :=
| IPipe
| IIn (f : string)
| IOut (f : string)
| IApp (f : string)
| IArg (s : string).

Fixpoint spec_items (tokens : list string) : list item :=
  match tokens with
  | [] => []
  | tk :: rest =>
      if String.eqb tk "|" then IPipe :: spec_items rest
      else if String.eqb tk "<" then
        match rest with f :: rest' => IIn f :: spec_items rest' | [] => [] end
      else if String.eqb tk ">" then
        match rest with f :: rest' => IOut f :: spec_items rest' | [] => [] end
      else if String.eqb tk ">>" then
        match rest with f :: rest' => IApp f :: spec_items rest' | [] => [] end
      else IArg tk :: spec_items rest
  end.

(** The items of each stage: the runs between pipe separators. *)
Fixpoint spec_slices (its : list item) : list (list item) :=
  match its with
  | [] => [[]]
  | IPipe :: r => [] :: spec_slices r
  | x :: r =>
      match spec_slices r with
      | s :: ss => (x :: s) :: ss
      | [] => [[x]]
      end
  end.

Definition is_in (x : item) : bool :=
  match x with IIn _ => true | _ => false end.
Definition is_out (x : item) : bool :=
  match x with IOut _ | IApp _ => true | _ => false end.

Definition apply_item (c : Command) (x : item) : Command :=
  match x with
  | IPipe => c
  | IIn f => set_infile f c
  | IOut f => set_outfile f false c
  | IApp f => set_outfile f true c
  | IArg s => push_arg s c
  end.

Definition spec_stage (slice : list item) : Command :=
  fold_left apply_item slice empty_command.

(** The redirections of stage [c] are the last ones of [slice]: its
    input file is the path of the last [<], its output file and append
    flag are those of the last [>] or [>>]. *)
Definition last_redirections (slice : list item) (c : Command) : Prop :=
  (forall pre f post,
      slice = pre ++ IIn f :: post ->
      forallb (fun x => negb (is_in x)) post = true ->
      infile c = f) /\
  (forall pre f post,
      slice = pre ++ IOut f :: post ->
      forallb (fun x => negb (is_out x)) post = true ->
      outfile c = f /\ append c = false) /\
  (forall pre f post,
      slice = pre ++ IApp f :: post ->
      forallb (fun x => negb (is_out x)) post = true ->
      outfile c = f /\ append c = true).

Definition count_pipes (tokens : list string) : nat :=
  length (List.filter (fun t => String.eqb t "|") tokens).

(** [weave c slices]: the stages of [slices] when the first one continues
    the stage [c] that the loop is building. *)
Definition weave (c : Command) (slices : list (list item)) : list Command :=
  match slices with
  | s :: ss => fold_left apply_item s c :: map spec_stage ss
  | [] => [c]
  end.

(** ** Waiting *)

(** The answers of [waitpid] after which the loop goes round again: an
    interrupted call, and a member that has not stopped. *)
Definition goes_on (r : wait_ret) : bool :=
  if w_ret r <? 0
  then match w_errno r with EINTR => true | _ => false end
  else match w_status r with Stopped => false | _ => true end.

(** The answer that reports a stopped member. *)
Definition reports_stop (r : wait_ret) : bool :=
  negb (w_ret r <? 0) && match w_status r with Stopped => true | _ => false end.

Definition wait_call (pg : Z) : event := SysWaitpid (- pg) [WUNTRACED].

Definition drain_call : event := SysWaitpid (-1) drain_opts.

Definition is_exit (st : wstatus) : bool :=
  match st with Exited | Signaled => true | _ => false end.

Definition is_waitpid (e : event) : bool :=
  match e with SysWaitpid _ _ => true | _ => false end.

Definition waitpid_calls (t : list event) : list event := List.filter is_waitpid t.

(** The processes that the trace puts in group [g]. *)
Definition members_of (g : Z) (t : list event) : list Z :=
  flat_map (fun e => match e with
                     | SysSetpgid p g' => if g' =? g then [p] else []
                     | _ => []
                     end) t.

Section Passes.

Variable getpgid : Z -> Z.

(** One turn of the loop of [update_jobs]: the call and what follows. *)
Definition reap_step (w : world) (r : wait_ret) : world :=
  reap getpgid (w_ret r) (w_status r) (log drain_call w).

End Passes.

(** ** Launching *)

(** The calls of the parent for the children it creates, when the group
    is [pg] so far (0: none yet). *)
Fixpoint fork_events (pg : Z) (pids : list Z) : list event :=
  match pids with
  | [] => []
  | p :: ps =>
      let g := if pg =? 0 then p else pg in
      SysFork :: SysSetpgid p g :: fork_events g ps
  end.

Definition group_after (pg : Z) (pids : list Z) : Z :=
  fold_left (fun g p => if g =? 0 then p else g) pids pg.

(** ** Job Table *)

(** No entry of the table has group [g]. *)
Definition no_group (g : Z) (js : list Job) : Prop :=
  Forall (fun j => pgid j <> g) js.

(** Job ids are below [next_jid], positive, and increase along the
    table. *)
Definition jids_below (w : world) : Prop :=
  Forall (fun j => jid j < next_jid w) (jobs w).

Definition jids_positive (w : world) : Prop :=
  0 < next_jid w /\ Forall (fun j => 0 < jid j) (jobs w).

(** The table lists the jobs in the order of their ids. *)
Definition jids_increasing (js : list Job) : Prop :=
  forall i k a b, (i < k)%nat -> js !! i = Some a -> js !! k = Some b -> jid a < jid b.

Definition table_ok (w : world) : Prop :=
  jids_below w /\ jids_increasing (jobs w) /\ jids_positive w.

(** From a table in order, with room for [k] more ids below [INT_MAX],
    the table is in order again and the counter has moved up by at most
    [k]. *)
Definition table_step (k : nat) (w w' : world) : Prop :=
  table_ok w -> next_jid w + Z.of_nat k <= INT_MAX ->
  table_ok w' /\ next_jid w <= next_jid w' <= next_jid w + Z.of_nat k.

(** A computation keeps the table in order and registers at most [k]
    jobs. *)
Definition keeps_table (k : nat) {A} (m : M A) : Prop :=
  forall w a w', m w = Some (a, w') -> table_step k w w'.

(** ** Concrete worlds *)

(** The shell at start-up (group 500), and a system in which the
    processes 100 and 101 are in group 100. *)
Definition w0 : world := World [] 1 0 500 [] [] [] [] [] [].
Definition gp0 (p : Z) : Z :=
  if p =? 101 then 100 else if p =? 100 then 100 else -1.

(** A system that has forgotten every process asked about, and one in
    which 100 has been reaped while 101 is still in group 100. *)
Definition gp_gone (p : Z) : Z := -1.
Definition gp_reaped (p : Z) : Z := if p =? 101 then 100 else -1.

Definition sleep_job : Job := mkJob 1 100 "sleep 1 | sleep 100" RUNNING.

Definition w_fg : world :=
  with_wait [mkWait 100 EOTHER Exited; mkWait (-1) EINTR Exited;
             mkWait 101 EOTHER Stopped; mkWait 102 EOTHER Exited]
            (with_jobs [mkJob 1 90 "sleep 9" RUNNING] (with_next_jid 2 w0)).

Definition w_reap : world :=
  with_wait [mkWait 100 EOTHER Exited; mkWait 0 EOTHER Exited]
            (with_flag 1 (with_jobs [sleep_job] w0)).

From Stdlib Require DecimalPos DecimalZ.

(** ** [parse_job_token] (lines 328-335) *)

Definition parse_job_token (arg : string) : Z :=
  match arg with
  | EmptyString => 0
  | String c r => if Ascii.eqb c "%" then atoi r else 0
  end.

(** ** Words and plain tokens *)

(** No character of [s] is a blank. *)
Fixpoint no_space (s : string) : bool :=
  match s with
  | EmptyString => true
  | String c r => negb (isspace c) && no_space r
  end.

(** Every character of [s] is a blank. *)
Fixpoint all_space (s : string) : bool :=
  match s with
  | EmptyString => true
  | String c r => isspace c && all_space r
  end.

(** A word as [operator>>] reads it: not empty, without blanks. *)
Definition is_word (s : string) : bool := negb (str_empty s) && no_space s.

Definition str_front (s : string) : option ascii :=
  match s with String c _ => Some c | EmptyString => None end.

Definition not_blank (o : option ascii) : Prop :=
  match o with Some c => isspace c = false | None => True end.

(** The words written one after the other with one space between. *)
Fixpoint unwords (ws : list string) : string :=
  match ws with
  | [] => ""
  | [w] => w
  | w :: r => (w ++ " " ++ unwords r)%string
  end.

(** A token that [buildCommands] takes as an argument. *)
Definition plain (t : string) : bool :=
  negb (String.eqb t "|" || String.eqb t "<" || String.eqb t ">" || String.eqb t ">>").

Definition args_of (its : list item) : list string :=
  flat_map (fun x => match x with IArg s => [s] | _ => [] end) its.

Definition pipes_of (its : list item) : nat :=
  length (List.filter (fun x => match x with IPipe => true | _ => false end) its).

(** The descriptors of the pipes, read end then write end, in the order
    in which [pipe] made them. *)
Definition pipe_fds (fds : list (Z * Z)) : list Z :=
  flat_map (fun p => [fst p; snd p]) fds.

(** ** References to jobs *)

(** [t], at index [i], is the first entry of the table in group [g]. *)
Definition first_of_group (g : Z) (js : list Job) (i : nat) (t : Job) : Prop :=
  js !! i = Some t /\ pgid t = g /\
  forall k a, (k < i)%nat -> js !! k = Some a -> pgid a <> g.

(** No entry of the table has the job id [n]. *)
Definition no_jid (n : Z) (js : list Job) : Prop :=
  Forall (fun j => jid j <> n) js.

(** ** More concrete worlds *)

(** A table of two jobs. *)
Definition job_one : Job := mkJob 1 100 "sleep 1 | sleep 100" STOPPED.
Definition job_two : Job := mkJob 2 200 "vi" STOPPED.
Definition two_jobs : list Job := [job_one; job_two].
Definition w_two : world := with_jobs two_jobs w0.

(** The job "sleep 1 | sleep 100 &" with the members 100 and 101, when
    100 has exited and 101 has stopped. *)
Definition w_miss : world :=
  with_wait [mkWait 100 EOTHER Exited; mkWait 101 EOTHER Stopped; mkWait 0 EOTHER Exited]
            (with_flag 1 (with_jobs [sleep_job] w0)).

(** The job "sleep 1 &" with the one member 100, when 100 has exited. *)
Definition sleep1_job : Job := mkJob 1 100 "sleep 1" RUNNING.
Definition w_outlive : world :=
  with_wait [mkWait 100 EOTHER Exited; mkWait 0 EOTHER Exited]
            (with_flag 1 (with_jobs [sleep1_job] w0)).

(** A session of three turns: "echo hi | wc -w" in the foreground; then,
    SIGCHLD having arrived, a pass and "jobs"; then the end of the
    input. *)
Definition turns_fg : list turn :=
  [Turn false gp0 gp0 (Some "echo hi | wc -w");
   Turn true gp_gone gp_gone (Some "jobs");
   Turn false gp_gone gp_gone None].
Definition w_turns_fg : world :=
  with_wait [mkWait 100 EOTHER Exited; mkWait 101 EOTHER Exited;
             mkWait (-1) ECHILD Exited; mkWait (-1) ECHILD Exited]
            (with_pipe [Some (3, 4)] (with_fork [100; 101] w0)).

(** A session of three turns: "sleep 1 &"; then, the child 100 having
    exited and SIGCHLD having arrived, a pass and "sleep 2 &"; then the
    end of the input. *)
Definition turns_bg : list turn :=
  [Turn false gp0 gp0 (Some "sleep 1 &");
   Turn true gp_gone gp_gone (Some "sleep 2 &");
   Turn false gp_gone gp_gone None].
Definition w_turns_bg : world :=
  with_wait [mkWait 100 EOTHER Exited; mkWait 0 EOTHER Exited]
            (with_fork [100; 200] w0).

(** ** Terminal ownership *)

(** The groups to which the trace gave the terminal, in order. *)
Definition tcsetpgrp_targets (t : list event) : list Z :=
  flat_map (fun e => match e with SysTcsetpgrp g => [g] | _ => [] end) t.

(** The terminal is with the shell: the last [tcsetpgrp] of the trace, if
    there is one, named the group of the shell. *)
Definition tty_home (w : world) : Prop :=
  match last (tcsetpgrp_targets (trace w)) with
  | Some g => g = shell_pgid w
  | None => True
  end.

(** What a computation adds to the trace satisfies [ok], and it leaves
    [shell_pgid] alone. *)
Definition extends (ok : Z -> list event -> Prop) {A} (m : M A) : Prop :=
  forall w a w',
    m w = Some (a, w') ->
    shell_pgid w' = shell_pgid w /\
    exists es, trace w' = trace w ++ es /\ ok (shell_pgid w) es.

Definition quiet_ok (sh : Z) (es : list event) : Prop := tcsetpgrp_targets es = [].

Definition home_ok (sh : Z) (es : list event) : Prop :=
  tcsetpgrp_targets es = [] \/ last (tcsetpgrp_targets es) = Some sh.

(** The same for a change of the world that cannot fail. *)
Definition wquiet (f : world -> world) : Prop :=
  forall w,
    shell_pgid (f w) = shell_pgid w /\
    exists es, trace (f w) = trace w ++ es /\ tcsetpgrp_targets es = [].

(** What identifies a job: everything but its status. *)
Definition job_key (j : Job) : Z * Z * string := (jid j, pgid j, cmd j).

(** The characters with which a job reference can start: a digit, [%], a
    sign, or a blank that [atoi] skips. *)
Definition starts_reference (c : ascii) : bool :=
  is_digit c || isspace c || Ascii.eqb c "%" || Ascii.eqb c "+" || Ascii.eqb c "-".

(** ** The child of a stage (lines 202-252)

    What the process does in which [fork] has returned 0, up to [execvp]
    or [_exit].  Its calls are recorded in a trace of its own; the
    answers of [dup2] and [open] come from scripts, and [c_exec_ok] says
    whether [execvp] will replace the image.  [close], [setpgid] and
    [signal] are called without a look at their result. *)

Inductive csignal := SIGINT | SIGTSTP | SIGQUIT.
Inductive oflag := O_RDONLY | O_WRONLY | O_CREAT | O_APPEND | O_TRUNC.

Inductive child_event :=
| CSetpgid (pid pg : Z)
| CSignalDfl (sig : csignal)
| CDup2 (fd target : Z)
| COpen (path : string) (flags : list oflag) (mode : option Z)
| CClose (fd : Z)
| CPerror (s : string)
| CExecvp (file : string) (args : list string).

Definition STDIN_FILENO : Z := 0.
Definition STDOUT_FILENO : Z := 1.

Record child_world := ChildWorld {
  c_trace : list child_event;
  c_dup2 : list Z;
  c_open : list Z;
  c_exec_ok : bool
}.

(** How the child ends: the program runs in its place, or it exits. *)
Inductive child_end :=
| Runs (file : string) (args : list string)
| Exits (code : Z).

Inductive cres (A : Type) :=
| CVal (a : A)
| CEnd (e : child_end).
Arguments CVal {A} a.
Arguments CEnd {A} e.

Definition C (A : Type) : Type := child_world -> option (cres A * child_world).

Definition cret {A} (a : A) : C A := fun w => Some (CVal a, w).
Definition cbind {A B} (m : C A) (k : A -> C B) : C B := fun w =>
  match m w with
  | Some (CVal a, w') => k a w'
  | Some (CEnd e, w') => Some (CEnd e, w')
  | None => None
  end.

Notation "'cdo' x <- m ; k" := (cbind m (fun x => k))
  (at level 10, x name, m at level 100, k at level 200).
Notation "m ;;; k" := (cbind m (fun _ => k))
  (at level 100, k at level 200, right associativity).

Definition c_log (es : list child_event) (w : child_world) : child_world :=
  ChildWorld (c_trace w ++ es) (c_dup2 w) (c_open w) (c_exec_ok w).

Definition c_emit (e : child_event) : C unit := fun w => Some (CVal tt, c_log [e] w).
Definition c_emits (es : list child_event) : C unit := fun w => Some (CVal tt, c_log es w).

Definition c_exit {A} (code : Z) : C A := fun w => Some (CEnd (Exits code), w).

Definition sys_dup2 (fd target : Z) : C Z := fun w =>
  match c_dup2 w with
  | r :: rest =>
      Some (CVal r, ChildWorld (c_trace w ++ [CDup2 fd target]) rest (c_open w) (c_exec_ok w))
  | [] => None
  end.

Definition sys_open (path : string) (flags : list oflag) (mode : option Z) : C Z := fun w =>
  match c_open w with
  | r :: rest =>
      Some (CVal r, ChildWorld (c_trace w ++ [COpen path flags mode]) (c_dup2 w) rest
                               (c_exec_ok w))
  | [] => None
  end.

(** [execvp] and the two statements after it (lines 250-252). *)
Definition sys_execvp (file : string) (args : list string) : C unit := fun w =>
  let w1 := c_log [CExecvp file args] w in
  if c_exec_ok w then Some (CEnd (Runs file args), w1)
  else Some (CEnd (Exits 1), c_log [CPerror "exec"] w1).

(** Lines 214-222: a pipe end onto a standard stream. *)
Definition wire (fd target : Z) : C unit :=
  cdo r <- sys_dup2 fd target;
  if r <? 0 then c_emit (CPerror "dup2") ;;; c_exit 1 else cret tt.

(** Lines 225-239: a file onto a standard stream; [path] is the C string
    given to [open] and to [perror]. *)
Definition redirect (path : string) (flags : list oflag) (mode : option Z) (target : Z)
  : C unit :=
  cdo fd <- sys_open path flags mode;
  if fd <? 0 then c_emit (CPerror path) ;;; c_exit 1
  else
    cdo r <- sys_dup2 fd target;
    if r <? 0 then c_emit (CPerror "dup2") ;;; c_emit (CClose fd) ;;; c_exit 1
    else c_emit (CClose fd).

Definition out_flags (c : Command) : list oflag :=
  [O_WRONLY; O_CREAT; if append c then O_APPEND else O_TRUNC].

(** Lines 204-242: the group, the signals, the streams, the pipes.  [n]
    is the number of stages, [i] the stage, [pgid] the group at the time
    of the [fork] (0 for the first child).  The tests are on the
    [std::string]s, the calls get their [c_str()]. *)
Definition child_setup (n i : nat) (pgid : Z) (pipes : list Z) (c : Command) : C unit :=
  c_emit (if pgid =? 0 then CSetpgid 0 0 else CSetpgid 0 pgid) ;;;
  c_emits [CSignalDfl SIGINT; CSignalDfl SIGTSTP; CSignalDfl SIGQUIT] ;;;
  (if (0 <? i)%nat then wire (nth (2 * (i - 1)) pipes 0) STDIN_FILENO else cret tt) ;;;
  (if (i <? n - 1)%nat then wire (nth (2 * i + 1) pipes 0) STDOUT_FILENO else cret tt) ;;;
  (if str_empty (infile c) then cret tt
   else redirect (c_str (infile c)) [O_RDONLY] None STDIN_FILENO) ;;;
  (if str_empty (outfile c) then cret tt
   else redirect (c_str (outfile c)) (out_flags c) (Some 420) STDOUT_FILENO) ;;;
  c_emits (map CClose pipes).

(** Lines 244-252: the vector of [c_str()] pointers, and [execvp] on
    it. *)
Definition child_exec (c : Command) : C unit :=
  match argv c with
  | [] => c_exit 0
  | file :: _ => sys_execvp (c_str file) (map c_str (argv c))
  end.

Definition child (n i : nat) (pgid : Z) (pipes : list Z) (c : Command) : C unit :=
  child_setup n i pgid pipes c ;;; child_exec c.

(** ** Vocabulary for the child *)

Definition is_cperror (e : child_event) : bool :=
  match e with CPerror _ => true | _ => false end.
Definition is_cexec (e : child_event) : bool :=
  match e with CExecvp _ _ => true | _ => false end.

(** Neither a diagnostic nor an [execvp]. *)
Definition calm (es : list child_event) : Prop :=
  forallb (fun e => negb (is_cperror e) && negb (is_cexec e)) es = true.

(** What a part of the set-up adds to the trace: no [execvp]; no
    diagnostic when it goes on; a diagnostic and status 1 when it
    ends. *)
Definition setup_ok {A} (r : cres A) (es : list child_event) : Prop :=
  forallb (fun e => negb (is_cexec e)) es = true /\
  match r with
  | CVal _ => calm es
  | CEnd (Exits code) => code = 1 /\ existsb is_cperror es = true
  | CEnd (Runs _ _) => False
  end.

Definition csetup {A} (m : C A) : Prop :=
  forall w r w',
    m w = Some (r, w') ->
    c_exec_ok w' = c_exec_ok w /\
    exists es, c_trace w' = c_trace w ++ es /\ setup_ok r es.

(** The [dup2] calls of a trace that land on [target]. *)
Definition dup2_onto (target : Z) (es : list child_event) : list Z :=
  flat_map (fun e => match e with
                     | CDup2 fd t => if t =? target then [fd] else []
                     | _ => []
                     end) es.

(** The calls of a set-up in which every [dup2] and [open] succeeds; [fin]
    and [fout] are the descriptors that [open] gives for the two files. *)
Definition setup_calls (n i : nat) (pgid : Z) (pipes : list Z) (c : Command)
    (fin fout : Z) : list child_event :=
  [if pgid =? 0 then CSetpgid 0 0 else CSetpgid 0 pgid;
   CSignalDfl SIGINT; CSignalDfl SIGTSTP; CSignalDfl SIGQUIT] ++
  (if (0 <? i)%nat then [CDup2 (nth (2 * (i - 1)) pipes 0) STDIN_FILENO] else []) ++
  (if (i <? n - 1)%nat then [CDup2 (nth (2 * i + 1) pipes 0) STDOUT_FILENO] else []) ++
  (if str_empty (infile c) then []
   else [COpen (c_str (infile c)) [O_RDONLY] None; CDup2 fin STDIN_FILENO;
         CClose fin]) ++
  (if str_empty (outfile c) then []
   else [COpen (c_str (outfile c)) (out_flags c) (Some 420);
         CDup2 fout STDOUT_FILENO; CClose fout]) ++
  map CClose pipes.

(** * Properties *)

(** ** Command Builder *)

Lemma tokens_ind (P : list string -> Prop) :
  P [] ->
  (forall t, P [t]) ->
  (forall t u l, P l -> P (u :: l) -> P (t :: u :: l)) ->
  forall l, P l.
Proof.
  intros H0 H1 H2.
  assert (Hboth : forall l, P l /\ forall t, P (t :: l)).
  { induction l as [|u l [IHl IHul]]; split; auto. }
  intros l. apply Hboth.
Qed.

Lemma length_on_back f cmds : length (on_back f cmds) = length cmds.
Proof.
  induction cmds as [|c cs IH]; [reflexivity|].
  destruct cs; [reflexivity|]. simpl in *. now rewrite IH.
Qed.

Lemma on_back_snoc f cs c : on_back f (cs ++ [c]) = cs ++ [f c].
Proof.
  induction cs as [|x cs IH]; [reflexivity|].
  simpl. rewrite IH. destruct cs; reflexivity.
Qed.

Lemma scan_cons tk rest cmds :
  scan (tk :: rest) cmds =
  if String.eqb tk "|" then scan rest (cmds ++ [empty_command])
  else if String.eqb tk "<" then
    match rest with
    | f :: rest' => scan rest' (on_back (set_infile f) cmds)
    | [] => cmds
    end
  else if String.eqb tk ">" then
    match rest with
    | f :: rest' => scan rest' (on_back (set_outfile f false) cmds)
    | [] => cmds
    end
  else if String.eqb tk ">>" then
    match rest with
    | f :: rest' => scan rest' (on_back (set_outfile f true) cmds)
    | [] => cmds
    end
  else scan rest (on_back (push_arg tk) cmds).
Proof. reflexivity. Qed.

Lemma count_pipes_cons t l :
  count_pipes (t :: l) = ((if String.eqb t "|" then 1 else 0) + count_pipes l)%nat.
Proof. unfold count_pipes. simpl. now destruct (String.eqb t "|"). Qed.

Lemma scan_length tokens :
  forall cmds, (length (scan tokens cmds) <= length cmds + count_pipes tokens)%nat.
Proof.
  induction tokens as [|t|t u l IHl IHul] using tokens_ind; intros cmds.
  - simpl. lia.
  - rewrite scan_cons, count_pipes_cons. cbv match.
    repeat (destruct (String.eqb t _); [simpl; rewrite ?length_app; simpl; lia|]).
    simpl. rewrite length_on_back. lia.
  - rewrite scan_cons, count_pipes_cons. cbv match.
    pose proof (count_pipes_cons u l) as Hu.
    destruct (String.eqb t "|").
    { specialize (IHul (cmds ++ [empty_command])).
      rewrite length_app in IHul. cbn [length] in IHul. lia. }
    repeat (destruct (String.eqb t _);
            [ match goal with |- context [scan l (on_back ?f cmds)] =>
                specialize (IHl (on_back f cmds)) end;
              rewrite length_on_back in IHl; lia | ]).
    specialize (IHul (on_back (push_arg t) cmds)).
    rewrite length_on_back in IHul. lia.
Qed.

Lemma length_removelast {A} (l : list A) : length (removelast l) = pred (length l).
Proof.
  induction l as [|x l IH]; [reflexivity|].
  destruct l; [reflexivity|]. simpl in *. now rewrite IH.
Qed.

Lemma removelast_snoc {A} (l : list A) x : removelast (l ++ [x]) = l.
Proof. apply removelast_last. Qed.

Lemma back_is_blank_snoc cs c : back_is_blank (cs ++ [c]) = is_blank c.
Proof. unfold back_is_blank. now rewrite last_snoc. Qed.

(** C8.  A token sequence with [k] pipe tokens gives at most [k + 1]
    stages, and when the last stage the loop has built is entirely
    empty (no argument, no input file, no output file) the result is what
    was built without it; a last stage that is not empty is kept. *)
Theorem buildCommands_stage_count_and_drop (tokens : list string) :
  (length (buildCommands tokens) <= count_pipes tokens + 1)%nat /\
  (forall stages c,
      scan tokens [empty_command] = stages ++ [c] ->
      buildCommands tokens = if is_blank c then stages else stages ++ [c]).
Proof.
  split.
  - unfold buildCommands.
    pose proof (scan_length tokens [empty_command]) as H. simpl in H.
    destruct (back_is_blank _); [rewrite length_removelast|]; lia.
  - intros stages c E. unfold buildCommands. rewrite E, back_is_blank_snoc.
    destruct (is_blank c); [apply removelast_snoc | reflexivity].
Qed.

Lemma spec_slices_cons its : exists s ss, spec_slices its = s :: ss.
Proof.
  induction its as [|x its (s & ss & E)]; [now exists [], []|].
  destruct x; simpl; rewrite ?E; eauto.
Qed.

Lemma weave_pipe c its :
  weave c (spec_slices (IPipe :: its)) = c :: weave empty_command (spec_slices its).
Proof.
  destruct (spec_slices_cons its) as (s & ss & E).
  simpl. rewrite E. reflexivity.
Qed.

Lemma weave_item c x its :
  x <> IPipe ->
  weave c (spec_slices (x :: its)) = weave (apply_item c x) (spec_slices its).
Proof.
  intros Hx. destruct (spec_slices_cons its) as (s & ss & E).
  destruct x; try congruence; simpl; rewrite E; reflexivity.
Qed.

Lemma spec_items_cons tk rest :
  spec_items (tk :: rest) =
  if String.eqb tk "|" then IPipe :: spec_items rest
  else if String.eqb tk "<" then
    match rest with f :: rest' => IIn f :: spec_items rest' | [] => [] end
  else if String.eqb tk ">" then
    match rest with f :: rest' => IOut f :: spec_items rest' | [] => [] end
  else if String.eqb tk ">>" then
    match rest with f :: rest' => IApp f :: spec_items rest' | [] => [] end
  else IArg tk :: spec_items rest.
Proof. reflexivity. Qed.

(** The loop of [buildCommands] builds, stage by stage, what the items of
    the stage say. *)
Lemma scan_weave tokens :
  forall cs c,
    scan tokens (cs ++ [c]) = cs ++ weave c (spec_slices (spec_items tokens)).
Proof.
  induction tokens as [|t|t u l IHl IHul] using tokens_ind; intros cs c.
  - reflexivity.
  - rewrite scan_cons, spec_items_cons. cbv match.
    destruct (String.eqb t "|"); [now rewrite <- app_assoc|].
    repeat (destruct (String.eqb t _); [reflexivity|]).
    simpl. now rewrite on_back_snoc.
  - rewrite scan_cons, spec_items_cons. cbv match.
    destruct (String.eqb t "|").
    { rewrite IHul, weave_pipe, <- app_assoc. reflexivity. }
    repeat (destruct (String.eqb t _);
            [ rewrite on_back_snoc, IHl, weave_item by discriminate; reflexivity | ]).
    rewrite on_back_snoc, IHul, weave_item by discriminate. reflexivity.
Qed.

Lemma scan_spec tokens :
  scan tokens [empty_command] = map spec_stage (spec_slices (spec_items tokens)).
Proof.
  pose proof (scan_weave tokens [] empty_command) as H. simpl in H.
  rewrite H. destruct (spec_slices_cons (spec_items tokens)) as (s & ss & E).
  rewrite E. reflexivity.
Qed.

Lemma removelast_lookup {A} (l : list A) i x :
  removelast l !! i = Some x -> l !! i = Some x.
Proof.
  revert i. induction l as [|y l IH]; intros i; [easy|].
  destruct l as [|z l]; [easy|].
  destruct i as [|i]; [easy|]. apply (IH i).
Qed.

Lemma buildCommands_lookup tokens i c :
  buildCommands tokens !! i = Some c -> scan tokens [empty_command] !! i = Some c.
Proof.
  unfold buildCommands. destruct (back_is_blank _); [apply removelast_lookup|easy].
Qed.

Lemma fold_keeps_infile post :
  forallb (fun x => negb (is_in x)) post = true ->
  forall c, infile (fold_left apply_item post c) = infile c.
Proof.
  induction post as [|x post IH]; intros H c; [reflexivity|].
  simpl in H. apply andb_prop in H as [Hx H]. simpl. rewrite (IH H).
  destruct x; try reflexivity; discriminate.
Qed.

Lemma fold_keeps_outfile post :
  forallb (fun x => negb (is_out x)) post = true ->
  forall c, outfile (fold_left apply_item post c) = outfile c /\
            append (fold_left apply_item post c) = append c.
Proof.
  induction post as [|x post IH]; intros H c; [easy|].
  simpl in H. apply andb_prop in H as [Hx H]. simpl.
  destruct (IH H (apply_item c x)) as [-> ->].
  destruct x; try easy.
Qed.

Lemma lookup_removelast {A} (l : list A) i :
  (S i < length l)%nat -> removelast l !! i = l !! i.
Proof.
  revert i. induction l as [|y l IH]; intros i H; [reflexivity|].
  destruct l as [|z l]; [simpl in H; lia|].
  destruct i as [|i]; [reflexivity|]. apply (IH i). simpl in *. lia.
Qed.

Lemma spec_stage_last_redirections slice : last_redirections slice (spec_stage slice).
Proof.
  unfold spec_stage.
  split; [|split]; intros pre f post -> Hpost; rewrite fold_left_app; simpl.
  - now rewrite fold_keeps_infile.
  - now destruct (fold_keeps_outfile post Hpost
                    (set_outfile f false (fold_left apply_item pre empty_command))).
  - now destruct (fold_keeps_outfile post Hpost
                    (set_outfile f true (fold_left apply_item pre empty_command))).
Qed.

(** C10.  The builder returns one stage for each run of tokens between
    pipe separators, the last run excepted when its stage is entirely
    empty; and in the stage of a run the input file is the path of the
    last [<] of the run, and the output file and the append flag are
    those of its last [>] or [>>]: earlier redirections of the same
    stream are overwritten.  No other stage is returned. *)
Theorem buildCommands_last_redirection_wins (tokens : list string) (i : nat) :
  (forall slice,
      spec_slices (spec_items tokens) !! i = Some slice ->
      (S i = length (spec_slices (spec_items tokens)) ->
       is_blank (spec_stage slice) = false) ->
      exists c, buildCommands tokens !! i = Some c /\ last_redirections slice c) /\
  (forall c,
      buildCommands tokens !! i = Some c ->
      exists slice,
        spec_slices (spec_items tokens) !! i = Some slice /\ last_redirections slice c).
Proof.
  split.
  - intros slice Hs Hlast. exists (spec_stage slice).
    split; [|apply spec_stage_last_redirections].
    assert (Hc : scan tokens [empty_command] !! i = Some (spec_stage slice)).
    { rewrite scan_spec, list_lookup_fmap, Hs. reflexivity. }
    unfold buildCommands.
    destruct (back_is_blank (scan tokens [empty_command])) eqn:Eb; [|exact Hc].
    rewrite lookup_removelast; [exact Hc|].
    apply lookup_lt_Some in Hc as Hlt.
    destruct (decide (S i = length (scan tokens [empty_command]))) as [E|]; [|lia].
    exfalso. unfold back_is_blank in Eb. rewrite last_lookup in Eb.
    replace (pred (length (scan tokens [empty_command]))) with i in Eb by lia.
    rewrite Hc in Eb. rewrite Hlast in Eb; [discriminate|].
    rewrite E, scan_spec, length_map. reflexivity.
  - intros c H. apply buildCommands_lookup in H.
    rewrite scan_spec, list_lookup_fmap in H.
    destruct (spec_slices (spec_items tokens) !! i) as [slice|]; [|discriminate].
    injection H as <-. exists slice. split; [reflexivity|].
    apply spec_stage_last_redirections.
Qed.

(** ** Traces *)

Lemma logs_log es e w : logs es (log e w) = logs (e :: es) w.
Proof. unfold logs, log. destruct w; simpl. now rewrite <- app_assoc. Qed.

Lemma log_logs es e w : log e (logs es w) = logs (es ++ [e]) w.
Proof. unfold logs, log. destruct w; simpl. now rewrite <- app_assoc. Qed.

Lemma logs_logs a b w : logs b (logs a w) = logs (a ++ b) w.
Proof. unfold logs. destruct w; simpl. now rewrite <- app_assoc. Qed.

Lemma log_as_logs e w : log e w = logs [e] w.
Proof. reflexivity. Qed.

(** ** The blocking wait on a group *)

Lemma wait_group_run on_stop pg pre r rest :
  forallb goes_on pre = true ->
  goes_on r = false ->
  forall w,
    wait_group on_stop pg (pre ++ r :: rest) w =
    Some (rest, (if reports_stop r then on_stop else id)
                  (logs (repeat (wait_call pg) (S (length pre))) w)).
Proof.
  intros Hpre Hr. induction pre as [|a pre IH]; intros w.
  - simpl. unfold goes_on, reports_stop in *.
    destruct (w_ret r <? 0); simpl.
    + destruct (w_errno r); try discriminate; reflexivity.
    + destruct (w_status r); try discriminate; reflexivity.
  - simpl in Hpre. apply andb_prop in Hpre as [Ha Hpre].
    specialize (IH Hpre).
    change (wait_group on_stop pg ((a :: pre) ++ r :: rest) w) with
      (let w1 := log (wait_call pg) w in
       if w_ret a <? 0 then
         match w_errno a with
         | ECHILD => Some (pre ++ r :: rest, w1)
         | EINTR => wait_group on_stop pg (pre ++ r :: rest) w1
         | EOTHER => Some (pre ++ r :: rest, w1)
         end
       else
         match w_status a with
         | Stopped => Some (pre ++ r :: rest, on_stop w1)
         | _ => wait_group on_stop pg (pre ++ r :: rest) w1
         end).
    cbv zeta. unfold goes_on in Ha.
    assert (E : wait_group on_stop pg (pre ++ r :: rest) (log (wait_call pg) w)
                = Some (rest, (if reports_stop r then on_stop else id)
                  (logs (repeat (wait_call pg) (S (length (a :: pre)))) w))).
    { rewrite IH, logs_log. reflexivity. }
    destruct (w_ret a <? 0).
    + destruct (w_errno a); try discriminate. exact E.
    + destruct (w_status a); try discriminate; exact E.
Qed.

(** The wait blocks for ever on a script that only goes on. *)
Lemma wait_group_blocked on_stop pg script :
  forallb goes_on script = true ->
  forall w, wait_group on_stop pg script w = None.
Proof.
  induction script as [|a script IH]; intros H w; [reflexivity|].
  simpl in H. apply andb_prop in H as [Ha H]. simpl. unfold goes_on in Ha.
  destruct (w_ret a <? 0).
  - destruct (w_errno a); try discriminate. now apply IH.
  - destruct (w_status a); try discriminate; now apply IH.
Qed.

(** ** The job counter *)

Lemma to_int_fits z : INT_MIN <= z <= INT_MAX -> to_int z = z.
Proof.
  unfold INT_MIN, INT_MAX, to_int.
  change (2 ^ 31) with 2147483648. change (2 ^ 32) with 4294967296. intros H.
  rewrite Z.mod_small; lia.
Qed.

(** Below [INT_MAX] the counter goes up by one. *)
Lemma next_jid_step n : INT_MIN <= n < INT_MAX -> to_int (n + 1) = n + 1.
Proof. intros H. apply to_int_fits. unfold INT_MIN, INT_MAX in *. lia. Qed.

(** ** Pipeline Executor *)

(** C1.  The foreground wait ends at the first answer of [waitpid] that
    is neither an interruption nor a member that has not stopped.  If
    that answer reports a stopped member, one job with status [STOPPED]
    and the id [next_jid] is appended to the table, one notice is
    printed, and no further [waitpid] is made: the answers for the other
    members stay in the script.  The id is fresh when the ids of the
    table are below [next_jid], and they stay below it when the counter,
    an [int], is not at [INT_MAX].  However the wait ends, the calls that
    follow are exactly one [tcsetpgrp] to the group of the shell and one
    [tcgetattr]. *)
Theorem foreground_stop_registers_and_restores
    (pg : Z) (raw : string) (w : world) (pre : list wait_ret) (r : wait_ret)
    (rest : list wait_ret) :
  os_wait w = pre ++ r :: rest ->
  forallb goes_on pre = true ->
  goes_on r = false ->
  exists w',
    foreground pg raw w = Some (tt, w') /\
    os_wait w' = rest /\
    trace w' =
      trace w ++ [SysTcsetpgrp pg] ++ repeat (wait_call pg) (S (length pre)) ++
      (if reports_stop r
       then [Stdout (notice (mkJob (next_jid w) pg raw STOPPED) "Stopped")]
       else []) ++
      [SysTcsetpgrp (shell_pgid w); SysTcgetattr] /\
    jobs w' = (if reports_stop r
               then jobs w ++ [mkJob (next_jid w) pg raw STOPPED]
               else jobs w) /\
    next_jid w' = (if reports_stop r then to_int (next_jid w + 1) else next_jid w) /\
    (jids_below w -> Forall (fun j => jid j <> next_jid w) (jobs w)) /\
    (jids_below w -> INT_MIN <= next_jid w < INT_MAX ->
       jids_below w' /\
       next_jid w' = (if reports_stop r then next_jid w + 1 else next_jid w)).
Proof.
  intros Hs Hpre Hr.
  destruct w as [js nj fl sh tr op ofk ow ok oc]. simpl in Hs. subst ow.
  unfold foreground, bind, emit, lift, wait_for. cbn [os_wait log with_trace].
  rewrite (wait_group_run _ _ _ _ _ Hpre Hr).
  eexists. split; [reflexivity|].
  unfold jids_below, stop_foreground, register, logs, log.
  destruct (reports_stop r); cbn -[repeat notice to_int];
    rewrite <- ?app_assoc; cbn -[repeat notice to_int];
    (split; [reflexivity|]); (split; [reflexivity|]); (split; [reflexivity|]);
    (split; [reflexivity|]); (split; [|intros H Hn; split; [|try reflexivity]]).
  - intros H. eapply Forall_impl; [exact H|]. cbv beta; intros; lia.
  - rewrite next_jid_step by exact Hn. apply Forall_app. split.
    + eapply Forall_impl; [exact H|]. cbv beta; intros; lia.
    + constructor; [simpl; lia|constructor].
  - now apply next_jid_step.
  - intros H. eapply Forall_impl; [exact H|]. cbv beta; intros; lia.
  - exact H.
Qed.

(** Two worlds written with [log], [logs] and the [with_] functions are
    equal when their fields are. *)
Ltac same_world w :=
  destruct w;
  unfold logs, log, with_jobs, with_next_jid, with_flag, with_trace, with_pipe,
    with_fork, with_wait, with_kill, with_chdir;
  cbn [jobs next_jid child_terminated shell_pgid trace os_pipe os_fork os_wait
       os_kill os_chdir];
  rewrite <- ?app_assoc; simpl; rewrite ?app_nil_r; reflexivity.

(** *** Creating the pipes and the processes *)

Lemma make_pipes_ok fds :
  forall i pipes w rp,
    os_pipe w = map Some fds ++ rp ->
    exists pipes',
      make_pipes (length fds) i pipes w =
        Some (Some pipes', logs (repeat SysPipe (length fds)) (with_pipe rp w)) /\
      length pipes' = length pipes.
Proof.
  induction fds as [|[rd wr] fds IH]; intros i pipes w rp Hs.
  - exists pipes. split; [|reflexivity]. simpl in Hs. subst rp.
    unfold make_pipes, ret. do 2 f_equal. same_world w.
  - cbn [length make_pipes]. unfold bind, sys_pipe. rewrite Hs. cbn [map app].
    edestruct (IH (S i) (<[(2 * i + 1)%nat:=wr]> (<[(2 * i)%nat:=rd]> pipes))
                 (log SysPipe (with_pipe (map Some fds ++ rp) w)) rp) as (p' & E & L).
    { destruct w; reflexivity. }
    exists p'. split.
    + rewrite E. do 2 f_equal. same_world w.
    + rewrite L, !length_insert. reflexivity.
Qed.

Lemma make_pipes_fail fds :
  forall k i pipes w rp,
    os_pipe w = map Some fds ++ None :: rp ->
    (length fds < k)%nat ->
    make_pipes k i pipes w =
      Some (None, logs (repeat SysPipe (S (length fds)) ++ [Perror "pipe"])
                       (with_pipe rp w)).
Proof.
  induction fds as [|[rd wr] fds IH]; intros k i pipes w rp Hs Hk.
  - destruct k as [|k]; [simpl in Hk; lia|].
    cbn [make_pipes]. unfold bind, sys_pipe. rewrite Hs. simpl.
    unfold emit, lift, ret. do 2 f_equal. same_world w.
  - destruct k as [|k]; [simpl in Hk; lia|].
    cbn [make_pipes]. unfold bind, sys_pipe. rewrite Hs. cbn [map app].
    rewrite (IH k _ _ _ rp) by (destruct w; simpl in *; auto; lia).
    do 2 f_equal. same_world w.
Qed.

Lemma fork_all_ok pids :
  forall i pg acc w rf,
    os_fork w = pids ++ rf ->
    Forall (fun p => 0 < p) pids ->
    fork_all (length pids) i pg acc w =
      Some (Forked (group_after pg pids) (acc ++ pids),
            logs (fork_events pg pids) (with_fork rf w)).
Proof.
  induction pids as [|p ps IH]; intros i pg acc w rf Hs Hp.
  - simpl. unfold ret. rewrite app_nil_r. simpl in Hs. subst rf.
    do 2 f_equal. same_world w.
  - inversion Hp as [|? ? Hp0 Hps]; subst.
    cbn [length fork_all]. unfold bind at 1. unfold sys_fork. rewrite Hs.
    cbn [app]. replace (p <? 0) with false by lia. replace (p =? 0) with false by lia.
    unfold bind, emit, lift.
    rewrite (IH _ _ _ _ rf) by (destruct w; simpl; auto).
    rewrite <- app_assoc. do 2 f_equal. same_world w.
Qed.

Lemma fork_all_fail pids :
  forall k i pg acc w r rf,
    os_fork w = pids ++ r :: rf ->
    Forall (fun p => 0 < p) pids ->
    r < 0 ->
    (length pids < k)%nat ->
    fork_all k i pg acc w =
      Some (ForkFailed,
            logs (fork_events pg pids ++ [SysFork; Perror "fork"] ++
                  map (fun c => SysKill (- c) SIGTERM) (acc ++ pids))
                 (with_fork rf w)).
Proof.
  induction pids as [|p ps IH]; intros k i pg acc w r rf Hs Hp Hr Hk.
  - destruct k as [|k]; [simpl in Hk; lia|].
    cbn [fork_all]. unfold bind at 1. unfold sys_fork. rewrite Hs.
    cbn [app]. replace (r <? 0) with true by lia.
    unfold bind, emit, lift, ret. rewrite app_nil_r.
    do 2 f_equal. same_world w.
  - inversion Hp as [|? ? Hp0 Hps]; subst.
    destruct k as [|k]; [simpl in Hk; lia|].
    cbn [fork_all]. unfold bind at 1. unfold sys_fork. rewrite Hs.
    cbn [app]. replace (p <? 0) with false by lia. replace (p =? 0) with false by lia.
    unfold bind at 1. unfold emit, lift.
    rewrite (IH k _ _ _ _ r rf) by (destruct w; simpl in *; auto; lia).
    rewrite <- app_assoc. do 2 f_equal. same_world w.
Qed.

Lemma group_after_pos g pids : g <> 0 -> group_after g pids = g.
Proof.
  revert g. induction pids as [|p ps IH]; intros g Hg; [reflexivity|].
  unfold group_after in *. simpl. replace (g =? 0) with false by lia. now apply IH.
Qed.

Lemma fork_events_pos g pids :
  g <> 0 -> fork_events g pids = flat_map (fun p => [SysFork; SysSetpgid p g]) pids.
Proof.
  intros Hg. induction pids as [|p ps IH]; [reflexivity|].
  simpl. replace (g =? 0) with false by lia. now rewrite IH.
Qed.

Lemma In_fork_events_wait g pids pid opts :
  ~ In (SysWaitpid pid opts) (fork_events g pids).
Proof.
  revert g. induction pids as [|p ps IH]; intros g; simpl; [tauto|].
  intros [H|[H|H]]; try discriminate. now apply IH in H.
Qed.

Section Executor.

Variable HOME : option string.

(** C2.  A pipeline launched in the background (all its pipes and
    processes created; [p] is the first child, whose pid is the group id)
    appends one job with status [RUNNING] and the id [next_jid], prints
    the line "[id] group Started", and returns 0; it makes no [waitpid]
    call and leaves the answers of [waitpid] in the script.  The counter,
    an [int], goes up by one when it is not at [INT_MAX]. *)
Theorem runPipeline_background_registers_running
    (cmds : list Command) (raw : string) (w : world)
    (fds : list (Z * Z)) (rp : list (option (Z * Z))) (p : Z) (ps rf : list Z) :
  length fds = (length cmds - 1)%nat ->
  length (p :: ps) = length cmds ->
  os_pipe w = map Some fds ++ rp ->
  os_fork w = (p :: ps) ++ rf ->
  Forall (fun q => 0 < q) (p :: ps) ->
  exists w' pipes,
    runPipeline HOME cmds true raw w = Some (RpRet 0, w') /\
    jobs w' = jobs w ++ [mkJob (next_jid w) p raw RUNNING] /\
    next_jid w' = to_int (next_jid w + 1) /\
    (INT_MIN <= next_jid w < INT_MAX -> next_jid w' = next_jid w + 1) /\
    trace w' =
      trace w ++ repeat SysPipe (length fds) ++ fork_events 0 (p :: ps) ++
      map SysClose pipes ++
      [Stdout ("[" ++ show (next_jid w) ++ "] " ++ show p ++ " Started" ++ nl)%string] /\
    os_wait w' = os_wait w /\
    (forall pid opts,
        In (SysWaitpid pid opts) (trace w') -> In (SysWaitpid pid opts) (trace w)).
Proof.
  intros Hfds Hn Hp Hf Hpos.
  destruct cmds as [|c0 cmds]; [discriminate|].
  unfold runPipeline. rewrite andb_false_r. unfold launch.
  rewrite <- Hfds, <- Hn.
  destruct (make_pipes_ok fds 0%nat (replicate (2 * length fds) 0) w rp Hp)
    as (pipes & Ep & _).
  unfold bind at 1. rewrite Ep.
  unfold bind at 1.
  rewrite (fork_all_ok (p :: ps) 0%nat 0 [] _ rf) by (auto; destruct w; exact Hf).
  assert (Hg : group_after 0 (p :: ps) = p).
  { inversion Hpos; subst. unfold group_after. simpl. apply group_after_pos. lia. }
  rewrite Hg. replace (p =? 0) with false by (inversion Hpos; lia).
  unfold bind, lift, background_job, ret.
  eexists. exists pipes. split; [reflexivity|].
  assert (Ht : trace (log (Stdout ("[" ++ show (next_jid w) ++ "] " ++ show p ++ " Started" ++ nl)%string)
                 (register p raw RUNNING (logs (map SysClose pipes)
                   (logs (fork_events 0 (p :: ps))
                     (logs (repeat SysPipe (length fds)) (with_pipe rp w))))))
          = trace w ++ repeat SysPipe (length fds) ++ fork_events 0 (p :: ps) ++
            map SysClose pipes ++
            [Stdout ("[" ++ show (next_jid w) ++ "] " ++ show p ++ " Started" ++ nl)%string]).
  { destruct w. unfold register, log, logs. cbn -[repeat fork_events show to_int].
    now rewrite <- !app_assoc. }
  destruct w as [js nj fl sh tr op ofk ow ok oc].
  cbn -[repeat fork_events show to_int] in *.
  repeat split; try reflexivity.
  - now apply next_jid_step.
  - rewrite <- !app_assoc. reflexivity.
  - intros pid opts Hin. rewrite <- !app_assoc in Hin.
    rewrite !in_app_iff in Hin.
    destruct Hin as [H|[H|[H|[H|H]]]]; auto.
    + apply repeat_spec in H. discriminate.
    + exfalso. revert H. apply (In_fork_events_wait 0 (p :: ps)).
    + apply in_map_iff in H as (? & ? & _). discriminate.
    + simpl in H. destruct H as [H|[]]. discriminate.
Qed.

Lemma fork_events_first p ps :
  p <> 0 ->
  fork_events 0 (p :: ps) =
  SysFork :: SysSetpgid p p :: flat_map (fun q => [SysFork; SysSetpgid q p]) ps.
Proof. intros Hp. simpl. now rewrite fork_events_pos. Qed.

Lemma setpgid_in_fork_events p ps q :
  p <> 0 -> In q (p :: ps) -> In (SysSetpgid q p) (fork_events 0 (p :: ps)).
Proof.
  intros Hp Hq. rewrite fork_events_first by assumption.
  destruct Hq as [<-|Hq]; [right; now left|].
  do 2 right. apply in_flat_map. exists q. split; [assumption|]. right. now left.
Qed.

(** C9.  When [pipe] fails, the diagnostic "pipe" is printed and the
    launch returns -1 before any process is created.  When [fork] fails
    after the children [pids] were created, the diagnostic "fork" is
    printed, [kill (-c, SIGTERM)] is called for every created child [c],
    and the launch returns -1 without registering a job or touching the
    terminal; every created child was put in the group of the first one,
    and that group is among those signalled. *)
Theorem launch_creation_failure_cleans_up
    (n : nat) (background : bool) (raw : string) (w : world)
    (fds : list (Z * Z)) (rp : list (option (Z * Z)))
    (pids : list Z) (r : Z) (rf : list Z) :
  (os_pipe w = map Some fds ++ None :: rp ->
   (length fds < n - 1)%nat ->
   exists w',
     launch n background raw w = Some (RpRet (-1), w') /\
     trace w' = trace w ++ repeat SysPipe (S (length fds)) ++ [Perror "pipe"] /\
     os_fork w' = os_fork w /\ jobs w' = jobs w /\ next_jid w' = next_jid w) /\
  (os_pipe w = map Some fds ++ rp ->
   length fds = (n - 1)%nat ->
   os_fork w = pids ++ r :: rf ->
   Forall (fun q => 0 < q) pids ->
   r < 0 ->
   (length pids < n)%nat ->
   exists w',
     launch n background raw w = Some (RpRet (-1), w') /\
     trace w' =
       trace w ++ repeat SysPipe (length fds) ++ fork_events 0 pids ++
       [SysFork; Perror "fork"] ++ map (fun c => SysKill (- c) SIGTERM) pids /\
     jobs w' = jobs w /\ next_jid w' = next_jid w /\ os_wait w' = os_wait w /\
     (forall q, In q pids ->
        In (SysSetpgid q (hd 0 pids)) (trace w') /\
        In (SysKill (- hd 0 pids) SIGTERM) (trace w'))).
Proof.
  split.
  - intros Hp Hk. unfold launch, bind.
    rewrite (make_pipes_fail fds _ _ _ _ rp Hp Hk). unfold ret.
    eexists. split; [reflexivity|].
    destruct w; cbn -[repeat]. rewrite <- ?app_assoc. auto.
  - intros Hp Hfds Hf Hpos Hr Hn. unfold launch.
    rewrite <- Hfds.
    destruct (make_pipes_ok fds 0%nat (replicate (2 * length fds) 0) w rp Hp)
      as (pipes & Ep & _).
    unfold bind at 1. rewrite Ep. unfold bind.
    rewrite (fork_all_fail pids n 0%nat 0 [] _ r rf) by (auto; destruct w; exact Hf).
    unfold ret. eexists. split; [reflexivity|].
    assert (Ht : trace (logs (fork_events 0 pids ++ [SysFork; Perror "fork"] ++
                   map (fun c => SysKill (- c) SIGTERM) ([] ++ pids))
                 (with_fork rf (logs (repeat SysPipe (length fds)) (with_pipe rp w))))
            = trace w ++ repeat SysPipe (length fds) ++ fork_events 0 pids ++
              [SysFork; Perror "fork"] ++ map (fun c => SysKill (- c) SIGTERM) pids).
    { destruct w. cbn -[repeat fork_events]. now rewrite <- ?app_assoc. }
    split; [exact Ht|].
    repeat split; try (destruct w; reflexivity).
    + rewrite Ht. destruct pids as [|p ps]; [contradiction|].
      inversion Hpos; subst. rewrite !in_app_iff. right. right. left.
      apply setpgid_in_fork_events; [lia|assumption].
    + rewrite Ht. destruct pids as [|p ps]; [contradiction|].
      rewrite !in_app_iff. do 4 right. simpl. now left.
Qed.

End Executor.

(** ** Job Table *)

Lemma find_index_spec {A} (p : A -> bool) l :
  forall k i x,
    find_index p k l = Some (i, x) ->
    (k <= i)%nat /\ l !! (i - k)%nat = Some x /\ p x = true.
Proof.
  induction l as [|y l IH]; intros k i x H; [discriminate|].
  simpl in H. destruct (p y) eqn:Ey.
  - injection H as <- <-. rewrite Nat.sub_diag. auto.
  - apply IH in H as (Hk & Hl & Hp). repeat split; [lia| |assumption].
    replace (i - k)%nat with (S (i - S k)) by lia. exact Hl.
Qed.

Lemma find_index_None {A} (p : A -> bool) l k :
  find_index p k l = None <-> forallb (fun x => negb (p x)) l = true.
Proof.
  revert k. induction l as [|y l IH]; intros k; simpl; [tauto|].
  destruct (p y); simpl; [split; discriminate|apply IH].
Qed.

Lemma find_job_by_pgid_Some g js i t :
  find_job_by_pgid g js = Some (i, t) -> js !! i = Some t /\ pgid t = g.
Proof.
  intros H. apply find_index_spec in H as (_ & Hl & Hp).
  rewrite Nat.sub_0_r in Hl. split; [assumption|lia].
Qed.

Lemma find_job_by_jid_Some n js i t :
  find_job_by_jid n js = Some (i, t) -> js !! i = Some t /\ jid t = n.
Proof.
  intros H. apply find_index_spec in H as (_ & Hl & Hp).
  rewrite Nat.sub_0_r in Hl. split; [assumption|lia].
Qed.

Lemma find_job_by_pgid_None g js :
  find_job_by_pgid g js = None <-> no_group g js.
Proof.
  unfold find_job_by_pgid, no_group. rewrite find_index_None, forallb_forall, Forall_forall.
  split; intros H j Hj.
  - apply list_elem_of_In, H in Hj. lia.
  - apply list_elem_of_In, H in Hj. lia.
Qed.

Lemma no_group_remove g h js :
  no_group g (remove_job_by_pgid h js) <-> no_group g js \/ h = g.
Proof.
  unfold no_group, remove_job_by_pgid. rewrite !Forall_forall. split.
  - intros H. destruct (Z.eq_dec h g) as [|Hne]; [now right|left].
    intros j Hj Hg. apply (H j); [|assumption].
    apply list_elem_of_In, filter_In. split; [now apply list_elem_of_In|]. lia.
  - intros [H| ->] j Hj; apply list_elem_of_In, filter_In in Hj as [Hj Hp].
    + apply H. now apply list_elem_of_In.
    + lia.
Qed.

Lemma no_group_alter g s i js :
  no_group g (alter (set_status s) i js) <-> no_group g js.
Proof.
  unfold no_group. revert i. induction js as [|j js IH]; intros i; [easy|].
  destruct i as [|i]; simpl; rewrite !Forall_cons; [tauto|].
  split; intros [? ?]; (split; [assumption|]); now apply (IH i).
Qed.

(** ** Signal/Reap Coordinator *)

Section Coordinator.

Variable getpgid : Z -> Z.

Lemma drain_run evs :
  forall z rest w,
    forallb (fun r => 0 <? w_ret r) evs = true ->
    w_ret z <= 0 ->
    drain getpgid (evs ++ z :: rest) w =
      Some (rest, log drain_call (fold_left (reap_step getpgid) evs w)).
Proof.
  induction evs as [|e evs IH]; intros z rest w Hp Hz.
  - simpl. replace (0 <? w_ret z) with false by lia. reflexivity.
  - simpl in Hp. apply andb_prop in Hp as [He Hp].
    simpl. rewrite He. now rewrite IH.
Qed.

Lemma update_jobs_run evs z rest w :
  os_wait w = evs ++ z :: rest ->
  forallb (fun r => 0 <? w_ret r) evs = true ->
  w_ret z <= 0 ->
  update_jobs getpgid w =
    Some (tt, with_flag 0 (with_wait rest (log drain_call (fold_left (reap_step getpgid) evs w)))).
Proof.
  intros Hs Hp Hz. unfold update_jobs. rewrite Hs.
  now rewrite (drain_run evs z rest w Hp Hz).
Qed.

Lemma find_job_by_pid_Some pid js i t :
  find_job_by_pid getpgid pid js = Some (i, t) ->
  js !! i = Some t /\ pgid t = getpgid pid /\ 0 <= getpgid pid.
Proof.
  unfold find_job_by_pid. destruct (getpgid pid <? 0) eqn:E; [discriminate|].
  intros H. apply find_job_by_pgid_Some in H as [? ?]. repeat split; auto. lia.
Qed.

Lemma jobs_log e w : jobs (log e w) = jobs w.
Proof. now destruct w. Qed.

Lemma jobs_with_jobs js w : jobs (with_jobs js w) = js.
Proof. reflexivity. Qed.

End Coordinator.

(** ** Main loop *)

Lemma waitpid_calls_app a b : waitpid_calls (a ++ b) = waitpid_calls a ++ waitpid_calls b.
Proof. apply List.filter_app. Qed.

Lemma is_digit_not_percent c : is_digit c = true -> Ascii.eqb c "%" = false.
Proof.
  intros H. destruct (Ascii.eqb_spec c "%") as [->|]; [discriminate|reflexivity].
Qed.

Section MainLoop.

Variable getpgid : Z -> Z.
Variable HOME : option string.

Lemma waitpid_calls_reap pid st w :
  waitpid_calls (trace (reap getpgid pid st w)) = waitpid_calls (trace w).
Proof.
  unfold reap. destruct (find_job_by_pid getpgid pid (jobs w)) as [[i t]|];
    destruct st; try reflexivity;
    destruct w; cbn -[notice]; rewrite waitpid_calls_app; simpl; apply app_nil_r.
Qed.

Lemma waitpid_calls_pass evs :
  forall w,
    waitpid_calls (trace (fold_left (reap_step getpgid) evs w)) =
    waitpid_calls (trace w) ++ repeat drain_call (length evs).
Proof.
  induction evs as [|e evs IH]; intros w; simpl; [now rewrite app_nil_r|].
  rewrite IH. unfold reap_step. rewrite waitpid_calls_reap.
  destruct w; simpl. rewrite waitpid_calls_app. simpl. now rewrite <- app_assoc.
Qed.

(** C6, as amended.  The handler only sets the flag, and a child that
    exits or is terminated makes it run; with [SA_NOCLDSTOP] installed a
    child that stops or continues raises nothing.  A turn of the main
    loop reads the flag once, before the prompt, and runs the pass when
    it is set.  The pass calls [waitpid (-1, WNOHANG | WUNTRACED |
    WCONTINUED)] until the answer is not a positive pid, and then sets the
    flag to 0. *)
Theorem sigchld_sets_flag_and_pass_clears_it
    (w : world) (line : option string)
    (evs : list wait_ret) (z : wait_ret) (rest : list wait_ret) :
  os_wait w = evs ++ z :: rest ->
  forallb (fun r => 0 <? w_ret r) evs = true ->
  w_ret z <= 0 ->
  (forall v, sigchld_handler v = with_flag 1 v) /\
  (forall v st, child_changed st v = if is_exit st then with_flag 1 v else v) /\
  main_iter getpgid HOME line w =
    (if child_terminated w =? 0 then prompt_and_run getpgid HOME line w
     else match update_jobs getpgid w with
          | Some (_, w1) => prompt_and_run getpgid HOME line w1
          | None => None
          end) /\
  exists w',
    update_jobs getpgid w = Some (tt, w') /\
    child_terminated w' = 0 /\
    os_wait w' = rest /\
    waitpid_calls (trace w') =
      waitpid_calls (trace w) ++ repeat drain_call (S (length evs)).
Proof.
  intros Hs Hp Hz. split; [reflexivity|]. split; [now intros v []|]. split.
  - unfold main_iter, bind, poll_children.
    destruct (child_terminated w =? 0); [reflexivity|].
    destruct (update_jobs getpgid w) as [[[] w1]|]; reflexivity.
  - rewrite (update_jobs_run getpgid evs z rest w Hs Hp Hz).
    eexists. split; [reflexivity|].
    pose proof (waitpid_calls_pass evs w) as Hc.
    destruct (fold_left (reap_step getpgid) evs w) as [js nj fl sh tr op ofk ow ok oc].
    cbn -[repeat waitpid_calls] in *. repeat split.
    rewrite waitpid_calls_app, Hc. simpl. rewrite <- app_assoc. f_equal.
    symmetry. apply repeat_cons.
Qed.

End MainLoop.

(** ** The table stays in the order of registration

    Job ids are below [next_jid] and increase along the table; every
    turn of the main loop keeps it so, as long as the counter has not
    reached [INT_MAX]. *)

Lemma jids_increasing_cons j js :
  jids_increasing (j :: js) <->
  Forall (fun b => jid j < jid b) js /\ jids_increasing js.
Proof.
  unfold jids_increasing. split.
  - intros H. split.
    + apply Forall_lookup. intros k b Hk. apply (H 0%nat (S k)); auto. lia.
    + intros i k a b Hik Ha Hb. apply (H (S i) (S k)); auto. lia.
  - intros [Hf H] i k a b Hik Ha Hb.
    destruct k as [|k]; [lia|]. destruct i as [|i]; simpl in *.
    + injection Ha as <-. rewrite Forall_lookup in Hf. now apply (Hf k).
    + apply (H i k); auto. lia.
Qed.

Lemma Forall_remove {P : Job -> Prop} g js :
  Forall P js -> Forall P (remove_job_by_pgid g js).
Proof.
  unfold remove_job_by_pgid. induction 1 as [|j js Hj _ IH]; simpl; [constructor|].
  destruct (negb (pgid j =? g)); [constructor|]; assumption.
Qed.

Lemma jids_increasing_remove g js :
  jids_increasing js -> jids_increasing (remove_job_by_pgid g js).
Proof.
  induction js as [|j js IH]; intros H; [assumption|].
  apply jids_increasing_cons in H as [Hf H].
  unfold remove_job_by_pgid in *. simpl. destruct (negb (pgid j =? g)); [|now apply IH].
  apply jids_increasing_cons. split; [now apply (Forall_remove g)|now apply IH].
Qed.

Lemma jids_increasing_alter s i js :
  jids_increasing js -> jids_increasing (alter (set_status s) i js).
Proof.
  revert i. induction js as [|j js IH]; intros i H; [assumption|].
  apply jids_increasing_cons in H as [Hf H].
  destruct i as [|i]; simpl; apply jids_increasing_cons; split; auto.
  - apply Forall_alter; [assumption|]. auto.
  - now apply IH.
Qed.

Lemma jids_increasing_snoc js j :
  jids_increasing js -> Forall (fun a => jid a < jid j) js ->
  jids_increasing (js ++ [j]).
Proof.
  induction js as [|x js IH]; intros H Hf.
  - intros i k a b Hik Ha Hb. destruct k as [|k]; [lia|]. destruct k; discriminate.
  - apply jids_increasing_cons in H as [Hx H]. inversion Hf; subst.
    simpl. apply jids_increasing_cons. split; [|now apply IH].
    apply Forall_app. split; [assumption|]. constructor; [assumption|constructor].
Qed.

Lemma table_ok_same w w' :
  jobs w' = jobs w -> next_jid w' = next_jid w -> table_ok w -> table_ok w'.
Proof. unfold table_ok, jids_below, jids_positive. now intros -> ->. Qed.

Lemma table_ok_log e w : table_ok w -> table_ok (log e w).
Proof. apply table_ok_same; now destruct w. Qed.

Lemma table_ok_logs es w : table_ok w -> table_ok (logs es w).
Proof. apply table_ok_same; now destruct w. Qed.

Lemma table_ok_register pg raw s w :
  table_ok w -> next_jid w < INT_MAX ->
  table_ok (register pg raw s w) /\ next_jid (register pg raw s w) = next_jid w + 1.
Proof.
  intros (Hb & Hi & Hn & Hp) Hr. unfold table_ok, jids_below, jids_positive in *.
  assert (E : to_int (next_jid w + 1) = next_jid w + 1).
  { apply next_jid_step. unfold INT_MIN. lia. }
  destruct w; cbn -[to_int] in *. rewrite E. split; [|reflexivity].
  split; [|split; [|split]].
  - apply Forall_app. split.
    + eapply Forall_impl; [exact Hb|]. cbv beta. intros. lia.
    + constructor; [simpl; lia|constructor].
  - now apply jids_increasing_snoc.
  - lia.
  - apply Forall_app. split; [assumption|]. constructor; [assumption|constructor].
Qed.

Lemma table_ok_remove g w :
  table_ok w -> table_ok (with_jobs (remove_job_by_pgid g (jobs w)) w).
Proof.
  intros (Hb & Hi & Hn & Hp). unfold table_ok, jids_below, jids_positive in *.
  destruct w; simpl in *. split; [|split; [|split]]; auto.
  - now apply Forall_remove.
  - now apply jids_increasing_remove.
  - now apply Forall_remove.
Qed.

Lemma table_ok_alter s i w :
  table_ok w -> table_ok (with_jobs (alter (set_status s) i (jobs w)) w).
Proof.
  intros (Hb & Hi & Hn & Hp). unfold table_ok, jids_below, jids_positive in *.
  destruct w; simpl in *. split; [|split; [|split]]; auto.
  - apply Forall_alter; [assumption|]. auto.
  - now apply jids_increasing_alter.
  - apply Forall_alter; [assumption|]. auto.
Qed.

(** *** Steps of the table *)

Lemma table_step_refl w : table_step 0 w w.
Proof. intros H _. split; [assumption|lia]. Qed.

(** A step that leaves the counter alone and keeps the order. *)
Lemma table_step_still w w' :
  next_jid w' = next_jid w -> (table_ok w -> table_ok w') -> table_step 0 w w'.
Proof. intros E Ht H _. split; [auto|lia]. Qed.

Lemma table_step_same w w' :
  jobs w' = jobs w -> next_jid w' = next_jid w -> table_step 0 w w'.
Proof. intros Ej En. apply table_step_still; [assumption|]. now apply table_ok_same. Qed.

Lemma table_step_trans k1 k2 w1 w2 w3 :
  table_step k1 w1 w2 -> table_step k2 w2 w3 -> table_step (k1 + k2) w1 w3.
Proof.
  intros H1 H2 Ht Hr. rewrite Nat2Z.inj_add in *.
  destruct (H1 Ht) as [Ht2 Hn2]; [lia|].
  destruct (H2 Ht2) as [Ht3 Hn3]; [lia|].
  split; [assumption|lia].
Qed.

Lemma table_step_weaken k k' w w' :
  (k <= k')%nat -> table_step k w w' -> table_step k' w w'.
Proof.
  intros Hk H Ht Hr. destruct (H Ht) as [Ht' Hn]; [lia|]. split; [assumption|lia].
Qed.

Lemma table_step_log e w : table_step 0 w (log e w).
Proof. apply table_step_same; now destruct w. Qed.

Lemma table_step_logs es w : table_step 0 w (logs es w).
Proof. apply table_step_same; now destruct w. Qed.

Lemma table_step_register pg raw s w : table_step 1 w (register pg raw s w).
Proof.
  intros Ht Hr. destruct (table_ok_register pg raw s w Ht) as [H E]; [lia|].
  split; [assumption|]. rewrite E. lia.
Qed.

Lemma table_step_remove g w :
  table_step 0 w (with_jobs (remove_job_by_pgid g (jobs w)) w).
Proof. apply table_step_still; [now destruct w|apply table_ok_remove]. Qed.

Lemma table_step_alter s i w :
  table_step 0 w (with_jobs (alter (set_status s) i (jobs w)) w).
Proof. apply table_step_still; [now destruct w|apply table_ok_alter]. Qed.

Lemma keeps_ret {A} (a : A) : keeps_table 0 (ret a).
Proof. intros w b w' E. injection E as <- <-. apply table_step_refl. Qed.

Lemma keeps_bind (k1 k2 : nat) {A B} (m : M A) (k : A -> M B) :
  keeps_table k1 m -> (forall a, keeps_table k2 (k a)) ->
  keeps_table (k1 + k2) (bind m k).
Proof.
  intros Hm Hk w b w' E. unfold bind in E.
  destruct (m w) as [[a w1]|] eqn:Em; [|discriminate].
  eapply table_step_trans; [eapply Hm|eapply Hk]; eassumption.
Qed.

Lemma keeps_weaken (k k' : nat) {A} (m : M A) :
  (k <= k')%nat -> keeps_table k m -> keeps_table k' m.
Proof. intros Hk H w a w' E. eapply table_step_weaken; [exact Hk|]. eapply H, E. Qed.

Lemma keeps_lift (k : nat) (f : world -> world) :
  (forall w, table_step k w (f w)) -> keeps_table k (lift f).
Proof. intros Hf w b w' E. injection E as <- <-. apply Hf. Qed.

Lemma keeps_emit e : keeps_table 0 (emit e).
Proof. apply keeps_lift, table_step_log. Qed.

Lemma keeps_sys_pipe : keeps_table 0 sys_pipe.
Proof.
  intros w a w' E. unfold sys_pipe in E. destruct (os_pipe w); [discriminate|].
  injection E as <- <-. apply table_step_same; now destruct w.
Qed.

Lemma keeps_sys_fork : keeps_table 0 sys_fork.
Proof.
  intros w a w' E. unfold sys_fork in E. destruct (os_fork w); [discriminate|].
  injection E as <- <-. apply table_step_same; now destruct w.
Qed.

Lemma keeps_sys_kill pid sig : keeps_table 0 (sys_kill pid sig).
Proof.
  intros w a w' E. unfold sys_kill in E. destruct (os_kill w); [discriminate|].
  injection E as <- <-. apply table_step_same; now destruct w.
Qed.

Lemma keeps_sys_chdir path : keeps_table 0 (sys_chdir path).
Proof.
  intros w a w' E. unfold sys_chdir in E. destruct (os_chdir w); [discriminate|].
  injection E as <- <-. apply table_step_same; now destruct w.
Qed.

Lemma keeps_read {A} (f : world -> A) : keeps_table 0 (fun w => Some (f w, w)).
Proof. intros w a w' E. injection E as <- <-. apply table_step_refl. Qed.

Create HintDb table.

#[local] Hint Resolve table_step_refl table_step_log table_step_logs
  table_step_remove table_step_alter : table.

(** Computations that register nothing: the binds split as 0 + 0. *)
Ltac keeps :=
  repeat match goal with
    | |- keeps_table 0 (bind _ _) => apply (keeps_bind 0 0); [|intros ?]
    | |- keeps_table 0 (lift _) => apply keeps_lift; intros ?
    | |- keeps_table 0 (ret _) => apply keeps_ret
    | |- keeps_table 0 (emit _) => apply keeps_emit
    | |- keeps_table 0 sys_pipe => apply keeps_sys_pipe
    | |- keeps_table 0 sys_fork => apply keeps_sys_fork
    | |- keeps_table 0 (sys_kill _ _) => apply keeps_sys_kill
    | |- keeps_table 0 (sys_chdir _) => apply keeps_sys_chdir
    | |- table_step 0 _ _ => solve [auto with table]
    end.

(** A computation that registers nothing, then one that registers at
    most one job; and the other way round. *)
Ltac keeps_then := apply (keeps_bind 0 1); [|intros ?].
Ltac then_keeps := apply (keeps_bind 1 0); [|intros ?].

Lemma keeps_make_pipes k : forall i pipes, keeps_table 0 (make_pipes k i pipes).
Proof.
  induction k as [|k IH]; intros i pipes; cbn [make_pipes]; keeps.
  destruct a as [[rd wr]|]; keeps. apply IH.
Qed.

Lemma keeps_fork_all k : forall i pg pids, keeps_table 0 (fork_all k i pg pids).
Proof.
  induction k as [|k IH]; intros i pg pids; cbn [fork_all]; keeps.
  destruct (a <? 0); keeps. destruct (a =? 0); keeps. apply IH.
Qed.

(** The wait runs [on_stop] at most once, at its end. *)
Lemma keeps_wait_group (k : nat) on_stop pg :
  (forall w, table_step k w (on_stop w)) ->
  forall script w rest w',
    wait_group on_stop pg script w = Some (rest, w') -> table_step k w w'.
Proof.
  intros Hs. induction script as [|r script IH]; intros w rest w' E; [discriminate|].
  simpl in E.
  assert (Hl : table_step 0 w (log (SysWaitpid (- pg) [WUNTRACED]) w))
    by apply table_step_log.
  assert (H0 : table_step k w (log (SysWaitpid (- pg) [WUNTRACED]) w)).
  { eapply table_step_weaken; [|exact Hl]. lia. }
  assert (Hgo : forall rest' w'',
             wait_group on_stop pg script (log (SysWaitpid (- pg) [WUNTRACED]) w)
               = Some (rest', w'') -> table_step k w w'').
  { intros rest' w'' E'. apply (table_step_trans 0 k _ _ _ Hl). eapply IH, E'. }
  destruct (w_ret r <? 0).
  - destruct (w_errno r); try (injection E as <- <-; exact H0). eapply Hgo, E.
  - destruct (w_status r); try solve [eapply Hgo, E].
    injection E as <- <-. apply (table_step_trans 0 k _ _ _ Hl). apply Hs.
Qed.

Lemma keeps_wait_for (k : nat) on_stop pg :
  (forall w, table_step k w (on_stop w)) -> keeps_table k (wait_for on_stop pg).
Proof.
  intros Hs w a w' E. unfold wait_for in E.
  destruct (wait_group on_stop pg (os_wait w) w) as [[rest w1]|] eqn:Ew; [|discriminate].
  injection E as <- <-. apply (keeps_wait_group k _ _ Hs) in Ew.
  replace k with (k + 0)%nat by lia. eapply table_step_trans; [exact Ew|].
  apply table_step_same; now destruct w1.
Qed.

Lemma table_step_stop_foreground pg raw w : table_step 1 w (stop_foreground pg raw w).
Proof.
  unfold stop_foreground. apply (table_step_trans 1 0 _ (register pg raw STOPPED w)).
  - apply table_step_register.
  - apply table_step_log.
Qed.

Lemma keeps_foreground pg raw : keeps_table 1 (foreground pg raw).
Proof.
  unfold foreground. keeps_then; [keeps|]. then_keeps.
  - apply keeps_wait_for. intros w. apply table_step_stop_foreground.
  - keeps. apply keeps_read.
Qed.

Lemma keeps_background_job pg raw : keeps_table 1 (background_job pg raw).
Proof.
  intros w a w' E. injection E as <- <-.
  apply (table_step_trans 1 0 _ (register pg raw RUNNING w)).
  - apply table_step_register.
  - apply table_step_log.
Qed.

Lemma keeps_launch n background raw : keeps_table 1 (launch n background raw).
Proof.
  unfold launch. keeps_then; [apply keeps_make_pipes|].
  destruct a as [pipes|]; [|apply (keeps_weaken 0); [lia|keeps]].
  keeps_then; [apply keeps_fork_all|].
  destruct a as [pg pids| |i pg]; try solve [apply (keeps_weaken 0); [lia|keeps]].
  keeps_then; [keeps|]. cbv zeta. then_keeps; [|keeps].
  destruct background; [apply keeps_background_job|apply keeps_foreground].
Qed.

Lemma table_step_print_jobs w : table_step 0 w (print_jobs w).
Proof. apply table_step_logs. Qed.

#[local] Hint Resolve table_step_print_jobs : table.

Section Invariant.

Variable getpgid : Z -> Z.
Variable HOME : option string.

Lemma keeps_builtin_cd args : keeps_table 0 (builtin_cd HOME args).
Proof. unfold builtin_cd. keeps. destruct (a =? 0); keeps. Qed.

Lemma keeps_runPipeline cmds background raw :
  keeps_table 1 (runPipeline HOME cmds background raw).
Proof.
  unfold runPipeline. destruct cmds as [|c0 cmds]; [apply (keeps_weaken 0); [lia|keeps]|].
  match goal with |- keeps_table 1 (match ?x with _ => _ end) =>
    destruct x as [|name ?] end; [apply keeps_launch|].
  repeat (match goal with |- keeps_table 1 (if ?b then _ else _) => destruct b end);
    try apply keeps_launch;
    try solve [apply (keeps_weaken 0); [lia|keeps; try apply keeps_builtin_cd]].
Qed.

Lemma table_step_reap pid st w : table_step 0 w (reap getpgid pid st w).
Proof.
  unfold reap.
  destruct (find_job_by_pid getpgid pid (jobs w)) as [[i t]|]; destruct st;
    auto with table.
  - apply (table_step_trans 0 0 _ (log (Stdout (notice t "Done")) w));
      auto with table.
    apply (table_step_remove (pgid t) (log (Stdout (notice t "Done")) w)).
  - apply (table_step_trans 0 0 _ (log (Stdout (notice t "Done")) w));
      auto with table.
    apply (table_step_remove (pgid t) (log (Stdout (notice t "Done")) w)).
  - apply (table_step_trans 0 0 _ (with_jobs (alter (set_status STOPPED) i (jobs w)) w));
      auto with table.
  - apply (table_step_trans 0 0 _ (with_jobs (alter (set_status RUNNING) i (jobs w)) w));
      auto with table.
Qed.

Lemma keeps_drain script :
  forall w rest w',
    drain getpgid script w = Some (rest, w') -> table_step 0 w w'.
Proof.
  induction script as [|r script IH]; intros w rest w' E; [discriminate|].
  simpl in E. destruct (0 <? w_ret r).
  - apply (table_step_trans 0 0 _ (log (SysWaitpid (-1) drain_opts) w));
      [auto with table|].
    apply (table_step_trans 0 0 _
             (reap getpgid (w_ret r) (w_status r) (log (SysWaitpid (-1) drain_opts) w)));
      [apply table_step_reap|].
    eapply IH, E.
  - injection E as <- <-. auto with table.
Qed.

Lemma keeps_update_jobs : keeps_table 0 (update_jobs getpgid).
Proof.
  intros w a w' E. unfold update_jobs in E.
  destruct (drain getpgid (os_wait w) w) as [[rest w1]|] eqn:Ed; [|discriminate].
  injection E as <- <-. apply keeps_drain in Ed.
  apply (table_step_trans 0 0 _ w1); [assumption|].
  apply table_step_same; now destruct w1.
Qed.

Lemma keeps_poll_children : keeps_table 0 (poll_children getpgid).
Proof.
  intros w a w' E. unfold poll_children in E.
  destruct (child_terminated w =? 0); [injection E as <- <-; apply table_step_refl|].
  eapply keeps_update_jobs, E.
Qed.

Lemma keeps_cont_kill t : keeps_table 0 (cont_kill t).
Proof. unfold cont_kill. keeps. destruct (a <? 0); keeps. Qed.

Lemma keeps_do_bg i t : keeps_table 0 (do_bg i t).
Proof. unfold do_bg. keeps. apply keeps_cont_kill. Qed.

Lemma keeps_do_fg i t : keeps_table 0 (do_fg i t).
Proof.
  unfold do_fg. keeps.
  - apply keeps_cont_kill.
  - apply keeps_wait_for. intros w. unfold stop_target.
    apply (table_step_trans 0 0 _ (with_jobs (alter (set_status STOPPED) i (jobs w)) w));
      auto with table.
  - match goal with |- keeps_table 0 (if ?b then _ else _) => destruct b end; keeps.
  - apply keeps_read.
Qed.

Lemma keeps_fg_bg name tokens : keeps_table 0 (fg_bg getpgid name tokens).
Proof.
  intros w a w' E. unfold fg_bg in E.
  destruct (resolve_target getpgid tokens (jobs w)) as [[i t]|].
  - destruct (String.eqb name "bg").
    + eapply keeps_do_bg; eauto.
    + eapply keeps_do_fg; eauto.
  - eapply keeps_emit; eauto.
Qed.

Lemma keeps_dispatch tokens background input :
  keeps_table 1 (dispatch getpgid HOME tokens background input).
Proof.
  unfold dispatch. destruct tokens as [|t0 tokens]; [apply (keeps_weaken 0); [lia|keeps]|].
  repeat (match goal with |- keeps_table 1 (if ?b then _ else _) => destruct b end);
    try solve [apply (keeps_weaken 0);
               [lia|keeps; try apply keeps_builtin_cd; try apply keeps_fg_bg]].
  destruct (buildCommands (t0 :: tokens)); [apply (keeps_weaken 0); [lia|keeps]|].
  then_keeps; [apply keeps_runPipeline|keeps].
Qed.

Lemma keeps_read_command line : keeps_table 1 (read_command getpgid HOME line).
Proof.
  unfold read_command.
  destruct (str_empty (trim line)); [apply (keeps_weaken 0); [lia|keeps]|].
  cbv zeta. destruct (parseInput _); [apply (keeps_weaken 0); [lia|keeps]|].
  apply keeps_dispatch.
Qed.

Lemma keeps_prompt_and_run line : keeps_table 1 (prompt_and_run getpgid HOME line).
Proof.
  unfold prompt_and_run. keeps_then; [keeps|].
  destruct line; [apply keeps_read_command|apply (keeps_weaken 0); [lia|keeps]].
Qed.

(** Every turn of the main loop keeps the table in order, and registers
    at most one job. *)
Lemma main_iter_keeps_table line : keeps_table 1 (main_iter getpgid HOME line).
Proof.
  unfold main_iter. keeps_then; [apply keeps_poll_children|apply keeps_prompt_and_run].
Qed.

End Invariant.

Lemma keeps_deliver t : keeps_table 0 (deliver t).
Proof.
  apply keeps_lift. intros w. apply table_step_same; now destruct (t_sigchld t), w.
Qed.

Lemma main_turn_keeps_table HOME t : keeps_table 1 (main_turn HOME t).
Proof.
  unfold main_turn. keeps_then; [apply keeps_deliver|].
  keeps_then; [apply keeps_poll_children|apply keeps_prompt_and_run].
Qed.

(** So does the whole loop, with room for one id for each turn. *)
Lemma main_loop_keeps_table HOME turns :
  keeps_table (length turns) (main_loop HOME turns).
Proof.
  induction turns as [|t turns IH]; cbn [main_loop]; [intros w a w' E; discriminate|].
  apply (keeps_bind 1 (length turns)); [apply main_turn_keeps_table|].
  intros f. destruct f; try solve [apply (keeps_weaken 0); [lia|keeps]]. apply IH.
Qed.

(** * Concrete runs *)

Example build_two_stages :
  buildCommands ["a"; "|"; "b"; "<"; "x"; "<"; "y"; "|"]
  = [mkCommand ["a"] "" "" false; mkCommand ["b"] "y" "" false].
Proof. vm_compute. reflexivity. Qed.

(** Only the last stage is looked at: after two dangling pipes the
    result still ends with an empty stage. *)
Example build_two_dangling_pipes :
  buildCommands ["a"; "|"; "|"] = [mkCommand ["a"] "" "" false; empty_command].
Proof. vm_compute. reflexivity. Qed.

Example parse_line : parseInput "  echo  hi | wc -w " = ["echo"; "hi"; "|"; "wc"; "-w"].
Proof. vm_compute. reflexivity. Qed.

Example numbers :
  (atoi "42", atoi "-7x", atoi "4294967297", show 120, show (-3), trim "  a b  ")
  = (42, -7, 1, "120", "-3", "a b").
Proof. vm_compute. reflexivity. Qed.

(** The line "sleep 5 &" starts a background job. *)
Example run_background_line :
  main_iter gp0 None (Some "sleep 5 &") (with_fork [100] w0) =
  Some (Continue,
        World [mkJob 1 100 "sleep 5" RUNNING] 2 0 500
              [Stdout "myshell> "; SysFork; SysSetpgid 100 100;
               Stdout ("[1] 100 Started" ++ nl)%string]
              [] [] [] [] []).
Proof. vm_compute. reflexivity. Qed.

(** The line "echo hi | wc -w" runs in the foreground: two children, one
    pipe, three waits, and the terminal back to the shell. *)
Example run_foreground_line :
  main_iter gp0 None (Some "echo hi | wc -w")
    (with_wait [mkWait 100 EOTHER Exited; mkWait 101 EOTHER Exited;
                mkWait (-1) ECHILD Exited]
       (with_pipe [Some (3, 4)] (with_fork [100; 101] w0))) =
  Some (Continue,
        World [] 1 0 500
              [Stdout "myshell> "; SysPipe; SysFork; SysSetpgid 100 100;
               SysFork; SysSetpgid 101 100; SysClose 3; SysClose 4;
               SysTcsetpgrp 100; wait_call 100; wait_call 100; wait_call 100;
               SysTcsetpgrp 500; SysTcgetattr]
              [] [] [] [] []).
Proof. vm_compute. reflexivity. Qed.

(** The counter at [INT_MAX]: the job gets the id [INT_MAX], the counter
    goes to [INT_MIN], and the next job gets a smaller id than the one
    before it. *)
Example counter_wraps :
  let w := register 200 "b" RUNNING
             (register 100 "a" RUNNING (with_next_jid INT_MAX w0)) in
  map jid (jobs w) = [INT_MAX; INT_MIN] /\ next_jid w = INT_MIN + 1.
Proof. vm_compute. split; reflexivity. Qed.

Lemma table_ok_start : table_ok w0.
Proof.
  split; [constructor|]. split.
  - intros i k a b _ Ha. destruct i; discriminate.
  - split; [reflexivity|constructor].
Qed.

(** C5: the line "jobs | wc -l" has a pipe token, and yet the loop of
    [main] runs [jobs] in the shell: it lists the table and goes to the
    next line without creating a process.  Handed to [runPipeline], the
    two stages of the same line are launched as a pipeline. *)
Lemma piped_line_runs_first_token_builtin :
  let w := with_wait [mkWait (-1) ECHILD Exited]
             (with_fork [100; 101] (with_pipe [Some (3, 4)] (with_jobs [sleep_job] w0))) in
  main_iter gp0 None (Some "jobs | wc -l") w =
    Some (Continue, print_jobs (log (Stdout "myshell> ") w)) /\
  length (buildCommands (parseInput "jobs | wc -l")) = 2%nat /\
  (exists w',
      runPipeline None (buildCommands (parseInput "jobs | wc -l")) false
                  "jobs | wc -l" w = Some (RpRet 0, w') /\
      os_fork w' = [] /\
      In (SysSetpgid 101 100) (trace w')).
Proof.
  cbv zeta. split; [vm_compute; reflexivity|]. split; [vm_compute; reflexivity|].
  eexists. split; [vm_compute; reflexivity|]. split; [reflexivity|].
  simpl. tauto.
Qed.

(** C6, counterexample: a child that stops does not set the flag. *)
Lemma stopped_child_leaves_flag_clear :
  child_terminated (child_changed Stopped w0) <> 1 /\
  child_terminated (child_changed Continued w0) <> 1.
Proof. split; vm_compute; discriminate. Qed.

(** ** The theorems at concrete inputs *)

(** The foreground wait of "cat | vi": one member exits, the call is
    interrupted once, then a member stops; the answer for 102 is left. *)
Lemma foreground_stop_witness :
  exists w',
    foreground 100 "cat | vi" w_fg = Some (tt, w') /\
    os_wait w' = [mkWait 102 EOTHER Exited] /\
    jobs w' = [mkJob 1 90 "sleep 9" RUNNING; mkJob 2 100 "cat | vi" STOPPED] /\
    next_jid w' = 3.
Proof.
  destruct (foreground_stop_registers_and_restores 100 "cat | vi" w_fg
              [mkWait 100 EOTHER Exited; mkWait (-1) EINTR Exited]
              (mkWait 101 EOTHER Stopped) [mkWait 102 EOTHER Exited]
              eq_refl eq_refl eq_refl)
    as (w' & E & Hw & _ & Hj & Hn & _).
  exists w'. repeat split; assumption.
Defined.

(** "sleep 5" in the background, child 100. *)
Lemma runPipeline_background_witness :
  exists w',
    runPipeline None (buildCommands ["sleep"; "5"]) true "sleep 5"
                (with_fork [100] w0) = Some (RpRet 0, w') /\
    jobs w' = [mkJob 1 100 "sleep 5" RUNNING].
Proof.
  destruct (runPipeline_background_registers_running None
              (buildCommands ["sleep"; "5"]) "sleep 5" (with_fork [100] w0)
              [] [] 100 [] [] eq_refl eq_refl eq_refl eq_refl)
    as (w' & pipes & E & Hj & _).
  - repeat constructor.
  - exists w'. split; assumption.
Defined.

(** The same pass makes two [waitpid] calls and clears the flag. *)
Lemma sigchld_pass_witness :
  exists w',
    update_jobs gp0 w_reap = Some (tt, w') /\
    child_terminated w' = 0 /\
    os_wait w' = [] /\
    waitpid_calls (trace w') = [drain_call; drain_call].
Proof.
  destruct (sigchld_sets_flag_and_pass_clears_it gp0 None w_reap (Some "jobs")
              [mkWait 100 EOTHER Exited] (mkWait 0 EOTHER Exited) []
              eq_refl eq_refl)
    as (_ & _ & _ & H).
  - discriminate.
  - exact H.
Defined.

(** A dangling pipe leaves one stage. *)
Lemma buildCommands_drop_witness :
  buildCommands ["ls"; "|"] = [mkCommand ["ls"] "" "" false].
Proof.
  destruct (buildCommands_stage_count_and_drop ["ls"; "|"]) as [_ H].
  exact (H [mkCommand ["ls"] "" "" false] empty_command eq_refl).
Defined.

(** Three stages: the second [pipe] fails; or the third [fork] fails. *)
Lemma launch_failure_witness :
  (exists w',
      launch 3 false "a | b | c" (with_pipe [Some (3, 4); None] w0) =
        Some (RpRet (-1), w') /\
      trace w' = [SysPipe; SysPipe; Perror "pipe"]) /\
  (exists w',
      launch 3 false "a | b | c"
        (with_fork [100; 101; -1] (with_pipe [Some (3, 4); Some (5, 6)] w0)) =
        Some (RpRet (-1), w') /\
      In (SysKill (-100) SIGTERM) (trace w') /\ jobs w' = []).
Proof.
  split.
  - destruct (launch_creation_failure_cleans_up 3 false "a | b | c"
                (with_pipe [Some (3, 4); None] w0) [(3, 4)] [] [] 0 [])
      as [H _].
    destruct H as (w' & E & Ht & _); [reflexivity|simpl; lia|].
    exists w'. split; assumption.
  - destruct (launch_creation_failure_cleans_up 3 false "a | b | c"
                (with_fork [100; 101; -1] (with_pipe [Some (3, 4); Some (5, 6)] w0))
                [(3, 4); (5, 6)] [] [100; 101] (-1) [])
      as [_ H].
    destruct H as (w' & E & _ & Hj & _ & _ & Hk);
      [reflexivity|reflexivity|reflexivity|repeat constructor|lia|simpl; lia|].
    exists w'. split; [assumption|]. split; [|assumption].
    apply (Hk 101). simpl. tauto.
Defined.

(** "sort < a < b > x >> y | wc" reads [b] and appends to [y]. *)
Lemma last_redirection_witness :
  exists c,
    buildCommands ["sort"; "<"; "a"; "<"; "b"; ">"; "x"; ">>"; "y"; "|"; "wc"] !! 0%nat
      = Some c /\
    infile c = "b" /\ outfile c = "y" /\ append c = true.
Proof.
  destruct (buildCommands_last_redirection_wins
              ["sort"; "<"; "a"; "<"; "b"; ">"; "x"; ">>"; "y"; "|"; "wc"] 0)
    as [H _].
  destruct (H [IArg "sort"; IIn "a"; IIn "b"; IOut "x"; IApp "y"] eq_refl)
    as (c & Hc & Hin & _ & Happ).
  - discriminate.
  - exists c. split; [exact Hc|]. split.
    + apply (Hin [IArg "sort"; IIn "a"] "b" [IOut "x"; IApp "y"]); reflexivity.
    + apply (Happ [IArg "sort"; IIn "a"; IIn "b"; IOut "x"] "y" []); reflexivity.
Defined.

(** * Further properties *)

(** ** Trimming and tokenizing *)

Lemma skip_space_front s : not_blank (str_front (skip_space s)).
Proof.
  induction s as [|c r IH]; simpl; [exact I|].
  destruct (isspace c) eqn:E; [exact IH|]. simpl. exact E.
Qed.

Lemma skip_space_fixed s : not_blank (str_front s) -> skip_space s = s.
Proof. destruct s as [|c r]; simpl; [reflexivity|]. now intros ->. Qed.

Lemma rtrim_cons c r :
  rtrim (String c r) =
  match rtrim r with
  | EmptyString => if isspace c then EmptyString else String c EmptyString
  | r' => String c r'
  end.
Proof. reflexivity. Qed.

Lemma rtrim_back s : not_blank (str_back (rtrim s)).
Proof.
  induction s as [|c r IH]; [exact I|].
  rewrite rtrim_cons. destruct (rtrim r) as [|c' r'] eqn:E.
  - destruct (isspace c) eqn:Ec; simpl; auto.
  - exact IH.
Qed.

Lemma rtrim_fixed s : not_blank (str_back s) -> rtrim s = s.
Proof.
  induction s as [|c r IH]; [reflexivity|]. intros H. rewrite rtrim_cons.
  destruct r as [|c' r'].
  - simpl in *. now rewrite H.
  - rewrite IH by exact H. reflexivity.
Qed.

Lemma rtrim_front s : not_blank (str_front s) -> not_blank (str_front (rtrim s)).
Proof.
  destruct s as [|c r]; [easy|]. intros H. rewrite rtrim_cons.
  destruct (rtrim r); simpl in *; [now rewrite H|assumption].
Qed.

Lemma rtrim_empty s : rtrim s = EmptyString <-> all_space s = true.
Proof.
  induction s as [|c r IH]; [easy|]. rewrite rtrim_cons. simpl.
  destruct (rtrim r) eqn:E.
  - destruct (isspace c); simpl; [tauto|easy].
  - split; [discriminate|]. intros H. apply andb_prop in H as [_ H].
    apply IH in H. discriminate.
Qed.

Lemma skip_space_all_space s : all_space (skip_space s) = all_space s.
Proof.
  induction s as [|c r IH]; [reflexivity|]. simpl.
  destruct (isspace c) eqn:E; [exact IH|]. simpl. now rewrite E.
Qed.

(** X1.  [trim] leaves no blank at either end, trimming twice is
    trimming once, and the result is empty exactly when the line has
    only blanks. *)
Theorem trim_clean_and_idempotent (s : string) :
  not_blank (str_front (trim s)) /\
  not_blank (str_back (trim s)) /\
  trim (trim s) = trim s /\
  (str_empty (trim s) = true <-> all_space s = true).
Proof.
  unfold trim, ltrim.
  assert (Hf : not_blank (str_front (rtrim (skip_space s))))
    by apply rtrim_front, skip_space_front.
  split; [exact Hf|]. split; [apply rtrim_back|]. split.
  - rewrite (skip_space_fixed _ Hf). apply rtrim_fixed, rtrim_back.
  - rewrite <- skip_space_all_space, <- rtrim_empty.
    destruct (rtrim (skip_space s)); simpl; split; congruence.
Qed.

Lemma parse_words_cons c r word :
  parse_words (String c r) word =
  if isspace c
  then match word with
       | [] => parse_words r []
       | _ => string_of_list_ascii (rev word) :: parse_words r []
       end
  else parse_words r (c :: word).
Proof. reflexivity. Qed.

Lemma parse_words_nil word :
  parse_words EmptyString word =
  match word with [] => [] | _ => [string_of_list_ascii (rev word)] end.
Proof. reflexivity. Qed.

Lemma no_space_of_list l :
  no_space (string_of_list_ascii l) = forallb (fun c => negb (isspace c)) l.
Proof. induction l as [|c l IH]; simpl; [reflexivity|]. now rewrite IH. Qed.

Lemma is_word_of_rev word :
  word <> [] ->
  forallb (fun c => negb (isspace c)) word = true ->
  is_word (string_of_list_ascii (rev word)) = true.
Proof.
  intros Hne Hw. unfold is_word. rewrite no_space_of_list.
  assert (Hr : forallb (fun c => negb (isspace c)) (rev word) = true).
  { apply forallb_forall. intros c Hc. apply in_rev in Hc.
    revert c Hc. now apply forallb_forall. }
  rewrite Hr, andb_true_r.
  destruct (rev word) as [|c l] eqn:E; [|reflexivity].
  apply (f_equal (@rev ascii)) in E. rewrite rev_involutive in E. contradiction.
Qed.

Lemma parse_words_clean s :
  forall word,
    forallb (fun c => negb (isspace c)) word = true ->
    forallb is_word (parse_words s word) = true.
Proof.
  induction s as [|c r IH]; intros word Hw.
  - rewrite parse_words_nil. destruct word as [|a word]; [reflexivity|].
    cbn [forallb]. rewrite is_word_of_rev; [reflexivity|discriminate|assumption].
  - rewrite parse_words_cons. destruct (isspace c) eqn:Ec.
    + destruct word as [|a word]; [now apply IH|].
      cbn [forallb]. rewrite is_word_of_rev; [|discriminate|assumption].
      now apply IH.
    + apply IH. simpl. now rewrite Ec.
Qed.

(** X2.  Every token of [parseInput] is a word: it is not empty and has
    no blank in it. *)
Theorem parseInput_tokens_are_words (input : string) :
  forallb is_word (parseInput input) = true.
Proof. now apply parse_words_clean. Qed.

Lemma append_cons c (t s : string) : (String c t ++ s)%string = String c (t ++ s).
Proof. reflexivity. Qed.

Lemma parse_words_word t :
  no_space t = true ->
  forall s word,
    parse_words (t ++ s) word =
    parse_words s (rev (list_ascii_of_string t) ++ word).
Proof.
  induction t as [|c t IH]; intros Ht s word; [reflexivity|].
  simpl in Ht. apply andb_prop in Ht as [Hc Ht].
  rewrite append_cons, parse_words_cons. cbn [list_ascii_of_string rev].
  destruct (isspace c); [discriminate|].
  rewrite IH by assumption. now rewrite <- app_assoc.
Qed.

Lemma word_chars t : is_word t = true -> rev (list_ascii_of_string t) ++ [] <> [].
Proof.
  destruct t as [|c t]; [discriminate|]. intros _. simpl.
  rewrite app_nil_r. intros E. apply app_eq_nil in E as [_ E]. discriminate.
Qed.

Lemma word_back t :
  string_of_list_ascii (rev (rev (list_ascii_of_string t) ++ [])) = t.
Proof.
  rewrite app_nil_r, rev_involutive. apply string_of_list_ascii_of_string.
Qed.

Lemma append_empty_r (t : string) : (t ++ "")%string = t.
Proof. induction t as [|c t IH]; [reflexivity|]. now rewrite append_cons, IH. Qed.

Lemma parse_unwords (ws : list string) :
  forallb is_word ws = true -> parse_words (unwords ws) [] = ws.
Proof.
  induction ws as [|w ws IH]; intros H; [reflexivity|].
  simpl in H. apply andb_prop in H as [Hw H].
  assert (Hn : no_space w = true) by (unfold is_word in Hw; now apply andb_prop in Hw).
  pose proof (word_chars w Hw) as Hne.
  destruct ws as [|w2 ws].
  - cbn [unwords]. rewrite <- (append_empty_r w) at 1.
    rewrite parse_words_word, parse_words_nil by assumption.
    destruct (rev (list_ascii_of_string w) ++ []) eqn:E; [contradiction|].
    rewrite <- E, word_back. reflexivity.
  - change (unwords (w :: w2 :: ws)) with (w ++ String " " (unwords (w2 :: ws)))%string.
    rewrite parse_words_word, parse_words_cons by assumption.
    change (isspace " ") with true. cbv iota.
    destruct (rev (list_ascii_of_string w) ++ []) eqn:E; [contradiction|].
    rewrite <- E, word_back, IH by assumption. reflexivity.
Qed.

(** X3.  Words written with one space between them are read back as the
    same words. *)
Theorem parseInput_unwords (ws : list string) :
  forallb is_word ws = true -> parseInput (unwords ws) = ws.
Proof. apply parse_unwords. Qed.

(** The words of [fg %1 extra]. *)
Lemma parseInput_unwords_witness :
  parseInput (unwords ["fg"; "%1"; "extra"]) = ["fg"; "%1"; "extra"].
Proof. apply parseInput_unwords. reflexivity. Defined.

Lemma parse_words_skip_space s : parse_words (skip_space s) [] = parse_words s [].
Proof.
  induction s as [|c r IH]; [reflexivity|]. simpl skip_space.
  destruct (isspace c) eqn:E; [|reflexivity].
  rewrite IH, parse_words_cons, E. reflexivity.
Qed.

Lemma parse_words_rtrim s : forall word, parse_words (rtrim s) word = parse_words s word.
Proof.
  induction s as [|c r IH]; intros word; [reflexivity|].
  rewrite rtrim_cons, (parse_words_cons c r).
  destruct (rtrim r) as [|c' r'] eqn:E.
  - destruct (isspace c) eqn:Ec.
    + rewrite <- IH, !parse_words_nil. reflexivity.
    + rewrite parse_words_cons, Ec. apply IH.
  - rewrite parse_words_cons. destruct (isspace c); now rewrite IH.
Qed.

(** X4.  Blanks at the ends of a line do not change its tokens: [main]
    trims the line before it splits it, and would get the same tokens
    without. *)
Theorem parseInput_trim (s : string) : parseInput (trim s) = parseInput s.
Proof.
  unfold parseInput, trim, ltrim. rewrite parse_words_rtrim. apply parse_words_skip_space.
Qed.

(** ** Command Builder *)

Lemma plain_cases t :
  plain t = true ->
  String.eqb t "|" = false /\ String.eqb t "<" = false /\
  String.eqb t ">" = false /\ String.eqb t ">>" = false.
Proof.
  unfold plain. destruct (String.eqb t "|"), (String.eqb t "<"),
    (String.eqb t ">"), (String.eqb t ">>"); simpl; intros H;
    try discriminate; auto.
Qed.

Lemma scan_plain args :
  forallb plain args = true ->
  forall cs c,
    scan args (cs ++ [c]) =
    cs ++ [mkCommand (argv c ++ args) (infile c) (outfile c) (append c)].
Proof.
  induction args as [|t args IH]; intros H cs c.
  - simpl. rewrite app_nil_r. now destruct c.
  - simpl in H. apply andb_prop in H as [Ht H].
    apply plain_cases in Ht as (E1 & E2 & E3 & E4).
    rewrite scan_cons, E1, E2, E3, E4, on_back_snoc, IH by assumption.
    unfold push_arg. simpl. now rewrite <- app_assoc.
Qed.

(** X5.  A line without [|], [<], [>] and [>>] is one stage whose
    arguments are the tokens, in order and with no redirection; no token
    gives no stage. *)
Theorem buildCommands_plain_tokens (args : list string) :
  forallb plain args = true ->
  buildCommands args =
  match args with
  | [] => []
  | _ => [mkCommand args "" "" false]
  end.
Proof.
  intros H. unfold buildCommands.
  change [empty_command] with ([] ++ [empty_command]).
  rewrite (scan_plain args H [] empty_command). simpl.
  destruct args; reflexivity.
Qed.

(** "ls -l /tmp" is one stage. *)
Lemma buildCommands_plain_witness :
  buildCommands ["ls"; "-l"; "/tmp"] = [mkCommand ["ls"; "-l"; "/tmp"] "" "" false].
Proof. apply (buildCommands_plain_tokens ["ls"; "-l"; "/tmp"]). reflexivity. Defined.

Lemma argv_fold s : forall c, argv (fold_left apply_item s c) = argv c ++ args_of s.
Proof.
  induction s as [|x s IH]; intros c; simpl; [now rewrite app_nil_r|].
  rewrite IH. destruct x; simpl; rewrite ?app_nil_r, <- ?app_assoc; reflexivity.
Qed.

Lemma args_of_slices its :
  concat (map args_of (spec_slices its)) = args_of its.
Proof.
  induction its as [|x its IH]; [reflexivity|].
  destruct (spec_slices_cons its) as (s & ss & E). rewrite E in IH.
  destruct x; simpl; rewrite E; simpl in *; rewrite <- IH; reflexivity.
Qed.

Lemma length_spec_slices its : length (spec_slices its) = S (pipes_of its).
Proof.
  unfold pipes_of. induction its as [|x its IH]; [reflexivity|].
  destruct (spec_slices_cons its) as (s & ss & E). rewrite E in IH.
  destruct x; simpl; rewrite E; simpl in *; lia.
Qed.

Lemma argv_drop_blank l :
  concat (map argv (if back_is_blank l then removelast l else l)) = concat (map argv l).
Proof.
  induction l as [|x l _] using rev_ind; [reflexivity|].
  rewrite back_is_blank_snoc. destruct (is_blank x) eqn:E; [|reflexivity].
  rewrite removelast_snoc, map_app, concat_app. simpl.
  unfold is_blank in E. destruct (argv x); [|discriminate].
  now rewrite !app_nil_r.
Qed.

(** X6.  No argument is lost or moved: the arguments of the stages, one
    stage after the other, are the tokens that are neither operators nor
    the paths of redirections, in the order of the line; and the number
    of stages is the number of pipe separators or one more. *)
Theorem buildCommands_keeps_arguments (tokens : list string) :
  concat (map argv (buildCommands tokens)) = args_of (spec_items tokens) /\
  (pipes_of (spec_items tokens) <= length (buildCommands tokens)
   <= S (pipes_of (spec_items tokens)))%nat.
Proof.
  unfold buildCommands. cbv zeta. split.
  - rewrite argv_drop_blank, scan_spec, <- args_of_slices, map_map.
    f_equal. apply map_ext. intros s. unfold spec_stage. now rewrite argv_fold.
  - pose proof (length_spec_slices (spec_items tokens)) as L.
    rewrite <- (length_map spec_stage), <- scan_spec in L.
    destruct (back_is_blank _); [rewrite length_removelast|]; lia.
Qed.

(** ** Numbers read from C strings *)

Lemma digits_value_c_str s : forall acc, digits_value acc (c_str s) = digits_value acc s.
Proof.
  induction s as [|c r IH]; intros acc; [reflexivity|]. simpl.
  destruct (Ascii.eqb_spec c zero) as [->|Hc]; [reflexivity|].
  simpl. destruct (is_digit c); [apply IH|reflexivity].
Qed.

Lemma skip_space_c_str s : skip_space (c_str s) = c_str (skip_space s).
Proof.
  induction s as [|c r IH]; [reflexivity|]. simpl.
  destruct (Ascii.eqb_spec c zero) as [->|Hc]; [reflexivity|].
  simpl. destruct (isspace c); [exact IH|].
  simpl. destruct (Ascii.eqb_spec c zero); [contradiction|reflexivity].
Qed.

(** [atoi] stops at the first byte that is not a digit, so at a NUL at
    the latest: on [s.c_str()] it reads what it reads on [s]. *)
Lemma atoi_c_str s : atoi (c_str s) = atoi s.
Proof.
  unfold atoi. rewrite skip_space_c_str.
  destruct (skip_space s) as [|c r]; [reflexivity|].
  cbn [c_str]. destruct (Ascii.eqb_spec c zero) as [->|Hc]; [reflexivity|].
  destruct c as [[] [] [] [] [] [] [] []]; cbv zeta;
    rewrite ?digits_value_c_str; try reflexivity;
    cbn [digits_value c_str Ascii.eqb Bool.eqb andb]; cbv match;
    rewrite ?digits_value_c_str; reflexivity.
Qed.

(** ** Numbers written and read back *)

Lemma digits_value_uint (d : Decimal.uint) :
  forall acc,
    digits_value acc (NilEmpty.string_of_uint d) =
    acc * 10 ^ Z.of_N (DecimalPos.Unsigned.usize d) +
    Z.of_N (DecimalPos.Unsigned.of_lu (Decimal.rev d)).
Proof.
  induction d; intros acc;
    [ simpl; lia | .. ];
    cbn [NilEmpty.string_of_uint digits_value DecimalPos.Unsigned.usize];
    change (is_digit _) with true; cbv iota;
    rewrite IHd; unfold Decimal.rev; cbn [Decimal.revapp];
    rewrite (DecimalPos.Unsigned.of_lu_revapp d (_ Decimal.Nil));
    rewrite N2Z.inj_add, N2Z.inj_mul, N2Z.inj_pow, N2Z.inj_succ, Z.pow_succ_r
      by apply N2Z.is_nonneg;
    unfold Decimal.rev; change (Z.of_N 10) with 10;
    generalize (Z.of_N (DecimalPos.Unsigned.of_lu (Decimal.revapp d Decimal.Nil)));
    generalize (10 ^ Z.of_N (DecimalPos.Unsigned.usize d));
    intros X L;
    match goal with |- context [Z.of_nat ?n] =>
      let v := eval vm_compute in (Z.of_nat n) in change (Z.of_nat n) with v end;
    match goal with |- context [Z.of_N ?n] =>
      let v := eval vm_compute in (Z.of_N n) in change (Z.of_N n) with v end;
    ring.
Qed.

Lemma digits_value_of_uint (d : Decimal.uint) :
  digits_value 0 (NilEmpty.string_of_uint d) = Z.of_uint d.
Proof.
  rewrite digits_value_uint. unfold Z.of_uint.
  rewrite DecimalPos.Unsigned.of_uint_alt. lia.
Qed.

Lemma atoi_uint (d : Decimal.uint) :
  d <> Decimal.Nil ->
  atoi (NilEmpty.string_of_uint d) =
  to_int (Z.max LONG_MIN (Z.min LONG_MAX (Z.of_uint d))).
Proof.
  intros Hd. rewrite <- digits_value_of_uint.
  destruct d; [contradiction|..]; reflexivity.
Qed.

Lemma atoi_neg_uint (d : Decimal.uint) :
  atoi (String "-" (NilEmpty.string_of_uint d)) =
  to_int (Z.max LONG_MIN (Z.min LONG_MAX (- Z.of_uint d))).
Proof. rewrite <- digits_value_of_uint. reflexivity. Qed.

Lemma to_int_small z : INT_MIN <= z <= INT_MAX ->
  to_int (Z.max LONG_MIN (Z.min LONG_MAX z)) = z.
Proof.
  unfold INT_MIN, INT_MAX, LONG_MIN, LONG_MAX, to_int.
  change (2 ^ 31) with 2147483648. change (2 ^ 32) with 4294967296.
  change (2 ^ 63) with 9223372036854775808. intros H.
  replace (Z.max _ _) with z by lia.
  rewrite Z.mod_small; lia.
Qed.

Lemma show_pos p : show (Z.pos p) = NilEmpty.string_of_uint (Pos.to_uint p).
Proof.
  unfold show. simpl. unfold NilZero.string_of_uint.
  pose proof (DecimalPos.Unsigned.to_uint_nonnil p) as H.
  destruct (Pos.to_uint p); [contradiction|..]; reflexivity.
Qed.

Lemma show_neg p :
  show (Z.neg p) = String "-" (NilEmpty.string_of_uint (Pos.to_uint p)).
Proof.
  unfold show. simpl. unfold NilZero.string_of_uint.
  pose proof (DecimalPos.Unsigned.to_uint_nonnil p) as H.
  destruct (Pos.to_uint p); [contradiction|..]; reflexivity.
Qed.

Lemma of_uint_to_uint p : Z.of_uint (Pos.to_uint p) = Z.pos p.
Proof. unfold Z.of_uint. now rewrite DecimalPos.Unsigned.of_to. Qed.

(** A number that fits in an [int], written with [operator<<] and read
    with [atoi], is the same number. *)
Lemma atoi_show_fits (z : Z) : INT_MIN <= z <= INT_MAX -> atoi (show z) = z.
Proof.
  intros H. destruct z as [|p|p].
  - reflexivity.
  - rewrite show_pos, atoi_uint by apply DecimalPos.Unsigned.to_uint_nonnil.
    rewrite of_uint_to_uint. now apply to_int_small.
  - rewrite show_neg, atoi_neg_uint, of_uint_to_uint.
    change (- Z.pos p) with (Z.neg p). now apply to_int_small.
Qed.

(** X7.  [parse_job_token] reads "%n" as [n] for every job id that fits
    in an [int], and gives 0, which is no job id, for the empty string
    and for a token that does not start with [%]. *)
Theorem parse_job_token_reads_id (n : Z) (c : ascii) (r : string) :
  0 <= n <= INT_MAX ->
  Ascii.eqb c "%" = false ->
  parse_job_token (String "%" (show n)) = n /\
  parse_job_token (String c r) = 0 /\
  parse_job_token "" = 0.
Proof.
  intros Hn Hc. split; [|split].
  - unfold parse_job_token. change (Ascii.eqb "%" "%") with true. cbv iota.
    apply atoi_show_fits. unfold INT_MIN. lia.
  - unfold parse_job_token. now rewrite Hc.
  - reflexivity.
Qed.

(** "%12" and "12". *)
Lemma parse_job_token_witness :
  parse_job_token "%12" = 12 /\ parse_job_token "12" = 0.
Proof.
  destruct (parse_job_token_reads_id 12 "1" "2") as (H1 & H2 & _).
  - unfold INT_MAX. simpl. lia.
  - reflexivity.
  - split; [exact H1|exact H2].
Defined.

(** ** Job Table *)

Lemma find_index_shift {A} (p : A -> bool) l :
  forall k,
    find_index p (S k) l =
    match find_index p k l with Some (i, t) => Some (S i, t) | None => None end.
Proof.
  induction l as [|x l IH]; intros k; simpl; [reflexivity|].
  destruct (p x); [reflexivity|apply IH].
Qed.

Lemma find_index_first {A} (p : A -> bool) l :
  forall i t,
    l !! i = Some t -> p t = true ->
    (forall k a, (k < i)%nat -> l !! k = Some a -> p a = false) ->
    find_index p 0 l = Some (i, t).
Proof.
  induction l as [|x l IH]; intros i t Hl Hp Hfirst; [discriminate|].
  destruct i as [|i]; simpl in *.
  - injection Hl as ->. now rewrite Hp.
  - rewrite (Hfirst 0%nat x) by (auto; lia).
    rewrite find_index_shift, (IH i t); auto.
    intros k a Hk Ha. apply (Hfirst (S k)); [lia|exact Ha].
Qed.

Lemma find_job_by_jid_at js i t :
  jids_increasing js -> js !! i = Some t ->
  find_job_by_jid (jid t) js = Some (i, t).
Proof.
  intros Hinc Hl. apply find_index_first; [assumption|lia|].
  intros k a Hk Ha. specialize (Hinc k i a t Hk Ha Hl). lia.
Qed.

(** X8.  In a table in the order of registration every job is found by
    its own id, at its own place; and an id is not found exactly when no
    job of the table has it. *)
Theorem find_job_by_jid_finds_each_job (js : list Job) :
  jids_increasing js ->
  (forall i t, js !! i = Some t -> find_job_by_jid (jid t) js = Some (i, t)) /\
  (forall n, find_job_by_jid n js = None <-> Forall (fun j => jid j <> n) js).
Proof.
  intros Hinc. split.
  - intros i t. now apply find_job_by_jid_at.
  - intros n. unfold find_job_by_jid.
    rewrite find_index_None, forallb_forall, Forall_forall.
    split; intros H j Hj.
    + apply list_elem_of_In, H in Hj. lia.
    + apply list_elem_of_In, H in Hj. lia.
Qed.

(** Two jobs, ids 1 and 3; the second is found by 3, and 2 is not
    found. *)
Lemma find_job_by_jid_witness :
  find_job_by_jid 3 [mkJob 1 90 "a" RUNNING; mkJob 3 95 "b" STOPPED]
    = Some (1%nat, mkJob 3 95 "b" STOPPED) /\
  find_job_by_jid 2 [mkJob 1 90 "a" RUNNING; mkJob 3 95 "b" STOPPED] = None.
Proof.
  destruct (find_job_by_jid_finds_each_job
              [mkJob 1 90 "a" RUNNING; mkJob 3 95 "b" STOPPED]) as [H1 H2].
  - intros i k a b Hik Ha Hb.
    destruct i as [|[|i]]; destruct k as [|[|k]]; simpl in *;
      try discriminate; try lia.
    injection Ha as <-. injection Hb as <-. simpl. lia.
  - split.
    + apply (H1 1%nat (mkJob 3 95 "b" STOPPED)). reflexivity.
    + apply H2. repeat constructor; simpl; lia.
Defined.

Lemma find_index_filter {A} (p q : A -> bool) l :
  forall k i t,
    find_index p k l = Some (i, t) -> q t = true ->
    exists i', find_index p k (List.filter q l) = Some (i', t) /\ (i' <= i)%nat.
Proof.
  induction l as [|x l IH]; intros k i t H Hq; [discriminate|].
  simpl in H. destruct (p x) eqn:Ep.
  - injection H as <- <-. exists k. simpl. rewrite Hq. simpl. rewrite Ep. auto.
  - destruct (IH (S k) i t H Hq) as (i' & E & Hle). simpl.
    destruct (q x).
    + exists i'. simpl. rewrite Ep. auto.
    + rewrite find_index_shift in E.
      destruct (find_index p k (List.filter q l)) as [[i0 t0]|]; [|discriminate].
      injection E as <- <-. exists i0. split; [reflexivity|lia].
Qed.

Lemma filter_all {A} (q : A -> bool) l :
  forallb q l = true -> List.filter q l = l.
Proof.
  induction l as [|x l IH]; simpl; [reflexivity|].
  intros H. apply andb_prop in H as [-> H]. now rewrite IH.
Qed.

(** X9.  After [remove_job_by_pgid g] no job of group [g] is found;
    removing again changes nothing; a table without the group is left as
    it is; and a job of another group is still found by its id, not
    further down the table than before. *)
Theorem remove_job_by_pgid_spec (g : Z) (js : list Job) :
  find_job_by_pgid g (remove_job_by_pgid g js) = None /\
  remove_job_by_pgid g (remove_job_by_pgid g js) = remove_job_by_pgid g js /\
  (find_job_by_pgid g js = None -> remove_job_by_pgid g js = js) /\
  (forall n i t,
      find_job_by_jid n js = Some (i, t) -> pgid t <> g ->
      exists i',
        find_job_by_jid n (remove_job_by_pgid g js) = Some (i', t) /\ (i' <= i)%nat).
Proof.
  assert (Hnone : find_job_by_pgid g (remove_job_by_pgid g js) = None).
  { apply find_job_by_pgid_None, no_group_remove. now right. }
  assert (Hid : forall l, find_job_by_pgid g l = None -> remove_job_by_pgid g l = l).
  { intros l H. apply filter_all. apply find_index_None in H.
    exact H. }
  split; [exact Hnone|]. split; [now apply Hid|]. split; [apply Hid|].
  intros n i t H Hg. apply find_index_filter; [exact H|]. lia.
Qed.

Lemma all_digits_uint (d : Decimal.uint) : all_digits (NilEmpty.string_of_uint d) = true.
Proof. induction d; simpl; auto. Qed.

Lemma lookup_snoc {A} (l : list A) x : (l ++ [x]) !! length l = Some x.
Proof. induction l; simpl; auto. Qed.

Section Resolution.

Variable getpgid : Z -> Z.

(** X10.  A job that has just been registered is the target of [fg] and
    [bg] with no argument, with [%id] and with the bare id, where [id]
    is the job id as the shell printed it. *)
Theorem registered_job_is_resolved
    (name : string) (pg : Z) (raw : string) (s : JobStatus) (w : world) :
  table_ok w ->
  next_jid w <= INT_MAX ->
  let j := mkJob (next_jid w) pg raw s in
  let js := jobs (register pg raw s w) in
  resolve_target getpgid [name] js = Some (length (jobs w), j) /\
  resolve_target getpgid [name; String "%" (show (next_jid w))] js
    = Some (length (jobs w), j) /\
  resolve_target getpgid [name; show (next_jid w)] js = Some (length (jobs w), j).
Proof.
  intros Hok Hmax j js.
  assert (Hjs : js = jobs w ++ [j]) by (subst js; now destruct w).
  assert (Hinc : jids_increasing js).
  { rewrite Hjs. destruct Hok as (Hb & Hi & _).
    apply jids_increasing_snoc; [exact Hi|exact Hb]. }
  destruct Hok as (_ & _ & Hpos & _).
  assert (Hat : js !! length (jobs w) = Some j) by (rewrite Hjs; apply lookup_snoc).
  pose proof (find_job_by_jid_at js _ j Hinc Hat) as Hfind.
  change (jid j) with (next_jid w) in Hfind.
  assert (Hatoi : atoi (show (next_jid w)) = next_jid w)
    by (apply atoi_show_fits; unfold INT_MIN; lia).
  split; [|split].
  - unfold resolve_target. cbn [lookup list_lookup].
    rewrite Hjs, last_snoc, length_app. simpl.
    do 2 f_equal. lia.
  - unfold resolve_target. cbn [lookup list_lookup str_tail].
    change (Ascii.eqb "%" "%") with true. cbv iota zeta.
    rewrite Hatoi. replace (0 <? next_jid w) with true by lia. exact Hfind.
  - unfold resolve_target. cbn [lookup list_lookup]. cbv zeta.
    destruct (next_jid w) as [|p|p] eqn:En; try lia.
    rewrite show_pos in *.
    rewrite all_digits_uint, Hatoi, Hfind.
    pose proof (DecimalPos.Unsigned.to_uint_nonnil p) as Hnn.
    destruct (Pos.to_uint p); [contradiction|..]; reflexivity.
Qed.

End Resolution.

(** The third job of a table, registered in the background. *)
Lemma registered_job_witness :
  resolve_target gp0 ["fg"; "%2"] (jobs (register 120 "vi" STOPPED w_fg))
    = Some (1%nat, mkJob 2 120 "vi" STOPPED).
Proof.
  assert (Hok : table_ok w_fg).
  { split; [|split; [|split]].
    - repeat constructor.
    - intros i k a b Hik Ha Hb. destruct i as [|i]; destruct k as [|k];
        simpl in *; try lia; destruct k; discriminate.
    - reflexivity.
    - repeat constructor. }
  destruct (registered_job_is_resolved gp0 "fg" 120 "vi" STOPPED w_fg Hok)
    as (_ & H & _).
  - unfold INT_MAX. simpl. lia.
  - exact H.
Defined.

(** ** The target of [fg] and [bg] *)

Lemma find_job_by_pgid_first g js i t :
  first_of_group g js i t -> find_job_by_pgid g js = Some (i, t).
Proof.
  intros (Hl & Hg & Hf). apply find_index_first; [exact Hl|cbv beta; lia|].
  intros k a Hk Ha. specialize (Hf k a Hk Ha). cbv beta. lia.
Qed.

Lemma find_job_by_jid_None n js : find_job_by_jid n js = None <-> no_jid n js.
Proof.
  unfold find_job_by_jid, no_jid. rewrite find_index_None, forallb_forall, Forall_forall.
  split; intros H j Hj.
  - apply list_elem_of_In, H in Hj. lia.
  - apply list_elem_of_In, H in Hj. lia.
Qed.

Lemma all_digits_show n : 0 < n -> all_digits (show n) = true.
Proof.
  intros H. destruct n as [|p|p]; try lia. rewrite show_pos. apply all_digits_uint.
Qed.

Lemma show_not_percent n r : 0 < n -> show n <> String "%" r.
Proof.
  intros H E. pose proof (all_digits_show n H) as Hd. rewrite E in Hd. discriminate.
Qed.

Section Target.

Variable getpgid : Z -> Z.

(** A token of digits goes to the second branch of lines 407-427. *)
Lemma resolve_digits name t1 more js :
  all_digits t1 = true ->
  resolve_target getpgid (name :: t1 :: more) js =
  match find_job_by_jid (atoi t1) js with
  | Some t => Some t
  | None => by_group_or_pid getpgid (atoi t1) js
  end.
Proof.
  intros Hd. unfold resolve_target. cbn [lookup list_lookup].
  assert (Hp : match t1 with String c _ => Ascii.eqb c "%" | EmptyString => false end = false).
  { destruct t1 as [|c r]; [reflexivity|]. simpl in Hd.
    destruct (is_digit c) eqn:Ec; [|discriminate]. now apply is_digit_not_percent. }
  cbv zeta. rewrite Hp, Hd. reflexivity.
Qed.

(** C7.  With no argument the target of [fg] and [bg] is the last entry
    of the table, which has the greatest job id when the table is in the
    order of registration.  [%n], with [n] as the shell prints it, is the
    job whose id is [n], and nothing else: when no job has that id there
    is no target.  A token of digits is the job with that id when there
    is one; if not, the first job with that group id; if not, the first
    job of the group that [getpgid] gives for that pid; if not, there is
    no target.  When there is no target the line "no such job" is the
    only effect. *)
Theorem fg_bg_target_resolution (name : string) (w : world) :
  (forall t,
      last (jobs w) = Some t ->
      resolve_target getpgid [name] (jobs w) = Some (pred (length (jobs w)), t) /\
      (jids_increasing (jobs w) ->
       forall k b, jobs w !! k = Some b -> jid b <= jid t)) /\
  (jobs w = [] -> resolve_target getpgid [name] (jobs w) = None) /\
  (forall i t more,
      jids_increasing (jobs w) -> jobs w !! i = Some t -> 0 < jid t <= INT_MAX ->
      resolve_target getpgid (name :: String "%" (show (jid t)) :: more) (jobs w)
        = Some (i, t) /\
      resolve_target getpgid (name :: show (jid t) :: more) (jobs w) = Some (i, t)) /\
  (forall r more,
      atoi r <= 0 \/ no_jid (atoi r) (jobs w) ->
      resolve_target getpgid (name :: String "%" r :: more) (jobs w) = None) /\
  (forall t1 more,
      all_digits t1 = true ->
      (forall i t,
          jids_increasing (jobs w) -> jobs w !! i = Some t -> jid t = atoi t1 ->
          resolve_target getpgid (name :: t1 :: more) (jobs w) = Some (i, t)) /\
      (forall i t,
          no_jid (atoi t1) (jobs w) -> atoi t1 <> 0 ->
          first_of_group (atoi t1) (jobs w) i t ->
          resolve_target getpgid (name :: t1 :: more) (jobs w) = Some (i, t)) /\
      (forall i t,
          no_jid (atoi t1) (jobs w) -> atoi t1 <> 0 ->
          no_group (atoi t1) (jobs w) ->
          0 <= getpgid (atoi t1) ->
          first_of_group (getpgid (atoi t1)) (jobs w) i t ->
          resolve_target getpgid (name :: t1 :: more) (jobs w) = Some (i, t)) /\
      (no_jid (atoi t1) (jobs w) ->
       atoi t1 = 0 \/
       (no_group (atoi t1) (jobs w) /\
        (getpgid (atoi t1) < 0 \/ no_group (getpgid (atoi t1)) (jobs w))) ->
       resolve_target getpgid (name :: t1 :: more) (jobs w) = None)) /\
  (forall tokens,
      resolve_target getpgid tokens (jobs w) = None ->
      fg_bg getpgid name tokens w =
        Some (tt, log (Stderr (name ++ ": no such job" ++ nl)%string) w)).
Proof.
  split; [|split; [|split; [|split; [|split]]]].
  - intros t El. split.
    + unfold resolve_target. simpl. rewrite El. do 3 f_equal. lia.
    + intros Hinc k b Hk. rewrite last_lookup in El.
      destruct (decide (k = pred (length (jobs w)))) as [->|Hne].
      * rewrite El in Hk. injection Hk as <-. lia.
      * apply lookup_lt_Some in Hk as Hlt.
        assert (jid b < jid t); [|lia].
        apply (Hinc k (pred (length (jobs w)))); auto. lia.
  - intros E. rewrite E. reflexivity.
  - intros i t more Hinc Hl Hj.
    assert (Hatoi : atoi (show (jid t)) = jid t)
      by (apply atoi_show_fits; unfold INT_MIN; lia).
    pose proof (find_job_by_jid_at _ _ _ Hinc Hl) as Hf. split.
    + unfold resolve_target. cbn [lookup list_lookup str_tail].
      change (Ascii.eqb "%" "%") with true. cbv iota zeta.
      rewrite Hatoi. replace (0 <? jid t) with true by lia. exact Hf.
    + rewrite resolve_digits by (apply all_digits_show; lia).
      now rewrite Hatoi, Hf.
  - intros r more H. unfold resolve_target. cbn [lookup list_lookup str_tail].
    change (Ascii.eqb "%" "%") with true. cbv iota zeta.
    destruct (0 <? atoi r) eqn:E; [|reflexivity].
    destruct H as [H|H]; [lia|]. now apply find_job_by_jid_None.
  - intros t1 more Hd. rewrite resolve_digits by exact Hd.
    split; [|split; [|split]].
    + intros i t Hinc Hl Hj. rewrite <- Hj.
      now rewrite (find_job_by_jid_at _ _ _ Hinc Hl).
    + intros i t Hn H0 Hg. apply find_job_by_jid_None in Hn. rewrite Hn.
      unfold by_group_or_pid. replace (atoi t1 =? 0) with false by lia.
      now rewrite (find_job_by_pgid_first _ _ _ _ Hg).
    + intros i t Hn H0 Hng Hp Hg. apply find_job_by_jid_None in Hn. rewrite Hn.
      unfold by_group_or_pid. replace (atoi t1 =? 0) with false by lia.
      apply find_job_by_pgid_None in Hng. rewrite Hng.
      unfold find_job_by_pid. replace (getpgid (atoi t1) <? 0) with false by lia.
      now apply find_job_by_pgid_first.
    + intros Hn H. apply find_job_by_jid_None in Hn. rewrite Hn.
      unfold by_group_or_pid. destruct (Z.eqb_spec (atoi t1) 0) as [|H0]; [reflexivity|].
      destruct H as [H|[Hng H]]; [contradiction|].
      apply find_job_by_pgid_None in Hng. rewrite Hng.
      unfold find_job_by_pid. destruct (getpgid (atoi t1) <? 0) eqn:E; [reflexivity|].
      destruct H as [H|H]; [lia|]. now apply find_job_by_pgid_None.
  - intros tokens H. unfold fg_bg. now rewrite H.
Qed.

End Target.

Lemma two_jobs_increasing : jids_increasing two_jobs.
Proof.
  intros i k a b Hik Ha Hb.
  destruct i as [|[|i]]; destruct k as [|[|k]]; simpl in *; try lia; try discriminate.
  injection Ha as <-. injection Hb as <-. simpl. lia.
Qed.

(** In a table of two jobs, with the process 101 in group 100: "fg"
    takes job 2, "fg %1" job 1, "fg 2" job 2, "fg 200" the job of group
    200, "fg 101" the job of which 101 is a member; "fg %7" and "fg 7"
    find none. *)
Lemma fg_bg_resolution_witness :
  resolve_target gp0 ["fg"] two_jobs = Some (1%nat, job_two) /\
  resolve_target gp0 ["fg"; "%1"] two_jobs = Some (0%nat, job_one) /\
  resolve_target gp0 ["fg"; "2"] two_jobs = Some (1%nat, job_two) /\
  resolve_target gp0 ["fg"; "200"] two_jobs = Some (1%nat, job_two) /\
  resolve_target gp0 ["fg"; "101"] two_jobs = Some (0%nat, job_one) /\
  resolve_target gp0 ["fg"; "%7"] two_jobs = None /\
  fg_bg gp0 "fg" ["fg"; "7"] w_two =
    Some (tt, log (Stderr ("fg: no such job" ++ nl)%string) w_two).
Proof.
  destruct (fg_bg_target_resolution gp0 "fg" w_two)
    as (Hlast & _ & Hid & Hpc & Hd & Hn).
  destruct (Hd "200" []) as (_ & Hgrp & _); [reflexivity|].
  destruct (Hd "101" []) as (_ & _ & Hpid & _); [reflexivity|].
  destruct (Hd "7" []) as (_ & _ & _ & Hnone); [reflexivity|].
  split; [|split; [|split; [|split; [|split; [|split]]]]].
  - apply (Hlast job_two). reflexivity.
  - apply (Hid 0%nat job_one []); [apply two_jobs_increasing|reflexivity|].
    unfold INT_MAX. simpl. lia.
  - apply (Hid 1%nat job_two []); [apply two_jobs_increasing|reflexivity|].
    unfold INT_MAX. simpl. lia.
  - apply (Hgrp 1%nat job_two).
    + repeat constructor; discriminate.
    + discriminate.
    + split; [reflexivity|]. split; [reflexivity|].
      intros k a Hk Ha. destruct k as [|k]; [|lia]. injection Ha as <-. discriminate.
  - apply (Hpid 0%nat job_one).
    + repeat constructor; discriminate.
    + discriminate.
    + repeat constructor; discriminate.
    + discriminate.
    + split; [reflexivity|]. split; [reflexivity|]. intros k a Hk. lia.
  - apply (Hpc "7" []). right. repeat constructor; discriminate.
  - apply Hn. apply Hnone.
    + repeat constructor; discriminate.
    + right. split; [repeat constructor; discriminate|]. left. reflexivity.
Defined.

(** ** Foreground Control Switch *)

Lemma alter_set_status s i t (js : list Job) :
  js !! i = Some t -> alter (set_status s) i js = <[i := set_status s t]> js.
Proof.
  intros Hl. apply list_eq. intros k. destruct (decide (k = i)) as [->|Hk].
  - rewrite list_lookup_alter_eq, Hl. simpl.
    symmetry. apply list_lookup_insert_eq. now apply lookup_lt_Some in Hl.
  - now rewrite list_lookup_alter_ne, list_lookup_insert_ne by auto.
Qed.

Section Switch.

Variable getpgid : Z -> Z.

Lemma by_group_or_pid_lookup p js i t :
  by_group_or_pid getpgid p js = Some (i, t) -> js !! i = Some t.
Proof.
  unfold by_group_or_pid. destruct (p =? 0); [discriminate|].
  destruct (find_job_by_pgid p js) as [[i0 t0]|] eqn:E.
  - intros H. injection H as <- <-. now apply find_job_by_pgid_Some in E.
  - intros H. now apply find_job_by_pid_Some in H.
Qed.

(** The target that [resolve_target] gives is an entry of the table, at
    the place it names. *)
Lemma resolve_target_lookup tokens js i t :
  resolve_target getpgid tokens js = Some (i, t) -> js !! i = Some t.
Proof.
  unfold resolve_target. destruct (tokens !! 1%nat) as [t1|].
  - cbv zeta.
    destruct (match t1 with String c _ => Ascii.eqb c "%" | EmptyString => false end).
    + destruct (0 <? atoi (str_tail t1)); [|discriminate].
      intros H. now apply find_job_by_jid_Some in H.
    + destruct (all_digits t1).
      * destruct (find_job_by_jid (atoi t1) js) as [[i0 t0]|] eqn:E.
        -- intros H. injection H as <- <-. now apply find_job_by_jid_Some in E.
        -- apply by_group_or_pid_lookup.
      * apply by_group_or_pid_lookup.
  - destruct (last js) as [l|] eqn:E; [|discriminate].
    intros H. injection H as <- <-. rewrite last_lookup in E.
    replace (length js - 1)%nat with (pred (length js)) by lia. exact E.
Qed.

(** X11.  [bg] on a job that is found sends SIGCONT to its group, sets
    its status to [RUNNING] whether or not the signal could be sent, and
    prints one line; it makes no [waitpid] and no [tcsetpgrp] call, and
    the other entries of the table are as before. *)
Theorem bg_continues_in_background
    (tokens : list string) (w : world) (i : nat) (t : Job) (r : Z) (rk : list Z) :
  resolve_target getpgid tokens (jobs w) = Some (i, t) ->
  os_kill w = r :: rk ->
  exists w',
    fg_bg getpgid "bg" tokens w = Some (tt, w') /\
    jobs w' = <[i := set_status RUNNING t]> (jobs w) /\
    trace w' =
      trace w ++ [SysKill (- pgid t) SIGCONT] ++
      (if r <? 0 then [Perror "kill(SIGCONT)"] else []) ++
      [Stdout ("[" ++ show (jid t) ++ "] " ++ show (pgid t) ++
               " Continued in background" ++ nl)%string] /\
    os_kill w' = rk /\ os_wait w' = os_wait w /\ next_jid w' = next_jid w.
Proof.
  intros Hr Hk. pose proof (resolve_target_lookup _ _ _ _ Hr) as Hl.
  unfold fg_bg. rewrite Hr. change (String.eqb "bg" "bg") with true. cbv iota.
  unfold do_bg, cont_kill, bind, sys_kill. rewrite Hk.
  rewrite <- (alter_set_status RUNNING i t (jobs w) Hl).
  destruct w as [js nj fl sh tr op ofk ow ok oc].
  destruct (r <? 0); eexists; (split; [reflexivity|]);
    cbn -[show]; rewrite <- ?app_assoc; auto.
Qed.

(** X12.  [fg] on a job that is found gives the terminal to its group,
    sends SIGCONT, and waits as the executor does.  When a member is
    reported stopped the status of the job becomes [STOPPED] and a notice
    is printed; otherwise the status is not touched.  Then the group is
    probed with signal 0 and the job is removed when the probe fails, and
    the terminal goes back to the group of the shell. *)
Theorem fg_waits_and_restores
    (tokens : list string) (w : world) (i : nat) (t : Job)
    (r1 r2 : Z) (rk : list Z) (pre : list wait_ret) (r : wait_ret)
    (rest : list wait_ret) :
  resolve_target getpgid tokens (jobs w) = Some (i, t) ->
  os_kill w = r1 :: r2 :: rk ->
  os_wait w = pre ++ r :: rest ->
  forallb goes_on pre = true ->
  goes_on r = false ->
  exists w',
    fg_bg getpgid "fg" tokens w = Some (tt, w') /\
    trace w' =
      trace w ++ [SysTcsetpgrp (pgid t); SysKill (- pgid t) SIGCONT] ++
      (if r1 <? 0 then [Perror "kill(SIGCONT)"] else []) ++
      repeat (wait_call (pgid t)) (S (length pre)) ++
      (if reports_stop r then [Stdout (notice t "Stopped")] else []) ++
      [SysKill (- pgid t) SIGNULL; SysTcsetpgrp (shell_pgid w)] /\
    jobs w' =
      (if r2 <? 0 then remove_job_by_pgid (pgid t) else id)
        (if reports_stop r then <[i := set_status STOPPED t]> (jobs w) else jobs w) /\
    os_wait w' = rest /\ os_kill w' = rk /\ next_jid w' = next_jid w.
Proof.
  intros Hr Hk Hs Hpre Hgo. pose proof (resolve_target_lookup _ _ _ _ Hr) as Hl.
  unfold fg_bg. rewrite Hr. change (String.eqb "fg" "bg") with false. cbv iota.
  rewrite <- (alter_set_status STOPPED i t (jobs w) Hl).
  destruct w as [js nj fl sh tr op ofk ow ok oc]. simpl in Hk, Hs. subst ok ow.
  unfold do_fg, cont_kill, bind, emit, lift, wait_for, sys_kill, ret.
  cbn [os_kill log with_trace with_kill].
  destruct (r1 <? 0); cbn [os_wait log with_trace with_kill];
    rewrite (wait_group_run _ _ _ _ _ Hpre Hgo);
    unfold stop_target;
    destruct (reports_stop r); cbn -[repeat notice remove_job_by_pgid];
    destruct (r2 <? 0); eexists; (split; [reflexivity|]);
    cbn -[repeat notice remove_job_by_pgid]; rewrite <- ?app_assoc;
    cbn -[repeat notice remove_job_by_pgid]; auto.
Qed.

End Switch.

(** "bg %1" on the stopped job 1, when the signal cannot be sent. *)
Lemma bg_witness :
  exists w',
    fg_bg gp0 "bg" ["bg"; "%1"]
      (with_kill [-1] (with_jobs [mkJob 1 100 "vi" STOPPED] w0)) = Some (tt, w') /\
    jobs w' = [mkJob 1 100 "vi" RUNNING].
Proof.
  destruct (bg_continues_in_background gp0 ["bg"; "%1"]
              (with_kill [-1] (with_jobs [mkJob 1 100 "vi" STOPPED] w0))
              0 (mkJob 1 100 "vi" STOPPED) (-1) [] eq_refl eq_refl)
    as (w' & E & Hj & _).
  exists w'. split; assumption.
Defined.

(** "fg" on the job 1, whose last member exits and whose group is then
    gone. *)
Lemma fg_witness :
  exists w',
    fg_bg gp0 "fg" ["fg"]
      (with_wait [mkWait 100 EOTHER Exited; mkWait (-1) ECHILD Exited]
         (with_kill [0; -1] (with_jobs [mkJob 1 100 "vi" STOPPED] w0)))
      = Some (tt, w') /\
    jobs w' = [].
Proof.
  destruct (fg_waits_and_restores gp0 ["fg"]
              (with_wait [mkWait 100 EOTHER Exited; mkWait (-1) ECHILD Exited]
                 (with_kill [0; -1] (with_jobs [mkJob 1 100 "vi" STOPPED] w0)))
              0 (mkJob 1 100 "vi" STOPPED) 0 (-1) []
              [mkWait 100 EOTHER Exited] (mkWait (-1) ECHILD Exited) []
              eq_refl eq_refl eq_refl eq_refl eq_refl)
    as (w' & E & _ & Hj & _).
  exists w'. split; assumption.
Defined.

(** ** Pipeline Executor *)

Lemma make_pipes_exact fds :
  forall i pre w rp,
    length pre = (2 * i)%nat ->
    os_pipe w = map Some fds ++ rp ->
    make_pipes (length fds) i (pre ++ replicate (2 * length fds) 0) w =
      Some (Some (pre ++ pipe_fds fds),
            logs (repeat SysPipe (length fds)) (with_pipe rp w)).
Proof.
  induction fds as [|[rd wr] fds IH]; intros i pre w rp Hpre Hs.
  - simpl in Hs. subst rp. simpl. unfold ret. do 2 f_equal. same_world w.
  - cbn [length make_pipes]. unfold bind, sys_pipe. rewrite Hs. cbn [map app].
    replace (2 * S (length fds))%nat with (S (S (2 * length fds))) by lia.
    cbn [replicate].
    rewrite (insert_app_r_alt pre _ (2 * i)) by lia.
    replace (2 * i - length pre)%nat with 0%nat by lia. cbn [insert list_insert].
    rewrite (insert_app_r_alt pre _ (2 * i + 1)) by lia.
    replace (2 * i + 1 - length pre)%nat with 1%nat by lia. cbn [insert list_insert].
    change (pre ++ rd :: wr :: replicate (2 * length fds) 0)
      with (pre ++ [rd; wr] ++ replicate (2 * length fds) 0).
    rewrite app_assoc.
    rewrite (IH (S i) (pre ++ [rd; wr]) _ rp).
    + unfold pipe_fds. cbn [flat_map fst snd]. rewrite <- !app_assoc.
      do 2 f_equal. same_world w.
    + rewrite length_app. simpl. lia.
    + destruct w; reflexivity.
Qed.

Lemma members_of_flat p ps :
  members_of p (flat_map (fun q => [SysFork; SysSetpgid q p]) ps) = ps.
Proof.
  induction ps as [|q ps IH]; [reflexivity|].
  cbn [flat_map app]. unfold members_of in *. cbn [flat_map app].
  rewrite Z.eqb_refl, IH. reflexivity.
Qed.

(** X13.  A pipeline of [n] stages launched in the foreground makes
    [n - 1] pipes and [n] processes, puts every process in the group of
    the first, closes in the parent each descriptor the pipes gave, hands
    the terminal to the group and waits; when the wait ends without a
    stop no job is registered. *)
Theorem launch_foreground_runs
    (n : nat) (raw : string) (w : world)
    (fds : list (Z * Z)) (rp : list (option (Z * Z))) (p : Z) (ps rf : list Z)
    (pre : list wait_ret) (r : wait_ret) (rest : list wait_ret) :
  length fds = (n - 1)%nat ->
  length (p :: ps) = n ->
  os_pipe w = map Some fds ++ rp ->
  os_fork w = (p :: ps) ++ rf ->
  Forall (fun q => 0 < q) (p :: ps) ->
  os_wait w = pre ++ r :: rest ->
  forallb goes_on pre = true ->
  goes_on r = false ->
  exists w',
    launch n false raw w = Some (RpRet 0, w') /\
    trace w' =
      trace w ++ repeat SysPipe (n - 1) ++ fork_events 0 (p :: ps) ++
      map SysClose (pipe_fds fds) ++ [SysTcsetpgrp p] ++
      repeat (wait_call p) (S (length pre)) ++
      (if reports_stop r
       then [Stdout (notice (mkJob (next_jid w) p raw STOPPED) "Stopped")]
       else []) ++
      [SysTcsetpgrp (shell_pgid w); SysTcgetattr] /\
    members_of p (fork_events 0 (p :: ps)) = p :: ps /\
    jobs w' = (if reports_stop r
               then jobs w ++ [mkJob (next_jid w) p raw STOPPED]
               else jobs w) /\
    os_wait w' = rest /\ os_pipe w' = rp /\ os_fork w' = rf.
Proof.
  intros Hfds Hn Hp Hf Hpos Hs Hpre Hgo.
  assert (Hp0 : p <> 0) by (inversion Hpos; lia).
  unfold launch. rewrite <- Hfds, <- Hn.
  pose proof (make_pipes_exact fds 0%nat [] w rp eq_refl Hp) as Ep.
  cbn [app] in Ep. unfold bind at 1. rewrite Ep. unfold bind at 1.
  rewrite (fork_all_ok (p :: ps) 0%nat 0 [] _ rf) by (auto; destruct w; exact Hf).
  assert (Hg : group_after 0 (p :: ps) = p).
  { unfold group_after. simpl. apply group_after_pos. lia. }
  rewrite Hg. replace (p =? 0) with false by lia.
  unfold bind at 1. unfold lift.
  destruct w as [js nj fl sh tr op ofk ow ok oc]. simpl in Hs. subst ow.
  unfold foreground, bind, emit, lift, wait_for, ret.
  cbn [os_wait log logs with_trace with_pipe with_fork].
  rewrite (wait_group_run _ _ _ _ _ Hpre Hgo).
  eexists. split; [reflexivity|].
  split; [|split].
  - unfold stop_foreground, register, logs, log.
    destruct (reports_stop r); cbn -[repeat notice fork_events pipe_fds];
      rewrite <- ?app_assoc; cbn -[repeat notice fork_events pipe_fds];
      rewrite <- ?app_assoc; reflexivity.
  - rewrite fork_events_first by assumption.
    unfold members_of. cbn [flat_map app]. rewrite Z.eqb_refl. cbn [app].
    f_equal. apply members_of_flat.
  - unfold stop_foreground, register, logs, log.
    destruct (reports_stop r); cbn -[repeat notice fork_events pipe_fds]; auto.
Qed.

(** "echo hi | wc -w": two children, both exit. *)
Lemma launch_foreground_witness :
  exists w',
    launch 2 false "echo hi | wc -w"
      (with_wait [mkWait 100 EOTHER Exited; mkWait 101 EOTHER Exited;
                  mkWait (-1) ECHILD Exited]
         (with_pipe [Some (3, 4)] (with_fork [100; 101] w0)))
      = Some (RpRet 0, w') /\
    jobs w' = [].
Proof.
  destruct (launch_foreground_runs 2 "echo hi | wc -w"
              (with_wait [mkWait 100 EOTHER Exited; mkWait 101 EOTHER Exited;
                          mkWait (-1) ECHILD Exited]
                 (with_pipe [Some (3, 4)] (with_fork [100; 101] w0)))
              [(3, 4)] [] 100 [101] []
              [mkWait 100 EOTHER Exited; mkWait 101 EOTHER Exited]
              (mkWait (-1) ECHILD Exited) []
              eq_refl eq_refl eq_refl eq_refl)
    as (w' & E & _ & _ & Hj & _); try reflexivity.
  - repeat constructor.
  - exists w'. split; assumption.
Defined.

(** ** The terminal comes back to the shell *)

Lemma targets_app a b :
  tcsetpgrp_targets (a ++ b) = tcsetpgrp_targets a ++ tcsetpgrp_targets b.
Proof. unfold tcsetpgrp_targets. now rewrite flat_map_app. Qed.

Lemma quiet_app sh a b : quiet_ok sh a -> quiet_ok sh b -> quiet_ok sh (a ++ b).
Proof. unfold quiet_ok. intros Ha Hb. now rewrite targets_app, Ha, Hb. Qed.

Lemma home_app sh a b : home_ok sh a -> home_ok sh b -> home_ok sh (a ++ b).
Proof.
  unfold home_ok. rewrite targets_app. intros Ha [Hb|Hb].
  - rewrite Hb, app_nil_r. exact Ha.
  - right. destruct (tcsetpgrp_targets b) as [|x l] using rev_ind; [discriminate|].
    rewrite app_assoc, last_snoc. now rewrite last_snoc in Hb.
Qed.

Lemma quiet_home sh es : quiet_ok sh es -> home_ok sh es.
Proof. intros H. now left. Qed.

Lemma extends_weaken {A} (m : M A) : extends quiet_ok m -> extends home_ok m.
Proof.
  intros H w a w' E. destruct (H w a w' E) as (Hs & es & Ht & Hq).
  split; [assumption|]. exists es. split; [assumption|]. now apply quiet_home.
Qed.

Lemma extends_bind ok {A B} (m : M A) (k : A -> M B) :
  (forall sh a b, ok sh a -> ok sh b -> ok sh (a ++ b)) ->
  extends ok m -> (forall a, extends ok (k a)) -> extends ok (bind m k).
Proof.
  intros Happ Hm Hk w b w' E. unfold bind in E.
  destruct (m w) as [[a w1]|] eqn:Em; [|discriminate].
  destruct (Hm w a w1 Em) as (Hs1 & es1 & Ht1 & Ho1).
  destruct (Hk a w1 b w' E) as (Hs2 & es2 & Ht2 & Ho2).
  split; [congruence|]. exists (es1 ++ es2). split.
  - rewrite Ht2, Ht1. now rewrite app_assoc.
  - apply Happ; [assumption|]. now rewrite <- Hs1.
Qed.

Lemma extends_ret ok {A} (a : A) :
  (forall sh, ok sh []) -> extends ok (ret a).
Proof.
  intros Hnil w b w' E. injection E as <- <-. split; [reflexivity|].
  exists []. split; [now rewrite app_nil_r|apply Hnil].
Qed.

Lemma extends_lift (f : world -> world) : wquiet f -> extends quiet_ok (lift f).
Proof.
  intros Hf w a w' E. injection E as <- <-. exact (Hf w).
Qed.

Lemma wquiet_log e :
  tcsetpgrp_targets [e] = [] -> wquiet (log e).
Proof.
  intros He w. split; [now destruct w|]. exists [e]. split; [now destruct w|exact He].
Qed.

Lemma wquiet_logs es :
  tcsetpgrp_targets es = [] -> wquiet (logs es).
Proof.
  intros He w. split; [now destruct w|]. exists es. split; [now destruct w|exact He].
Qed.

Lemma wquiet_compose f g : wquiet f -> wquiet g -> wquiet (fun w => g (f w)).
Proof.
  intros Hf Hg w. destruct (Hf w) as (Hs1 & es1 & Ht1 & Hq1).
  destruct (Hg (f w)) as (Hs2 & es2 & Ht2 & Hq2).
  split; [congruence|]. exists (es1 ++ es2). split.
  - rewrite Ht2, Ht1. now rewrite app_assoc.
  - now apply (quiet_app 0).
Qed.

Lemma wquiet_jobs (h : world -> list Job) : wquiet (fun w => with_jobs (h w) w).
Proof.
  intros w. split; [reflexivity|]. exists []. split; [|reflexivity].
  simpl. now rewrite app_nil_r.
Qed.

Lemma wquiet_register pg raw s : wquiet (register pg raw s).
Proof.
  intros w. split; [reflexivity|]. exists []. split; [|reflexivity].
  simpl. now rewrite app_nil_r.
Qed.

Lemma targets_stdout l (f : Job -> string) :
  tcsetpgrp_targets (map (fun j => Stdout (f j)) l) = [].
Proof. induction l; simpl; auto. Qed.

Lemma wquiet_print_jobs : wquiet print_jobs.
Proof. intros w. apply (wquiet_logs _ (targets_stdout (jobs w) job_line) w). Qed.

Lemma wquiet_stop_foreground pg raw : wquiet (stop_foreground pg raw).
Proof.
  intros w. split; [now destruct w|].
  exists [Stdout (notice (mkJob (next_jid w) pg raw STOPPED) "Stopped")].
  split; [destruct w; reflexivity|reflexivity].
Qed.

Lemma wquiet_stop_target i t : wquiet (stop_target i t).
Proof.
  intros w. split; [now destruct w|].
  exists [Stdout (notice t "Stopped")].
  split; [destruct w; reflexivity|reflexivity].
Qed.

Lemma extends_emit e : tcsetpgrp_targets [e] = [] -> extends quiet_ok (emit e).
Proof. intros He. apply extends_lift, wquiet_log, He. Qed.

Lemma extends_sys_pipe : extends quiet_ok sys_pipe.
Proof.
  intros w a w' E. unfold sys_pipe in E. destruct (os_pipe w); [discriminate|].
  injection E as <- <-. split; [now destruct w|].
  exists [SysPipe]. split; [now destruct w|reflexivity].
Qed.

Lemma extends_sys_fork : extends quiet_ok sys_fork.
Proof.
  intros w a w' E. unfold sys_fork in E. destruct (os_fork w); [discriminate|].
  injection E as <- <-. split; [now destruct w|].
  exists [SysFork]. split; [now destruct w|reflexivity].
Qed.

Lemma extends_sys_kill pid sig : extends quiet_ok (sys_kill pid sig).
Proof.
  intros w a w' E. unfold sys_kill in E. destruct (os_kill w); [discriminate|].
  injection E as <- <-. split; [now destruct w|].
  exists [SysKill pid sig]. split; [now destruct w|reflexivity].
Qed.

Lemma extends_sys_chdir path : extends quiet_ok (sys_chdir path).
Proof.
  intros w a w' E. unfold sys_chdir in E. destruct (os_chdir w); [discriminate|].
  injection E as <- <-. split; [now destruct w|].
  exists [SysChdir path]. split; [now destruct w|reflexivity].
Qed.

Lemma targets_map_quiet {A} (f : A -> event) l :
  (forall x, tcsetpgrp_targets [f x] = []) -> tcsetpgrp_targets (map f l) = [].
Proof.
  intros Hf. induction l as [|x l IH]; [reflexivity|].
  change (map f (x :: l)) with ([f x] ++ map f l).
  now rewrite targets_app, Hf, IH.
Qed.

Ltac quiet :=
  repeat match goal with
    | |- extends quiet_ok (bind _ _) =>
        apply (extends_bind quiet_ok); [exact quiet_app| |intros ?]
    | |- extends quiet_ok (ret _) => apply extends_ret; reflexivity
    | |- extends quiet_ok (emit _) => apply extends_emit; reflexivity
    | |- extends quiet_ok sys_pipe => apply extends_sys_pipe
    | |- extends quiet_ok sys_fork => apply extends_sys_fork
    | |- extends quiet_ok (sys_kill _ _) => apply extends_sys_kill
    | |- extends quiet_ok (sys_chdir _) => apply extends_sys_chdir
    | |- extends quiet_ok (if ?b then _ else _) => destruct b
    end.

Lemma quiet_make_pipes k : forall i pipes, extends quiet_ok (make_pipes k i pipes).
Proof.
  induction k as [|k IH]; intros i pipes; cbn [make_pipes]; quiet.
  destruct a as [[rd wr]|]; quiet. apply IH.
Qed.

Lemma quiet_fork_all k : forall i pg pids, extends quiet_ok (fork_all k i pg pids).
Proof.
  induction k as [|k IH]; intros i pg pids; cbn [fork_all]; quiet; try apply IH.
  apply extends_lift, wquiet_logs, targets_map_quiet. reflexivity.
Qed.

Lemma quiet_wait_group on_stop pg :
  wquiet on_stop ->
  forall script w rest w',
    wait_group on_stop pg script w = Some (rest, w') ->
    shell_pgid w' = shell_pgid w /\
    exists es, trace w' = trace w ++ es /\ tcsetpgrp_targets es = [].
Proof.
  intros Hs. induction script as [|r script IH]; intros w rest w' E; [discriminate|].
  simpl in E.
  assert (Hlog : forall v,
             shell_pgid v = shell_pgid (log (SysWaitpid (- pg) [WUNTRACED]) w) /\
             (exists es, trace v = trace (log (SysWaitpid (- pg) [WUNTRACED]) w) ++ es /\
                         tcsetpgrp_targets es = []) ->
             shell_pgid v = shell_pgid w /\
             exists es, trace v = trace w ++ es /\ tcsetpgrp_targets es = []).
  { intros v (H1 & es & H2 & H3). split; [now destruct w|].
    exists (SysWaitpid (- pg) [WUNTRACED] :: es). split; [|exact H3].
    rewrite H2. destruct w; simpl. now rewrite <- app_assoc. }
  assert (Hhere : shell_pgid (log (SysWaitpid (- pg) [WUNTRACED]) w)
                  = shell_pgid (log (SysWaitpid (- pg) [WUNTRACED]) w) /\
                  exists es, trace (log (SysWaitpid (- pg) [WUNTRACED]) w)
                             = trace (log (SysWaitpid (- pg) [WUNTRACED]) w) ++ es /\
                             tcsetpgrp_targets es = []).
  { split; [reflexivity|]. exists []. now rewrite app_nil_r. }
  destruct (w_ret r <? 0).
  - destruct (w_errno r);
      try (injection E as <- <-; apply Hlog; exact Hhere).
    apply Hlog. eapply IH. exact E.
  - destruct (w_status r); try solve [apply Hlog; eapply IH; exact E].
    injection E as <- <-. apply Hlog. apply Hs.
Qed.

Lemma quiet_wait_for on_stop pg : wquiet on_stop -> extends quiet_ok (wait_for on_stop pg).
Proof.
  intros Hs w a w' E. unfold wait_for in E.
  destruct (wait_group on_stop pg (os_wait w) w) as [[rest w1]|] eqn:Ew; [|discriminate].
  injection E as <- <-.
  destruct (quiet_wait_group _ _ Hs _ _ _ _ Ew) as (H1 & es & H2 & H3).
  split; [now destruct w1|]. exists es. split; [now destruct w1|exact H3].
Qed.

Lemma home_foreground pg raw : extends home_ok (foreground pg raw).
Proof.
  intros w a w' E. unfold foreground, bind, emit, lift in E.
  destruct (wait_for (stop_foreground pg raw) pg (log (SysTcsetpgrp pg) w))
    as [[[] w1]|] eqn:Ew; [|discriminate].
  injection E as <- <-.
  destruct (quiet_wait_for _ pg (wquiet_stop_foreground pg raw) _ _ _ Ew)
    as (H1 & es & H2 & H3).
  assert (Hsh : shell_pgid w1 = shell_pgid w) by (rewrite H1; now destruct w).
  split; [destruct w1; exact Hsh|].
  exists ([SysTcsetpgrp pg] ++ es ++ [SysTcsetpgrp (shell_pgid w); SysTcgetattr]).
  split.
  - rewrite <- Hsh. destruct w1; simpl in *. rewrite H2. destruct w; simpl.
    now rewrite <- !app_assoc.
  - right. rewrite !targets_app, H3. reflexivity.
Qed.

Lemma quiet_background_job pg raw : extends quiet_ok (background_job pg raw).
Proof.
  intros w a w' E. injection E as <- <-. split; [now destruct w|].
  eexists [Stdout _]. split; [destruct w; reflexivity|reflexivity].
Qed.

Ltac home :=
  repeat match goal with
    | |- extends home_ok (bind _ _) =>
        apply (extends_bind home_ok); [exact home_app| |intros ?]
    | |- extends home_ok (ret _) => apply extends_ret; now left
    | |- extends home_ok (if ?b then _ else _) => destruct b
    | |- extends home_ok (emit _) => apply extends_weaken, extends_emit; reflexivity
    | |- extends home_ok (lift print_jobs) =>
        apply extends_weaken, extends_lift, wquiet_print_jobs
    end.

Lemma home_launch n background raw : extends home_ok (launch n background raw).
Proof.
  unfold launch. home; [apply extends_weaken, quiet_make_pipes|].
  destruct a as [pipes|]; home; [apply extends_weaken, quiet_fork_all|].
  destruct a as [pg pids| |i pg]; home.
  all: try (apply extends_weaken, extends_lift, wquiet_logs, targets_map_quiet;
            reflexivity).
  all: try apply home_foreground.
  all: apply extends_weaken, quiet_background_job.
Qed.

Lemma quiet_cont_kill t : extends quiet_ok (cont_kill t).
Proof. unfold cont_kill. quiet. Qed.

Lemma quiet_do_bg i t : extends quiet_ok (do_bg i t).
Proof.
  unfold do_bg. quiet; [apply quiet_cont_kill|].
  apply extends_lift, (wquiet_jobs (fun w => alter (set_status RUNNING) i (jobs w))).
Qed.

Lemma home_do_fg i t : extends home_ok (do_fg i t).
Proof.
  intros w a w' E. unfold do_fg in E.
  unfold bind at 1 in E. unfold emit, lift in E.
  assert (Hq : extends quiet_ok
                 (cont_kill t ;; wait_for (stop_target i t) (pgid t) ;;
                  do r <- sys_kill (- pgid t) SIGNULL;
                  (if r <? 0
                   then lift (fun w => with_jobs (remove_job_by_pgid (pgid t) (jobs w)) w)
                   else ret tt) ;;
                  ret tt)).
  { quiet; try apply quiet_cont_kill.
    - apply quiet_wait_for, wquiet_stop_target.
    - apply extends_lift,
        (wquiet_jobs (fun w => remove_job_by_pgid (pgid t) (jobs w))). }
  unfold bind in E, Hq. unfold extends in Hq.
  specialize (Hq (log (SysTcsetpgrp (pgid t)) w) tt).
  destruct (cont_kill t (log (SysTcsetpgrp (pgid t)) w)) as [[[] w1]|]; [|discriminate].
  destruct (wait_for (stop_target i t) (pgid t) w1) as [[[] w2]|]; [|discriminate].
  destruct (sys_kill (- pgid t) SIGNULL w2) as [[r w3]|]; [|discriminate].
  set (w4 := if r <? 0
            then with_jobs (remove_job_by_pgid (pgid t) (jobs w3)) w3 else w3).
  assert (Hq4 : shell_pgid w4 = shell_pgid (log (SysTcsetpgrp (pgid t)) w) /\
                exists es, trace w4 = trace (log (SysTcsetpgrp (pgid t)) w) ++ es /\
                           quiet_ok (shell_pgid (log (SysTcsetpgrp (pgid t)) w)) es).
  { apply Hq. subst w4. unfold lift, ret. now destruct (r <? 0). }
  assert (E4 : Some (tt, log (SysTcsetpgrp (shell_pgid w4)) w4) = Some (a, w')).
  { subst w4. unfold lift, ret in E. now destruct (r <? 0). }
  clear E Hq. destruct Hq4 as (H1 & es & H2 & H3).
  injection E4 as <- <-.
  assert (Hsh : shell_pgid w4 = shell_pgid w) by (rewrite H1; now destruct w).
  split; [destruct w4; exact Hsh|].
  exists ([SysTcsetpgrp (pgid t)] ++ es ++ [SysTcsetpgrp (shell_pgid w)]).
  split.
  - rewrite <- Hsh. destruct w4; simpl in *. rewrite H2. destruct w; simpl.
    now rewrite <- !app_assoc.
  - right. rewrite !targets_app, H3. reflexivity.
Qed.

Section Homing.

Variable getpgid : Z -> Z.
Variable HOME : option string.

Lemma quiet_builtin_cd args : extends quiet_ok (builtin_cd HOME args).
Proof. unfold builtin_cd. quiet. Qed.

Lemma home_runPipeline cmds background raw :
  extends home_ok (runPipeline HOME cmds background raw).
Proof.
  unfold runPipeline. destruct cmds as [|c0 cmds]; home.
  match goal with |- extends home_ok (match ?x with _ => _ end) =>
    destruct x as [|name ?] end; [apply home_launch|].
  home; try apply home_launch.
  apply extends_weaken, quiet_builtin_cd.
Qed.

Lemma wquiet_reap pid st : wquiet (reap getpgid pid st).
Proof.
  intros w. unfold reap.
  destruct (find_job_by_pid getpgid pid (jobs w)) as [[i t]|].
  - destruct st; (split; [now destruct w|]);
      eexists [Stdout _]; (split; [destruct w; reflexivity|reflexivity]).
  - destruct st; (split; [reflexivity|]); exists [];
      (split; [now rewrite app_nil_r|reflexivity]).
Qed.

Lemma quiet_drain script :
  forall w rest w',
    drain getpgid script w = Some (rest, w') ->
    shell_pgid w' = shell_pgid w /\
    exists es, trace w' = trace w ++ es /\ tcsetpgrp_targets es = [].
Proof.
  induction script as [|r script IH]; intros w rest w' E; [discriminate|].
  simpl in E. destruct (0 <? w_ret r).
  - destruct (IH _ _ _ E) as (H1 & es & H2 & H3).
    destruct (wquiet_reap (w_ret r) (w_status r)
                (log (SysWaitpid (-1) drain_opts) w)) as (G1 & es1 & G2 & G3).
    split; [rewrite H1, G1; now destruct w|].
    exists ([SysWaitpid (-1) drain_opts] ++ es1 ++ es). split.
    + rewrite H2, G2. destruct w; simpl. now rewrite <- !app_assoc.
    + now rewrite !targets_app, G3, H3.
  - injection E as <- <-. split; [now destruct w|].
    exists [SysWaitpid (-1) drain_opts]. split; [now destruct w|reflexivity].
Qed.

Lemma quiet_update_jobs : extends quiet_ok (update_jobs getpgid).
Proof.
  intros w a w' E. unfold update_jobs in E.
  destruct (drain getpgid (os_wait w) w) as [[rest w1]|] eqn:Ed; [|discriminate].
  injection E as <- <-. destruct (quiet_drain _ _ _ _ Ed) as (H1 & es & H2 & H3).
  split; [now destruct w1|]. exists es. split; [now destruct w1|exact H3].
Qed.

Lemma home_fg_bg name tokens : extends home_ok (fg_bg getpgid name tokens).
Proof.
  intros w a w' E. unfold fg_bg in E.
  destruct (resolve_target getpgid tokens (jobs w)) as [[i t]|].
  - destruct (String.eqb name "bg").
    + eapply (extends_weaken _ (quiet_do_bg i t)); eauto.
    + eapply home_do_fg; eauto.
  - eapply (extends_weaken (emit _)); [|exact E]. apply extends_emit. reflexivity.
Qed.

Lemma home_dispatch tokens background input :
  extends home_ok (dispatch getpgid HOME tokens background input).
Proof.
  unfold dispatch. destruct tokens as [|t0 tokens]; home.
  - apply extends_weaken, quiet_builtin_cd.
  - apply home_fg_bg.
  - destruct (buildCommands (t0 :: tokens)); home. apply home_runPipeline.
Qed.

Lemma home_read_command line : extends home_ok (read_command getpgid HOME line).
Proof.
  unfold read_command. home. apply home_dispatch.
Qed.

Lemma home_poll_children : extends home_ok (poll_children getpgid).
Proof.
  apply extends_weaken. intros w a w' E. unfold poll_children in E.
  destruct (child_terminated w =? 0).
  - injection E as <- <-. split; [reflexivity|].
    exists []. split; [now rewrite app_nil_r|reflexivity].
  - eapply quiet_update_jobs; eauto.
Qed.

Lemma home_prompt_and_run line : extends home_ok (prompt_and_run getpgid HOME line).
Proof. unfold prompt_and_run. home. destruct line; home. apply home_read_command. Qed.

Lemma home_main_iter line : extends home_ok (main_iter getpgid HOME line).
Proof.
  unfold main_iter. home; [apply home_poll_children|apply home_prompt_and_run].
Qed.

End Homing.

(** What [extends home_ok] gives for the terminal. *)
Lemma tty_home_extends {A} (m : M A) (w w' : world) (a : A) :
  extends home_ok m -> tty_home w -> m w = Some (a, w') ->
  tty_home w' /\ shell_pgid w' = shell_pgid w.
Proof.
  intros Hm Hw E. destruct (Hm w a w' E) as (Hs & es & Ht & Ho).
  split; [|exact Hs]. unfold tty_home in *. rewrite Ht, targets_app, Hs.
  destruct Ho as [Ho|Ho].
  - rewrite Ho, app_nil_r. exact Hw.
  - destruct (tcsetpgrp_targets es) as [|x l] using rev_ind; [discriminate|].
    rewrite app_assoc, last_snoc. rewrite last_snoc in Ho. now injection Ho.
Qed.

Lemma home_deliver t : extends home_ok (deliver t).
Proof.
  apply extends_weaken. intros w a w' E. injection E as <- <-.
  split; [now destruct (t_sigchld t), w|].
  exists []. split; [rewrite app_nil_r; now destruct (t_sigchld t), w|reflexivity].
Qed.

Lemma home_main_turn HOME t : extends home_ok (main_turn HOME t).
Proof.
  unfold main_turn. home;
    [apply home_deliver|apply home_poll_children|apply home_prompt_and_run].
Qed.

Lemma home_main_loop HOME turns : extends home_ok (main_loop HOME turns).
Proof.
  induction turns as [|t turns IH]; cbn [main_loop]; [intros w a w' E; discriminate|].
  home; [apply home_main_turn|]. destruct a; home. apply IH.
Qed.

(** X14.  A turn of the loop of [main] that comes back leaves the
    terminal with the shell: if the last [tcsetpgrp] before the turn, if
    any, named [shell_pgid], so does the last one after it, and
    [shell_pgid] is what it was.  This holds whatever the line, the
    children and the system answer. *)
Theorem main_iter_returns_terminal
    (getpgid : Z -> Z) (HOME : option string) (line : option string)
    (w w' : world) (f : flow) :
  tty_home w ->
  main_iter getpgid HOME line w = Some (f, w') ->
  tty_home w' /\ shell_pgid w' = shell_pgid w.
Proof. apply tty_home_extends, home_main_iter. Qed.

(** The line "echo hi | wc -w" in the foreground. *)
Lemma main_iter_terminal_witness :
  exists w',
    main_iter gp0 None (Some "echo hi | wc -w")
      (with_wait [mkWait 100 EOTHER Exited; mkWait 101 EOTHER Exited;
                  mkWait (-1) ECHILD Exited]
         (with_pipe [Some (3, 4)] (with_fork [100; 101] w0)))
      = Some (Continue, w') /\
    last (tcsetpgrp_targets (trace w')) = Some 500 /\
    tty_home w'.
Proof.
  eexists. split; [vm_compute; reflexivity|]. split; [reflexivity|].
  eapply (main_iter_returns_terminal gp0 None (Some "echo hi | wc -w")
            (with_wait [mkWait 100 EOTHER Exited; mkWait 101 EOTHER Exited;
                        mkWait (-1) ECHILD Exited]
               (with_pipe [Some (3, 4)] (with_fork [100; 101] w0)))).
  - exact I.
  - vm_compute. reflexivity.
Defined.

(** ** Lines that do nothing, and references that name nothing *)

Lemma trim_all_space s : all_space s = true -> trim s = "".
Proof.
  intros H. unfold trim, ltrim. apply rtrim_empty. now rewrite skip_space_all_space.
Qed.

Section Lines.

Variable getpgid : Z -> Z.
Variable HOME : option string.

(** X15.  When no child has changed state, a line of blanks, and a line
    that is [&] between blanks, only get the prompt printed, and the end
    of the input only gets the prompt printed and ends the loop. *)
Theorem blank_line_is_noop (line : string) (w : world) :
  child_terminated w = 0 ->
  all_space line = true \/ trim line = "&" ->
  main_iter getpgid HOME (Some line) w = Some (Continue, log (Stdout "myshell> ") w) /\
  main_iter getpgid HOME None w = Some (Break, log (Stdout "myshell> ") w).
Proof.
  intros Hf Hl. unfold main_iter, bind, poll_children. rewrite Hf.
  change (0 =? 0) with true. cbv iota.
  unfold prompt_and_run, bind, emit, lift.
  split; [|reflexivity]. unfold read_command. destruct Hl as [Hl|Hl].
  - now rewrite (trim_all_space line Hl).
  - rewrite Hl. reflexivity.
Qed.

Lemma atoi_not_reference c r : starts_reference c = false -> atoi (String c r) = 0.
Proof.
  intros H. unfold starts_reference in H.
  destruct c as [[] [] [] [] [] [] [] []]; try discriminate H; reflexivity.
Qed.

(** X16.  A reference whose first character is not a digit, [%], a sign
    or a blank names no job: [fg] and [bg] print "no such job" and change
    nothing else. *)
Theorem word_reference_is_no_job
    (name : string) (c : ascii) (r : string) (more : list string) (w : world) :
  starts_reference c = false ->
  resolve_target getpgid (name :: String c r :: more) (jobs w) = None /\
  fg_bg getpgid name (name :: String c r :: more) w =
    Some (tt, log (Stderr (name ++ ": no such job" ++ nl)%string) w).
Proof.
  intros H.
  assert (Hr : resolve_target getpgid (name :: String c r :: more) (jobs w) = None).
  { unfold resolve_target. cbn [lookup list_lookup]. cbv zeta.
    rewrite (atoi_not_reference c r H). unfold starts_reference in H.
    destruct (Ascii.eqb c "%"); [now rewrite !orb_true_r in H|].
    cbn [all_digits]. destruct (is_digit c); [discriminate H|]. reflexivity. }
  split; [exact Hr|]. unfold fg_bg. now rewrite Hr.
Qed.

End Lines.

(** The line "  &  ". *)
Lemma blank_line_witness :
  main_iter gp0 None (Some "  &  ") w0 = Some (Continue, log (Stdout "myshell> ") w0).
Proof.
  destruct (blank_line_is_noop gp0 None "  &  " w0 eq_refl) as [H _].
  - right. reflexivity.
  - exact H.
Defined.

(** "fg foo". *)
Lemma word_reference_witness :
  fg_bg gp0 "fg" ["fg"; "foo"] (with_jobs [sleep_job] w0) =
    Some (tt, log (Stderr ("fg: no such job" ++ nl)%string) (with_jobs [sleep_job] w0)).
Proof.
  destruct (word_reference_is_no_job gp0 "fg" "f" "oo" [] (with_jobs [sleep_job] w0))
    as [_ H]; [reflexivity|exact H].
Defined.

(** ** A pass only removes *)

Lemma keys_remove g js :
  sublist (map job_key (remove_job_by_pgid g js)) (map job_key js).
Proof.
  unfold remove_job_by_pgid. induction js as [|j js IH]; simpl; [constructor|].
  destruct (negb (pgid j =? g)); simpl; now constructor.
Qed.

Lemma keys_alter s i js :
  map job_key (alter (set_status s) i js) = map job_key js.
Proof.
  revert i. induction js as [|j js IH]; intros i; [reflexivity|].
  destruct i as [|i]; simpl; [reflexivity|]. f_equal. apply IH.
Qed.

Section Pass.

Variable getpgid : Z -> Z.

Lemma keys_reap pid st w :
  sublist (map job_key (jobs (reap getpgid pid st w))) (map job_key (jobs w)) /\
  next_jid (reap getpgid pid st w) = next_jid w.
Proof.
  unfold reap. destruct (find_job_by_pid getpgid pid (jobs w)) as [[i t]|];
    destruct st; try (split; reflexivity).
  - split; [|now destruct w].
    replace (jobs _) with (remove_job_by_pgid (pgid t) (jobs w)) by now destruct w.
    apply keys_remove.
  - split; [|now destruct w].
    replace (jobs _) with (remove_job_by_pgid (pgid t) (jobs w)) by now destruct w.
    apply keys_remove.
  - split; [|now destruct w].
    replace (jobs _) with (alter (set_status STOPPED) i (jobs w)) by now destruct w.
    now rewrite keys_alter.
  - split; [|now destruct w].
    replace (jobs _) with (alter (set_status RUNNING) i (jobs w)) by now destruct w.
    now rewrite keys_alter.
Qed.

Lemma keys_drain script :
  forall w rest w',
    drain getpgid script w = Some (rest, w') ->
    sublist (map job_key (jobs w')) (map job_key (jobs w)) /\
    next_jid w' = next_jid w.
Proof.
  induction script as [|r script IH]; intros w rest w' E; [discriminate|].
  simpl in E. destruct (0 <? w_ret r).
  - destruct (IH _ _ _ E) as [H1 H2].
    destruct (keys_reap (w_ret r) (w_status r)
                (log (SysWaitpid (-1) drain_opts) w)) as [G1 G2].
    split; [|rewrite H2, G2; now destruct w].
    etransitivity; [exact H1|]. etransitivity; [exact G1|]. now destruct w.
  - injection E as <- <-. split; now destruct w.
Qed.

(** [getpgid] fails for the pid: line 77 returns no entry. *)
Lemma reap_gone pid st w : getpgid pid < 0 -> reap getpgid pid st w = w.
Proof.
  intros H. unfold reap, find_job_by_pid.
  replace (getpgid pid <? 0) with true by lia. now destruct st.
Qed.

Lemma reap_no_group pid st w :
  no_group (getpgid pid) (jobs w) -> reap getpgid pid st w = w.
Proof.
  intros H. unfold reap, find_job_by_pid. destruct (getpgid pid <? 0); [now destruct st|].
  apply find_job_by_pgid_None in H. rewrite H. now destruct st.
Qed.

Lemma find_job_by_pid_first pid js i t :
  0 <= getpgid pid -> first_of_group (getpgid pid) js i t ->
  find_job_by_pid getpgid pid js = Some (i, t).
Proof.
  intros Hp Hg. unfold find_job_by_pid. replace (getpgid pid <? 0) with false by lia.
  now apply find_job_by_pgid_first.
Qed.

(** A pass in which [getpgid] fails for every child reported exited or
    terminated leaves every job where it is. *)
Lemma keys_pass evs :
  (forall r, In r evs -> is_exit (w_status r) = true -> getpgid (w_ret r) < 0) ->
  forall w,
    map job_key (jobs (fold_left (reap_step getpgid) evs w)) = map job_key (jobs w).
Proof.
  induction evs as [|e evs IH]; intros H w; [reflexivity|].
  simpl. rewrite IH by (intros r Hr; apply H; now right).
  unfold reap_step. destruct (is_exit (w_status e)) eqn:Ee.
  - rewrite reap_gone by (apply H; [now left|exact Ee]). now destruct w.
  - unfold reap.
    destruct (find_job_by_pid getpgid (w_ret e) (jobs (log drain_call w))) as [[i t]|];
      destruct (w_status e); try discriminate; try (now destruct w).
    + replace (jobs _) with (alter (set_status STOPPED) i (jobs w)) by now destruct w.
      apply keys_alter.
    + replace (jobs _) with (alter (set_status RUNNING) i (jobs w)) by now destruct w.
      apply keys_alter.
Qed.

(** C3.  [update_jobs] looks for the Job of a reaped child through
    [getpgid] of its pid (lines 75-78 and 100).  A child reported exited
    or terminated has been reaped, and [getpgid] fails for its pid: no
    entry is found, no "Done" line is printed and no Job is removed,
    whatever the table holds; after a pass in which this is so for every
    exit, every job is where it was.  A child reported stopped
    (continued) is alive: the first entry of its group has its status set
    to [STOPPED] ([RUNNING]) and its line printed.  A child in whose group
    no entry is changes nothing.  The pass ends at the first answer of
    [waitpid] that is not a positive pid and leaves the flag at 0. *)
Theorem update_jobs_misses_reaped_exits
    (w : world) (evs : list wait_ret) (z : wait_ret) (rest : list wait_ret) :
  os_wait w = evs ++ z :: rest ->
  forallb (fun r => 0 <? w_ret r) evs = true ->
  w_ret z <= 0 ->
  (forall r, In r evs -> is_exit (w_status r) = true -> getpgid (w_ret r) < 0) ->
  (exists w',
      update_jobs getpgid w = Some (tt, w') /\
      child_terminated w' = 0 /\
      os_wait w' = rest /\
      map job_key (jobs w') = map job_key (jobs w)) /\
  (forall w1 pid st, getpgid pid < 0 -> reap getpgid pid st w1 = w1) /\
  (forall w1 pid i t,
      0 <= getpgid pid -> first_of_group (getpgid pid) (jobs w1) i t ->
      reap getpgid pid Stopped w1 =
        log (Stdout (notice t "Stopped"))
            (with_jobs (<[i := set_status STOPPED t]> (jobs w1)) w1) /\
      reap getpgid pid Continued w1 =
        log (Stdout (notice t "Continued"))
            (with_jobs (<[i := set_status RUNNING t]> (jobs w1)) w1)) /\
  (forall w1 pid st, no_group (getpgid pid) (jobs w1) -> reap getpgid pid st w1 = w1).
Proof.
  intros Hs Hp Hz Hgone. split; [|split; [|split]].
  - rewrite (update_jobs_run getpgid evs z rest w Hs Hp Hz). eexists.
    split; [reflexivity|].
    pose proof (keys_pass evs Hgone w) as Hk.
    destruct (fold_left (reap_step getpgid) evs w). simpl in *. auto.
  - intros w1 pid st. apply reap_gone.
  - intros w1 pid i t Hpid Hg. unfold reap.
    rewrite (find_job_by_pid_first _ _ _ _ Hpid Hg).
    destruct Hg as (Hl & _). rewrite !(alter_set_status _ _ _ _ Hl). split; reflexivity.
  - intros w1 pid st. apply reap_no_group.
Qed.

(** C4.  A job registered in the background has status [RUNNING] when
    it is registered.  A pass of [update_jobs] does not remove it when
    its members exit: [getpgid] fails for a child that has been reaped,
    so the Job is still in the table, at its place, after a pass that has
    reaped the exit of every member. *)
Theorem background_job_outlives_members
    (w : world) (evs : list wait_ret) (z : wait_ret) (rest : list wait_ret)
    (pg : Z) (raw : string) :
  os_wait w = evs ++ z :: rest ->
  forallb (fun r => 0 <? w_ret r) evs = true ->
  w_ret z <= 0 ->
  (forall r, In r evs -> is_exit (w_status r) = true -> getpgid (w_ret r) < 0) ->
  (exists w1,
      background_job pg raw w = Some (tt, w1) /\
      jobs w1 = jobs w ++ [mkJob (next_jid w) pg raw RUNNING]) /\
  (exists w',
      update_jobs getpgid w = Some (tt, w') /\
      forall i t,
        jobs w !! i = Some t ->
        exists t', jobs w' !! i = Some t' /\ job_key t' = job_key t).
Proof.
  intros Hs Hp Hz Hgone. split.
  - eexists. split; [reflexivity|]. now destruct w.
  - rewrite (update_jobs_run getpgid evs z rest w Hs Hp Hz). eexists.
    split; [reflexivity|]. intros i t Hl.
    pose proof (keys_pass evs Hgone w) as Hk.
    assert (Hm : map job_key (jobs (fold_left (reap_step getpgid) evs w)) !! i
                 = Some (job_key t)).
    { rewrite Hk, list_lookup_fmap, Hl. reflexivity. }
    rewrite list_lookup_fmap in Hm.
    set (v := fold_left (reap_step getpgid) evs w) in *.
    replace (jobs (with_flag 0 (with_wait rest (log drain_call v)))) with (jobs v)
      by now destruct v.
    destruct (jobs v !! i) as [t'|]; [|discriminate].
    exists t'. split; [reflexivity|]. simpl in Hm. congruence.
Qed.

(** X17.  A pass of [update_jobs] registers nothing and renames nothing:
    the jobs after it are jobs that were there before, in the same order
    and with the same id, group and label, and [next_jid] is as it
    was. *)
Theorem update_jobs_only_removes (w w' : world) :
  update_jobs getpgid w = Some (tt, w') ->
  sublist (map job_key (jobs w')) (map job_key (jobs w)) /\
  next_jid w' = next_jid w.
Proof.
  intros E. unfold update_jobs in E.
  destruct (drain getpgid (os_wait w) w) as [[rest w1]|] eqn:Ed; [|discriminate].
  injection E as <-. destruct (keys_drain _ _ _ _ Ed) as [H1 H2].
  split; now destruct w1.
Qed.

End Pass.

(** The pass that reaps the exit of 100. *)
Lemma update_jobs_only_removes_witness :
  exists w',
    update_jobs gp0 w_reap = Some (tt, w') /\
    sublist (map job_key (jobs w')) (map job_key (jobs w_reap)) /\
    next_jid w' = 1.
Proof.
  eexists. split; [vm_compute; reflexivity|].
  apply (update_jobs_only_removes gp0 w_reap). vm_compute. reflexivity.
Defined.

(** The job "sleep 1 | sleep 100 &" has the members 100 and 101.  The
    pass reaps the exit of 100, which [getpgid] no longer knows, and the
    stop of 101: nothing is printed for 100, the job stays, and 101 sets
    its status. *)
Lemma update_jobs_misses_witness :
  update_jobs gp_reaped w_miss =
    Some (tt, World [set_status STOPPED sleep_job] 1 0 500
                    [drain_call; drain_call; Stdout (notice sleep_job "Stopped");
                     drain_call]
                    [] [] [] [] []) /\
  exists w',
    update_jobs gp_reaped w_miss = Some (tt, w') /\
    child_terminated w' = 0 /\
    map job_key (jobs w') = [job_key sleep_job].
Proof.
  split; [vm_compute; reflexivity|].
  destruct (update_jobs_misses_reaped_exits gp_reaped w_miss
              [mkWait 100 EOTHER Exited; mkWait 101 EOTHER Stopped]
              (mkWait 0 EOTHER Exited) [] eq_refl eq_refl)
    as [(w' & E & Hf & _ & Hk) _].
  - discriminate.
  - intros r [<-|[<-|[]]] Hr; [reflexivity|discriminate].
  - exists w'. repeat split; assumption.
Defined.

(** The job "sleep 1 &" has the one member 100; the pass reaps its exit
    and the job is still in the table. *)
Lemma background_job_outlives_witness :
  update_jobs gp_gone w_outlive =
    Some (tt, World [sleep1_job] 1 0 500 [drain_call; drain_call] [] [] [] [] []) /\
  exists w' t',
    update_jobs gp_gone w_outlive = Some (tt, w') /\
    jobs w' !! 0%nat = Some t' /\ job_key t' = job_key sleep1_job.
Proof.
  split; [vm_compute; reflexivity|].
  destruct (background_job_outlives_members gp_gone w_outlive
              [mkWait 100 EOTHER Exited] (mkWait 0 EOTHER Exited) [] 100 "sleep 1"
              eq_refl eq_refl)
    as [_ (w' & E & H)].
  - discriminate.
  - intros r _ _. reflexivity.
  - destruct (H 0%nat sleep1_job eq_refl) as (t' & Ht & Hk).
    exists w', t'. repeat split; assumption.
Defined.

(** ** The child of a stage *)

Lemma calm_app a b : calm a -> calm b -> calm (a ++ b).
Proof. unfold calm. intros Ha Hb. now rewrite forallb_app, Ha, Hb. Qed.

Lemma calm_noexec es : calm es -> forallb (fun e => negb (is_cexec e)) es = true.
Proof.
  unfold calm. induction es as [|e es IH]; simpl; [reflexivity|].
  intros H. apply andb_prop in H as [He H]. apply andb_prop in He as [_ He].
  now rewrite He, IH.
Qed.

Lemma csetup_ret {A} (a : A) : csetup (cret a).
Proof.
  intros w r w' E. injection E as <- <-. split; [reflexivity|].
  exists []. split; [now rewrite app_nil_r|]. split; reflexivity.
Qed.

Lemma csetup_bind {A B} (m : C A) (k : A -> C B) :
  csetup m -> (forall a, csetup (k a)) -> csetup (cbind m k).
Proof.
  intros Hm Hk w r w' E. unfold cbind in E.
  destruct (m w) as [[[a|e] w1]|] eqn:Em; [| |discriminate].
  - destruct (Hm _ _ _ Em) as (X1 & es1 & T1 & N1 & C1).
    destruct (Hk a _ _ _ E) as (X2 & es2 & T2 & N2 & C2).
    split; [congruence|]. exists (es1 ++ es2).
    split; [rewrite T2, T1; now rewrite app_assoc|].
    split; [now rewrite forallb_app, N1, N2|].
    destruct r as [b|[f args|code]]; [now apply calm_app| exact C2|].
    destruct C2 as [-> C2]. split; [reflexivity|].
    rewrite existsb_app, C2. apply orb_true_r.
  - injection E as <- <-. destruct (Hm _ _ _ Em) as (X1 & es1 & T1 & N1 & C1).
    split; [assumption|]. exists es1. split; [assumption|]. split; assumption.
Qed.

Lemma csetup_emits es : calm es -> csetup (c_emits es).
Proof.
  intros H w r w' E. injection E as <- <-. split; [reflexivity|].
  exists es. split; [reflexivity|]. split; [now apply calm_noexec|exact H].
Qed.

Lemma csetup_emit e :
  negb (is_cperror e) && negb (is_cexec e) = true -> csetup (c_emit e).
Proof. intros H. apply (csetup_emits [e]). unfold calm. simpl. now rewrite H. Qed.

Lemma csetup_wire fd target : csetup (wire fd target).
Proof.
  intros w r w' E. unfold wire, cbind, sys_dup2 in E.
  destruct (c_dup2 w) as [|a rest]; [discriminate|].
  destruct (a <? 0); injection E as <- <-; (split; [reflexivity|]).
  - exists [CDup2 fd target; CPerror "dup2"]. simpl. rewrite <- app_assoc.
    repeat split.
  - exists [CDup2 fd target]. repeat split.
Qed.

Lemma csetup_redirect path flags mode target : csetup (redirect path flags mode target).
Proof.
  intros w r w' E. unfold redirect, cbind, sys_open, sys_dup2 in E.
  destruct (c_open w) as [|fd rest]; [discriminate|]. simpl in E.
  destruct (fd <? 0).
  - injection E as <- <-. split; [reflexivity|].
    exists [COpen path flags mode; CPerror path]. simpl. rewrite <- app_assoc.
    repeat split.
  - destruct (c_dup2 w) as [|a rest2]; [discriminate|]. simpl in E.
    destruct (a <? 0); injection E as <- <-; (split; [reflexivity|]).
    + exists [COpen path flags mode; CDup2 fd target; CPerror "dup2"; CClose fd].
      simpl. rewrite <- !app_assoc. repeat split.
    + exists [COpen path flags mode; CDup2 fd target; CClose fd].
      simpl. rewrite <- !app_assoc. repeat split.
Qed.

Lemma calm_closes pipes : calm (map CClose pipes).
Proof. unfold calm. induction pipes; simpl; auto. Qed.

Lemma csetup_child_setup n i pgid pipes c : csetup (child_setup n i pgid pipes c).
Proof.
  unfold child_setup.
  repeat (apply csetup_bind; [|intros _]).
  - apply csetup_emit. now destruct (pgid =? 0).
  - now apply csetup_emits.
  - destruct (0 <? i)%nat; [apply csetup_wire|apply csetup_ret].
  - destruct (i <? n - 1)%nat; [apply csetup_wire|apply csetup_ret].
  - destruct (str_empty (infile c)); [apply csetup_ret|apply csetup_redirect].
  - destruct (str_empty (outfile c)); [apply csetup_ret|apply csetup_redirect].
  - apply csetup_emits, calm_closes.
Qed.

(** X18.  The child never comes back to the code of the shell.  It calls
    [execvp] at most once, with the arguments of the stage as C strings,
    and only when its set-up printed no diagnostic; a failed [dup2] or [open]
    ends it with status 1 after a diagnostic and without [execvp]; a
    stage without arguments ends it with status 0 without [execvp]; a
    failed [execvp] is followed by the diagnostic "exec" and status
    1. *)
Theorem child_execs_only_after_clean_setup
    (n i : nat) (pgid : Z) (pipes : list Z) (c : Command)
    (w : child_world) (r : cres unit) (w' : child_world) :
  child n i pgid pipes c w = Some (r, w') ->
  exists es,
    c_trace w' = c_trace w ++ es /\
    match r with
    | CVal _ => False
    | CEnd (Runs f a) =>
        c_exec_ok w = true /\ a = map c_str (argv c) /\ hd_error a = Some f /\
        exists pre, es = pre ++ [CExecvp f a] /\ calm pre
    | CEnd (Exits code) =>
        (code = 0 /\ argv c = [] /\ calm es) \/
        (code = 1 /\ forallb (fun e => negb (is_cexec e)) es = true /\
         existsb is_cperror es = true) \/
        (code = 1 /\ c_exec_ok w = false /\
         exists pre f,
           hd_error (map c_str (argv c)) = Some f /\
           es = pre ++ [CExecvp f (map c_str (argv c)); CPerror "exec"] /\ calm pre)
    end.
Proof.
  intros E. unfold child, cbind in E.
  destruct (child_setup n i pgid pipes c w) as [[[[]|e] w1]|] eqn:Es; [| |discriminate].
  - destruct (csetup_child_setup _ _ _ _ _ _ _ _ Es) as (X & es & T & _ & Hc).
    unfold child_exec in E. destruct (argv c) as [|f args] eqn:Ea.
    + injection E as <- <-. exists es. split; [assumption|]. left. auto.
    + unfold sys_execvp in E. rewrite X in E. destruct (c_exec_ok w) eqn:Ex.
      * injection E as <- <-.
        exists (es ++ [CExecvp (c_str f) (map c_str (f :: args))]).
        split; [simpl; rewrite T; now rewrite app_assoc|].
        repeat split. now exists es.
      * injection E as <- <-.
        exists (es ++ [CExecvp (c_str f) (map c_str (f :: args)); CPerror "exec"]).
        split; [simpl; rewrite T; now rewrite <- !app_assoc|].
        right; right. repeat split. exists es, (c_str f). auto.
  - injection E as <- <-.
    destruct (csetup_child_setup _ _ _ _ _ _ _ _ Es) as (X & es & T & Hn & Hc).
    exists es. split; [assumption|]. destruct e as [f a|code]; [contradiction|].
    destruct Hc as [-> Hp]. right; left. auto.
Qed.

(** The second stage of a pipeline, whose input file cannot be opened. *)
Lemma child_failure_witness :
  exists w',
    child 2 1 100 [3; 4] (mkCommand ["wc"] "missing.txt" "" false)
          (ChildWorld [] [0] [-1] true)
      = Some (CEnd (Exits 1), w') /\
    forallb (fun e => negb (is_cexec e)) (c_trace w') = true.
Proof.
  eexists. split; [vm_compute; reflexivity|].
  destruct (child_execs_only_after_clean_setup 2 1 100 [3; 4]
              (mkCommand ["wc"] "missing.txt" "" false)
              (ChildWorld [] [0] [-1] true) (CEnd (Exits 1))
              (ChildWorld [CSetpgid 0 100; CSignalDfl SIGINT; CSignalDfl SIGTSTP;
                           CSignalDfl SIGQUIT; CDup2 3 0;
                           COpen "missing.txt" [O_RDONLY] None;
                           CPerror "missing.txt"] [] [] true))
    as (es & T & H).
  - vm_compute. reflexivity.
  - destruct H as [(H & _)|[(_ & H & _)|(_ & H & _)]]; try discriminate.
    simpl in T. subst es. exact H.
Defined.

Lemma dup2_onto_app t a b : dup2_onto t (a ++ b) = dup2_onto t a ++ dup2_onto t b.
Proof. unfold dup2_onto. now rewrite flat_map_app. Qed.

Lemma dup2_onto_closes t pipes : dup2_onto t (map CClose pipes) = [].
Proof. induction pipes; simpl; auto. Qed.

Lemma child_setup_trace
    (n i : nat) (pgid : Z) (pipes : list Z) (c : Command) (w : child_world)
    (d1 d2 d3 d4 : Z) (rd : list Z) (o1 o2 : Z) (ro : list Z) :
  c_dup2 w = d1 :: d2 :: d3 :: d4 :: rd ->
  c_open w = o1 :: o2 :: ro ->
  Forall (fun x => 0 <= x) [d1; d2; d3; d4; o1; o2] ->
  exists w',
    child_setup n i pgid pipes c w = Some (CVal tt, w') /\
    c_trace w' =
      c_trace w ++
      setup_calls n i pgid pipes c o1 (if str_empty (infile c) then o1 else o2).
Proof.
  intros Hd Ho Hpos.
  repeat match goal with
         | H : Forall _ (_ :: _) |- _ => inversion H; subst; clear H
         end.
  destruct w as [tr dd oo ex]. simpl in Hd, Ho. subst dd oo.
  unfold setup_calls, child_setup, wire, redirect.
  destruct (0 <? i)%nat, (i <? n - 1)%nat, (str_empty (infile c)),
    (str_empty (outfile c));
    unfold cbind, c_emit, c_emits, cret, sys_dup2, sys_open, c_log;
    cbn [c_dup2 c_open c_trace c_exec_ok];
    repeat (match goal with
            | |- context [?x <? 0] => replace (x <? 0) with false by lia
            end;
            cbn [c_dup2 c_open c_trace c_exec_ok]);
    (eexists; split; [reflexivity|]);
    cbn [c_trace]; rewrite <- ?app_assoc; reflexivity.
Qed.

(** X19.  When every [dup2] and [open] of the set-up succeeds, the child
    joins the group, restores the three signals, puts the pipe ends on
    its standard streams, then the files, and closes every descriptor of
    the pipes.  A file comes after the pipe on the same stream, so what
    is left on standard input is the input file when the stage has one
    and the pipe otherwise, and the same holds for standard output. *)
Theorem child_setup_wires_streams
    (n i : nat) (pgid : Z) (pipes : list Z) (c : Command) (w : child_world)
    (d1 d2 d3 d4 : Z) (rd : list Z) (o1 o2 : Z) (ro : list Z) :
  c_dup2 w = d1 :: d2 :: d3 :: d4 :: rd ->
  c_open w = o1 :: o2 :: ro ->
  Forall (fun x => 0 <= x) [d1; d2; d3; d4; o1; o2] ->
  let fin := o1 in
  let fout := if str_empty (infile c) then o1 else o2 in
  let es := setup_calls n i pgid pipes c fin fout in
  exists w',
    child_setup n i pgid pipes c w = Some (CVal tt, w') /\
    c_trace w' = c_trace w ++ es /\
    last (dup2_onto STDIN_FILENO es) =
      (if str_empty (infile c)
       then if (0 <? i)%nat then Some (nth (2 * (i - 1)) pipes 0) else None
       else Some fin) /\
    last (dup2_onto STDOUT_FILENO es) =
      (if str_empty (outfile c)
       then if (i <? n - 1)%nat then Some (nth (2 * i + 1) pipes 0) else None
       else Some fout) /\
    (forall fd, In fd pipes -> In (CClose fd) es).
Proof.
  intros Hd Ho Hpos fin fout es.
  destruct (child_setup_trace n i pgid pipes c w _ _ _ _ _ _ _ _ Hd Ho Hpos)
    as (w' & E & T).
  exists w'. split; [exact E|]. split; [exact T|].
  subst es fin fout. unfold setup_calls.
  split; [|split].
  - destruct (0 <? i)%nat, (i <? n - 1)%nat, (str_empty (infile c)),
      (str_empty (outfile c)), (pgid =? 0);
      rewrite ?dup2_onto_app, ?dup2_onto_closes, ?app_nil_r; reflexivity.
  - destruct (0 <? i)%nat, (i <? n - 1)%nat, (str_empty (infile c)),
      (str_empty (outfile c)), (pgid =? 0);
      rewrite ?dup2_onto_app, ?dup2_onto_closes, ?app_nil_r; reflexivity.
  - intros fd Hfd. rewrite !in_app_iff. do 5 right. apply in_map_iff. eauto.
Qed.

(** The middle stage of three, with an input file. *)
Lemma child_setup_witness :
  exists w',
    child_setup 3 1 100 [3; 4; 5; 6] (mkCommand ["sort"] "in.txt" "" false)
                (ChildWorld [] [0; 1; 0; 1] [7; 8] true) = Some (CVal tt, w') /\
    last (dup2_onto STDIN_FILENO (c_trace w')) = Some 7.
Proof.
  destruct (child_setup_wires_streams 3 1 100 [3; 4; 5; 6]
              (mkCommand ["sort"] "in.txt" "" false)
              (ChildWorld [] [0; 1; 0; 1] [7; 8] true)
              0 1 0 1 [] 7 8 [] eq_refl eq_refl)
    as (w' & E & T & Hin & _).
  - repeat constructor; lia.
  - exists w'. split; [exact E|]. rewrite T. exact Hin.
Defined.

Lemma nth_pipe_fds fds :
  forall k,
    (k < length fds)%nat ->
    nth (2 * k) (pipe_fds fds) 0 = fst (nth k fds (0, 0)) /\
    nth (2 * k + 1) (pipe_fds fds) 0 = snd (nth k fds (0, 0)).
Proof.
  induction fds as [|p fds IH]; intros k Hk; [simpl in Hk; lia|].
  destruct k as [|k]; [split; reflexivity|].
  replace (2 * S k)%nat with (S (S (2 * k))) by lia.
  replace (S (S (2 * k)) + 1)%nat with (S (S (2 * k + 1))) by lia.
  simpl in Hk. apply IH. lia.
Qed.

(** X20.  In a pipeline whose pipes were made in the order [fds], stage
    [i] without file redirections puts on its standard input the read end
    of pipe [i - 1] (nothing for the first stage) and on its standard
    output the write end of pipe [i] (nothing for the last), and closes
    both ends of every pipe. *)
Theorem pipeline_stage_wiring
    (n i : nat) (pgid : Z) (c : Command) (w : world)
    (fds : list (Z * Z)) (rp : list (option (Z * Z)))
    (cw : child_world) (d1 d2 d3 d4 : Z) (rd : list Z) (o1 o2 : Z) (ro : list Z) :
  os_pipe w = map Some fds ++ rp ->
  length fds = (n - 1)%nat ->
  (i < n)%nat ->
  infile c = "" -> outfile c = "" ->
  c_dup2 cw = d1 :: d2 :: d3 :: d4 :: rd ->
  c_open cw = o1 :: o2 :: ro ->
  Forall (fun x => 0 <= x) [d1; d2; d3; d4; o1; o2] ->
  exists pipes w1 cw' es,
    make_pipes (n - 1) 0 (replicate (2 * (n - 1)) 0) w = Some (Some pipes, w1) /\
    child_setup n i pgid pipes c cw = Some (CVal tt, cw') /\
    c_trace cw' = c_trace cw ++ es /\
    dup2_onto STDIN_FILENO es =
      (if (0 <? i)%nat then [fst (nth (i - 1) fds (0, 0))] else []) /\
    dup2_onto STDOUT_FILENO es =
      (if (i <? n - 1)%nat then [snd (nth i fds (0, 0))] else []) /\
    (forall p, In p fds -> In (CClose (fst p)) es /\ In (CClose (snd p)) es).
Proof.
  intros Hp Hn Hi Hin Hout Hd Ho Hpos.
  pose proof (make_pipes_exact fds 0%nat [] w rp eq_refl Hp) as Ep.
  cbn [app] in Ep. rewrite Hn in Ep.
  destruct (child_setup_trace n i pgid (pipe_fds fds) c cw _ _ _ _ _ _ _ _ Hd Ho Hpos)
    as (cw' & E & T).
  exists (pipe_fds fds). eexists. exists cw'. eexists.
  split; [exact Ep|]. split; [exact E|]. split; [exact T|].
  unfold setup_calls. rewrite Hin, Hout. cbn [str_empty].
  split; [|split].
  - destruct (0 <? i)%nat eqn:E0.
    + apply Nat.ltb_lt in E0.
      destruct (nth_pipe_fds fds (i - 1)) as [-> _]; [lia|].
      destruct (i <? n - 1)%nat, (pgid =? 0);
        rewrite ?dup2_onto_app, ?dup2_onto_closes; reflexivity.
    + destruct (i <? n - 1)%nat, (pgid =? 0);
        rewrite ?dup2_onto_app, ?dup2_onto_closes; reflexivity.
  - destruct (i <? n - 1)%nat eqn:E1.
    + apply Nat.ltb_lt in E1.
      destruct (nth_pipe_fds fds i) as [_ ->]; [lia|].
      destruct (0 <? i)%nat, (pgid =? 0);
        rewrite ?dup2_onto_app, ?dup2_onto_closes; reflexivity.
    + destruct (0 <? i)%nat, (pgid =? 0);
        rewrite ?dup2_onto_app, ?dup2_onto_closes; reflexivity.
  - intros p Hin_p.
    assert (Hf : In (fst p) (pipe_fds fds) /\ In (snd p) (pipe_fds fds)).
    { unfold pipe_fds. split; apply in_flat_map; exists p; simpl; auto. }
    destruct Hf as [H1 H2].
    split; rewrite !in_app_iff; do 5 right; apply in_map_iff; eauto.
Qed.

(** The second of three stages: it reads from the first pipe and writes
    to the second. *)
Lemma pipeline_stage_witness :
  exists pipes w1 cw' es,
    make_pipes 2 0 [0; 0; 0; 0] (with_pipe [Some (3, 4); Some (5, 6)] w0)
      = Some (Some pipes, w1) /\
    child_setup 3 1 100 pipes (mkCommand ["sort"] "" "" false)
                (ChildWorld [] [0; 1; 0; 1] [7; 8] true) = Some (CVal tt, cw') /\
    c_trace cw' = [] ++ es /\
    dup2_onto STDIN_FILENO es = [3] /\ dup2_onto STDOUT_FILENO es = [6].
Proof.
  destruct (pipeline_stage_wiring 3 1 100 (mkCommand ["sort"] "" "" false)
              (with_pipe [Some (3, 4); Some (5, 6)] w0) [(3, 4); (5, 6)] []
              (ChildWorld [] [0; 1; 0; 1] [7; 8] true) 0 1 0 1 [] 7 8 []
              eq_refl eq_refl)
    as (pipes & w1 & cw' & es & H1 & H2 & H3 & H4 & H5 & _);
    try reflexivity; [lia|repeat constructor; lia|].
  exists pipes, w1, cw', es. auto.
Defined.

Lemma fork_all_child pids :
  forall k i pg acc w rf,
    os_fork w = pids ++ 0 :: rf ->
    Forall (fun p => 0 < p) pids ->
    (length pids < k)%nat ->
    fork_all k i pg acc w =
      Some (InChild (i + length pids) (group_after pg pids),
            logs (fork_events pg pids ++ [SysFork]) (with_fork rf w)).
Proof.
  induction pids as [|p ps IH]; intros k i pg acc w rf Hs Hp Hk.
  - destruct k as [|k]; [simpl in Hk; lia|].
    cbn [fork_all]. unfold bind at 1. unfold sys_fork. rewrite Hs.
    cbn [app]. change (0 <? 0) with false. change (0 =? 0) with true. cbv iota.
    unfold ret. rewrite Nat.add_0_r. do 2 f_equal; same_world w.
  - inversion Hp as [|? ? Hp0 Hps]; subst.
    destruct k as [|k]; [simpl in Hk; lia|].
    cbn [fork_all]. unfold bind at 1. unfold sys_fork. rewrite Hs.
    cbn [app]. replace (p <? 0) with false by lia. replace (p =? 0) with false by lia.
    unfold bind at 1. unfold emit, lift.
    rewrite (IH k _ _ _ _ rf) by (destruct w; simpl in *; auto; lia).
    cbn [length]. replace (S i + length ps)%nat with (i + S (length ps))%nat by lia.
    do 2 f_equal. same_world w.
Qed.

(** X21.  In the process where the [fork] of stage [i] returns 0, the
    launch stops there: the child knows the group as it was at the time
    of the fork, 0 for the first stage (which then makes its own group)
    and the pid of the first child for the others; the parent's part up
    to then made the pipes and the earlier children, and has registered
    nothing and not touched the terminal. *)
Theorem launch_in_child
    (n : nat) (background : bool) (raw : string) (w : world)
    (fds : list (Z * Z)) (rp : list (option (Z * Z))) (pids rf : list Z) :
  os_pipe w = map Some fds ++ rp ->
  length fds = (n - 1)%nat ->
  os_fork w = pids ++ 0 :: rf ->
  Forall (fun q => 0 < q) pids ->
  (length pids < n)%nat ->
  exists w',
    launch n background raw w = Some (RpChild (length pids) (hd 0 pids), w') /\
    trace w' = trace w ++ repeat SysPipe (n - 1) ++ fork_events 0 pids ++ [SysFork] /\
    jobs w' = jobs w /\ next_jid w' = next_jid w /\ os_wait w' = os_wait w.
Proof.
  intros Hp Hfds Hf Hpos Hn. unfold launch. rewrite <- Hfds.
  pose proof (make_pipes_exact fds 0%nat [] w rp eq_refl Hp) as Ep.
  cbn [app] in Ep. unfold bind at 1. rewrite Ep. unfold bind.
  rewrite (fork_all_child pids n 0%nat 0 [] _ rf) by (auto; destruct w; exact Hf).
  assert (Hg : group_after 0 pids = hd 0 pids).
  { destruct pids as [|p ps]; [reflexivity|]. inversion Hpos; subst.
    unfold group_after. simpl. apply group_after_pos. lia. }
  rewrite Hg. unfold ret. eexists. split; [reflexivity|].
  destruct w; cbn -[repeat fork_events]. rewrite <- ?app_assoc. auto.
Qed.

(** The second stage of "a | b". *)
Lemma launch_in_child_witness :
  exists w',
    launch 2 false "a | b" (with_fork [100; 0] (with_pipe [Some (3, 4)] w0))
      = Some (RpChild 1 100, w') /\
    jobs w' = [].
Proof.
  destruct (launch_in_child 2 false "a | b"
              (with_fork [100; 0] (with_pipe [Some (3, 4)] w0))
              [(3, 4)] [] [100] [] eq_refl eq_refl eq_refl)
    as (w' & E & _ & Hj & _).
  - repeat constructor.
  - simpl. lia.
  - exists w'. split; assumption.
Defined.

(** ** The table in a turn of the loop *)

Lemma jids_increasing_NoDup js : jids_increasing js -> NoDup (map jid js).
Proof.
  induction js as [|j js IH]; intros H; [constructor|].
  apply jids_increasing_cons in H as [Hf H]. simpl. constructor; [|now apply IH].
  intros Hin. apply list_elem_of_In, in_map_iff in Hin as (b & Hb & Hin).
  rewrite Forall_forall in Hf. apply list_elem_of_In, Hf in Hin. lia.
Qed.

Section Loop.

Variable getpgid : Z -> Z.
Variable HOME : option string.

(** X22.  From a table in order whose counter is below [INT_MAX], a turn
    of the loop of [main] that comes back leaves the job ids of the table
    positive, below [next_jid], increasing along the table, and so all
    different; and the counter has gone up by one at most.  This holds
    whatever the line, the children and the system answer. *)
Theorem main_iter_job_ids_distinct (line : option string) (w w' : world) (f : flow) :
  table_ok w ->
  next_jid w < INT_MAX ->
  main_iter getpgid HOME line w = Some (f, w') ->
  table_ok w' /\ NoDup (map jid (jobs w')) /\
  next_jid w <= next_jid w' <= next_jid w + 1.
Proof.
  intros Hw Hr E.
  destruct (main_iter_keeps_table getpgid HOME line w f w' E Hw) as [H Hn];
    [simpl; lia|].
  split; [exact H|]. split; [|simpl in Hn; lia].
  destruct H as (_ & Hi & _). now apply jids_increasing_NoDup.
Qed.

(** X23.  [cd] runs in the shell whatever follows it on the line.  It
    goes to its argument as a C string (the bytes before the first NUL),
    or to [HOME], or to "/" when [HOME] is not set; when [chdir] fails it
    prints the diagnostic "cd", and in both cases the loop goes on with
    the table as it was. *)
Theorem cd_goes_or_reports (args : list string) (background : bool) (input : string)
    (w : world) (r : Z) (rest : list Z) :
  os_chdir w = r :: rest ->
  let path := match args with
              | p :: _ => c_str p
              | [] => match HOME with Some h => h | None => "/" end
              end in
  exists w',
    dispatch getpgid HOME ("cd" :: args) background input w = Some (Continue, w') /\
    trace w' = trace w ++ SysChdir path :: (if r =? 0 then [] else [Perror "cd"]) /\
    jobs w' = jobs w /\ next_jid w' = next_jid w /\ os_chdir w' = rest /\
    os_fork w' = os_fork w.
Proof.
  intros Hc path. unfold dispatch. change (String.eqb "cd" "jobs") with false.
  change (String.eqb "cd" "cd") with true. cbv iota.
  unfold builtin_cd, bind, sys_chdir. rewrite Hc.
  replace (match ("cd" :: args) !! 1%nat with
           | Some p => c_str p
           | None => match HOME with Some h => h | None => "/" end
           end) with path by (subst path; now destruct args).
  destruct w as [js nj fl sh tr op ofk ow ok oc].
  destruct (r =? 0); eexists; (split; [reflexivity|]); simpl;
    rewrite <- ?app_assoc; auto.
Qed.

End Loop.

(** The line "sleep 1 &" at the start of the shell. *)
Lemma main_iter_job_ids_witness :
  exists w',
    main_iter gp0 None (Some "sleep 1 &") (with_fork [100] w0) = Some (Continue, w') /\
    map jid (jobs w') = [1] /\
    NoDup (map jid (jobs w')).
Proof.
  eexists. split; [vm_compute; reflexivity|]. split; [reflexivity|].
  apply (main_iter_job_ids_distinct gp0 None (Some "sleep 1 &")
           (with_fork [100] w0) _ Continue).
  - split; [constructor|]. split.
    + intros i k a b _ Ha. destruct i; discriminate.
    + split; [reflexivity|constructor].
  - reflexivity.
  - vm_compute. reflexivity.
Defined.

(** "cd /nonexistent | cat" when [chdir] fails, and a token with a NUL
    byte in it: [chdir] sees "/tmp". *)
Lemma cd_witness :
  (exists w',
      dispatch gp0 None ["cd"; "/nonexistent"; "|"; "cat"] false "cd /nonexistent | cat"
               (with_chdir [-1] w0) = Some (Continue, w') /\
      trace w' = [SysChdir "/nonexistent"; Perror "cd"]) /\
  (exists w',
      dispatch gp0 None ["cd"; ("/tmp" ++ String zero "/nonexistent")%string] false ""
               (with_chdir [0] w0) = Some (Continue, w') /\
      trace w' = [SysChdir "/tmp"]).
Proof.
  split.
  - destruct (cd_goes_or_reports gp0 None ["/nonexistent"; "|"; "cat"] false
                "cd /nonexistent | cat" (with_chdir [-1] w0) (-1) [] eq_refl)
      as (w' & E & T & _).
    exists w'. split; assumption.
  - destruct (cd_goes_or_reports gp0 None
                [("/tmp" ++ String zero "/nonexistent")%string] false
                "" (with_chdir [0] w0) 0 [] eq_refl)
      as (w' & E & T & _).
    exists w'. split; assumption.
Defined.

(** ** The background marker *)

Lemma str_back_snoc s c : str_back (s ++ String c "") = Some c.
Proof.
  induction s as [|a s IH]; [reflexivity|]. rewrite append_cons.
  destruct s as [|b s]; [reflexivity|]. exact IH.
Qed.

Lemma str_pop_back_snoc s c : str_pop_back (s ++ String c "") = s.
Proof.
  induction s as [|a s IH]; [reflexivity|]. rewrite append_cons.
  destruct s as [|b s]; [reflexivity|].
  rewrite append_cons in *. simpl. simpl in IH. now rewrite IH.
Qed.

Lemma str_back_app s t : t <> ""%string -> str_back (s ++ t) = str_back t.
Proof.
  intros Ht. induction s as [|a s IH]; [reflexivity|]. rewrite append_cons.
  destruct (s ++ t)%string eqn:E; [|exact IH].
  destruct s; simpl in E; [contradiction|discriminate].
Qed.

Lemma str_back_word w : no_space w = true -> not_blank (str_back w).
Proof.
  induction w as [|c w IH]; intros H; [exact I|]. simpl in H.
  apply andb_prop in H as [Hc H]. destruct w as [|b w].
  - simpl. now destruct (isspace c).
  - exact (IH H).
Qed.

Lemma unwords_not_empty w ws : is_word w = true -> unwords (w :: ws) <> ""%string.
Proof. destruct w; [discriminate|]. intros _. now destruct ws. Qed.

Lemma unwords_front ws t :
  forallb is_word ws = true -> ws <> [] -> not_blank (str_front (unwords ws ++ t)).
Proof.
  destruct ws as [|w ws]; [easy|]. intros H _. simpl in H.
  apply andb_prop in H as [Hw _]. unfold is_word in Hw.
  apply andb_prop in Hw as [Hne Hn]. destruct w as [|c w]; [discriminate|].
  simpl in Hn. apply andb_prop in Hn as [Hc _].
  destruct ws; cbn [unwords]; rewrite !append_cons; simpl; now destruct (isspace c).
Qed.

Lemma unwords_back ws : forallb is_word ws = true -> not_blank (str_back (unwords ws)).
Proof.
  induction ws as [|w ws IH]; intros H; [exact I|]. simpl in H.
  apply andb_prop in H as [Hw H]. destruct ws as [|w2 ws].
  - apply str_back_word. unfold is_word in Hw. now apply andb_prop in Hw.
  - change (unwords (w :: w2 :: ws)) with (w ++ String " " (unwords (w2 :: ws)))%string.
    rewrite str_back_app by discriminate.
    assert (Hw2 : is_word w2 = true) by (simpl in H; now apply andb_prop in H).
    pose proof (unwords_not_empty w2 ws Hw2) as Hne.
    destruct (unwords (w2 :: ws)) eqn:E; [contradiction|]. exact (IH H).
Qed.

Lemma rtrim_app_space u sp : all_space sp = true -> rtrim (u ++ sp) = rtrim u.
Proof.
  intros H. induction u as [|c u IH].
  - simpl. now apply rtrim_empty.
  - rewrite append_cons, !rtrim_cons, IH. reflexivity.
Qed.

Lemma append_assoc (a b c : string) : ((a ++ b) ++ c)%string = (a ++ (b ++ c))%string.
Proof. induction a as [|x a IH]; [reflexivity|]. now rewrite !append_cons, IH. Qed.

Section Marker.

Variable getpgid : Z -> Z.
Variable HOME : option string.

(** X24.  A line of words followed by [&], with or without blanks before
    the [&], is run in the background: the words are dispatched without
    the marker, and the text kept for the job is the words alone. *)
Theorem trailing_ampersand_is_background (ws : list string) (sp : string) :
  forallb is_word ws = true ->
  ws <> [] ->
  last ws <> Some "&"%string ->
  all_space sp = true ->
  read_command getpgid HOME (unwords ws ++ sp ++ "&") =
  dispatch getpgid HOME ws true (unwords ws).
Proof.
  intros Hw Hne Hl Hs. unfold read_command.
  assert (Ht : trim (unwords ws ++ sp ++ "&") = (unwords ws ++ sp ++ "&")%string).
  { unfold trim, ltrim. rewrite skip_space_fixed by now apply unwords_front.
    apply rtrim_fixed. rewrite <- append_assoc, str_back_snoc. reflexivity. }
  rewrite Ht.
  assert (He : str_empty (unwords ws ++ sp ++ "&") = false).
  { pose proof (unwords_front ws (sp ++ "&") Hw Hne) as Hf.
    destruct ws as [|w ws]; [contradiction|].
    simpl in Hw. apply andb_prop in Hw as [Hw _].
    pose proof (unwords_not_empty w ws Hw) as Hu.
    destruct (unwords (w :: ws)); [contradiction|reflexivity]. }
  rewrite He. cbv iota.
  rewrite <- append_assoc, str_back_snoc, str_pop_back_snoc. cbv iota.
  assert (Hp : trim (unwords ws ++ sp) = unwords ws).
  { unfold trim, ltrim. rewrite skip_space_fixed by now apply unwords_front.
    rewrite rtrim_app_space by exact Hs. apply rtrim_fixed. now apply unwords_back. }
  rewrite Hp. unfold parseInput. rewrite parse_unwords by exact Hw.
  destruct ws as [|w r] eqn:Ews; [contradiction|]. rewrite <- Ews in *.
  destruct (last ws) as [t|] eqn:El.
  - destruct (String.eqb t "&") eqn:Et.
    + apply String.eqb_eq in Et. subst t. contradiction.
    + rewrite Ews. reflexivity.
  - rewrite Ews. reflexivity.
Qed.

End Marker.

(** "sleep 5&" and "sleep 5 &" are the same command. *)
Lemma trailing_ampersand_witness :
  read_command gp0 None "sleep 5&" = dispatch gp0 None ["sleep"; "5"] true "sleep 5" /\
  read_command gp0 None "sleep 5 &" = dispatch gp0 None ["sleep"; "5"] true "sleep 5".
Proof.
  split.
  - apply (trailing_ampersand_is_background gp0 None ["sleep"; "5"] "");
      [reflexivity|discriminate|discriminate|reflexivity].
  - apply (trailing_ampersand_is_background gp0 None ["sleep"; "5"] " ");
      [reflexivity|discriminate|discriminate|reflexivity].
Defined.

(** ** The whole session *)

(** X25.  Whenever the loop of [main] comes back from a session, the
    terminal is with the shell: if the last [tcsetpgrp] before it, if
    any, named [shell_pgid], so does the last one after it, and
    [shell_pgid] is what it was.  This holds whatever the lines, the
    moments at which SIGCHLD arrives, and the answers of [getpgid] and of
    the system in each turn. *)
Theorem main_loop_returns_terminal
    (HOME : option string) (turns : list turn) (w w' : world) (f : flow) :
  tty_home w ->
  main_loop HOME turns w = Some (f, w') ->
  tty_home w' /\ shell_pgid w' = shell_pgid w.
Proof. apply tty_home_extends, home_main_loop. Qed.

(** X26.  From a table in order, with room below [INT_MAX] for one job id
    for each turn, whenever the loop of [main] comes back from a session
    the job ids of the table are positive, below [next_jid], increasing
    along the table, and so all different.  This holds whatever the
    lines, the moments at which SIGCHLD arrives, and the answers of
    [getpgid] and of the system in each turn. *)
Theorem main_loop_job_ids_distinct
    (HOME : option string) (turns : list turn) (w w' : world) (f : flow) :
  table_ok w ->
  next_jid w + Z.of_nat (length turns) <= INT_MAX ->
  main_loop HOME turns w = Some (f, w') ->
  table_ok w' /\ NoDup (map jid (jobs w')) /\
  next_jid w <= next_jid w' <= next_jid w + Z.of_nat (length turns).
Proof.
  intros Hw Hr E.
  destruct (main_loop_keeps_table HOME turns w f w' E Hw Hr) as [H Hn].
  split; [exact H|]. split; [|exact Hn].
  destruct H as (_ & Hi & _). now apply jids_increasing_NoDup.
Qed.

(** The session [turns_fg] ends with the terminal at the shell. *)
Lemma main_loop_terminal_witness :
  exists w',
    main_loop None turns_fg w_turns_fg = Some (Break, w') /\
    last (tcsetpgrp_targets (trace w')) = Some 500 /\
    tty_home w'.
Proof.
  eexists. split; [vm_compute; reflexivity|]. split; [reflexivity|].
  eapply (main_loop_returns_terminal None turns_fg w_turns_fg).
  - exact I.
  - vm_compute. reflexivity.
Defined.

(** The session [turns_bg] ends with the jobs 1 and 2 in the table. *)
Lemma main_loop_job_ids_witness :
  exists w',
    main_loop None turns_bg w_turns_bg = Some (Break, w') /\
    map jid (jobs w') = [1; 2] /\
    NoDup (map jid (jobs w')).
Proof.
  eexists. split; [vm_compute; reflexivity|]. split; [reflexivity|].
  apply (main_loop_job_ids_distinct None turns_bg w_turns_bg _ Break).
  - split; [constructor|]. split.
    + intros i k a b _ Ha. destruct i; discriminate.
    + split; [reflexivity|constructor].
  - unfold INT_MAX. simpl. lia.
  - vm_compute. reflexivity.
Defined.
